(** * KhoHo: sparse matrices with doubly indexed storage and the
      chain-complex reducer built on them.

    Shallow embedding of [sparmat.c] / [sparmat.h] (integer entries),
    [sparmat-U.c] (entries in Z[t]/(t^2 = 1)) and [sparreduce-U.c].

    Conventions of the embedding.
    - A C [int] / [long] value is a [Z]; arithmetic on entry values wraps
      around in two's complement ([CInt.wrap]).  Counters and indices
      ([num_entries], [index]) are bounded by the number of allocated
      nodes and are left unwrapped.
    - A linked list of [SparseEntry] nodes is a [list]; the array of
      vector roots [matr->rows] is a [list] addressed from 1 through
      [vec_at] (the C code writes [rows + row - 1]).
    - A C function that mutates its argument returns the new value of
      the object, its C return value, and the string it stored in
      [ERR_MESSAGE], if any.
    - [malloc] succeeds for every non-negative size. *)

From Stdlib Require Import String.
From Stdlib Require Import ZArith List Lia Bool Setoid Morphisms.
Import ListNotations.
Local Open Scope Z_scope.

(* ------------------------------------------------------------------ *)
(** ** Machine integers *)

Module CInt.

(** Two's complement reduction of [x] to [bits] bits. *)
Definition wrap (bits : positive) (x : Z) : Z :=
  (x + 2 ^ (Z.pos bits - 1)) mod 2 ^ Z.pos bits - 2 ^ (Z.pos bits - 1).

Definition max_int (bits : positive) : Z := 2 ^ (Z.pos bits - 1) - 1.
Definition min_int (bits : positive) : Z := - 2 ^ (Z.pos bits - 1).

Definition in_range (bits : positive) (x : Z) : Prop :=
  min_int bits <= x <= max_int bits.

Definition add bits (x y : Z) : Z := wrap bits (x + y).
Definition mul bits (x y : Z) : Z := wrap bits (x * y).
Definition neg bits (x : Z) : Z := wrap bits (- x).
(** [abs] / [labs]: the magnitude, reduced like any other result. *)
Definition abs bits (x : Z) : Z := wrap bits (Z.abs x).

Lemma pow_split (bits : positive) :
  2 ^ Z.pos bits = 2 * 2 ^ (Z.pos bits - 1).
Proof.
  rewrite <- Z.pow_succ_r by lia. f_equal. lia.
Qed.

Lemma pow_half_pos (bits : positive) : 0 < 2 ^ (Z.pos bits - 1).
Proof. apply Z.pow_pos_nonneg; lia. Qed.

Lemma wrap_in_range bits x : in_range bits (wrap bits x).
Proof.
  unfold in_range, wrap, min_int, max_int.
  pose proof (pow_split bits). pose proof (pow_half_pos bits).
  pose proof (Z.mod_pos_bound (x + 2 ^ (Z.pos bits - 1)) (2 ^ Z.pos bits)).
  lia.
Qed.

Lemma wrap_small bits x : in_range bits x -> wrap bits x = x.
Proof.
  unfold in_range, wrap, min_int, max_int. intros H.
  pose proof (pow_split bits). pose proof (pow_half_pos bits).
  rewrite Z.mod_small; lia.
Qed.

Lemma wrap_idem bits x : wrap bits (wrap bits x) = wrap bits x.
Proof. apply wrap_small, wrap_in_range. Qed.

Lemma wrap_eqm bits x y :
  x mod 2 ^ Z.pos bits = y mod 2 ^ Z.pos bits -> wrap bits x = wrap bits y.
Proof.
  intros H. unfold wrap. f_equal.
  rewrite (Z.add_mod x), (Z.add_mod y), H by (apply Z.pow_nonzero; lia).
  reflexivity.
Qed.

Lemma wrap_mod bits x :
  (wrap bits x) mod 2 ^ Z.pos bits = x mod 2 ^ Z.pos bits.
Proof.
  unfold wrap.
  pose proof (pow_split bits) as Hs. pose proof (pow_half_pos bits) as Hp.
  set (h := 2 ^ (Z.pos bits - 1)) in *. set (m := 2 ^ Z.pos bits) in *.
  assert (Hm : m <> 0) by lia.
  rewrite Zminus_mod, Zmod_mod, <- Zminus_mod.
  f_equal. lia.
Qed.

Lemma wrap_add_l bits x y : wrap bits (wrap bits x + y) = wrap bits (x + y).
Proof.
  apply wrap_eqm.
  rewrite Z.add_mod, wrap_mod, <- Z.add_mod; try reflexivity;
    apply Z.pow_nonzero; lia.
Qed.

Lemma wrap_add_r bits x y : wrap bits (x + wrap bits y) = wrap bits (x + y).
Proof. rewrite Z.add_comm, wrap_add_l, Z.add_comm. reflexivity. Qed.

Lemma wrap_mul_l bits x y : wrap bits (wrap bits x * y) = wrap bits (x * y).
Proof.
  apply wrap_eqm.
  rewrite Z.mul_mod, wrap_mod, <- Z.mul_mod; try reflexivity;
    apply Z.pow_nonzero; lia.
Qed.

Lemma wrap_mul_r bits x y : wrap bits (x * wrap bits y) = wrap bits (x * y).
Proof. rewrite Z.mul_comm, wrap_mul_l, Z.mul_comm. reflexivity. Qed.

Lemma wrap_0 bits : wrap bits 0 = 0.
Proof.
  apply wrap_small. unfold in_range, min_int, max_int.
  pose proof (pow_half_pos bits). lia.
Qed.

End CInt.

(* ------------------------------------------------------------------ *)
(** ** The data model and the code shared by [sparmat.c] and
       [sparmat-U.c]

    The two files differ in the type of entry values and in how a
    removed value is handed back; the list traversals, [get_v_entry],
    [find_v_unit] and the merge loop of [add_m_colrows] are the same
    text, and are embedded once, over an arbitrary value type. *)

Module Core.

Set Implicit Arguments.

Section Data.

Variable V : Type.

(** [struct sparse_entry]: the [next] pointer is the tail of the list. *)
Record SparseEntry : Type := mkEntry { index : Z; value : V }.

(** [struct sparse_vector]: [num_entries = -1] marks a deleted vector. *)
Record SparseVector : Type :=
  mkVector { num_entries : Z; entries : list SparseEntry }.

(** [struct sparse_matrix]. *)
Record SparseMatrix : Type :=
  mkMatrix { num_rows : Z; num_cols : Z;
             rows : list SparseVector; columns : list SparseVector }.

(** [vecs + i - 1]: the root of vector number [i], when it is allocated. *)
Definition vec_at (vecs : list SparseVector) (i : Z) : option SparseVector :=
  if i <? 1 then None else nth_error vecs (Z.to_nat (i - 1)).

Fixpoint set_nth (n : nat) (v : SparseVector) (vecs : list SparseVector)
  : list SparseVector :=
  match vecs, n with
  | [], _ => []
  | _ :: t, O => v :: t
  | h :: t, S n' => h :: set_nth n' v t
  end.

(** Writing through the pointer [vecs + i - 1]. *)
Definition set_vec (vecs : list SparseVector) (i : Z) (v : SparseVector)
  : list SparseVector :=
  if i <? 1 then vecs else set_nth (Z.to_nat (i - 1)) v vecs.

(** The traversal
    [for (eptr = vec->entries; eptr != NULL; eptr = eptr->next)
       if (eptr->index >= ind) break;]
    returns the list that starts at [eptr]. *)
Fixpoint seek (ind : Z) (l : list SparseEntry) : list SparseEntry :=
  match l with
  | [] => []
  | e :: t => if index e >=? ind then l else seek ind t
  end.

(** The same traversal keeping [prev], followed by the unlinking of the
    entry found: the value removed, if any, and the list left. *)
Fixpoint unlink (ind : Z) (l : list SparseEntry)
  : option V * list SparseEntry :=
  match l with
  | [] => (None, [])
  | e :: t =>
      if index e >=? ind then
        if index e =? ind then (Some (value e), t) else (None, l)
      else let '(r, t') := unlink ind t in (r, e :: t')
  end.

(** The same traversal followed by the overwriting of the entry found
    or the linking of a new node after [prev]; the flag tells whether a
    node was allocated. *)
Fixpoint splice (ind : Z) (val : V) (l : list SparseEntry)
  : bool * list SparseEntry :=
  match l with
  | [] => (true, [mkEntry ind val])
  | e :: t =>
      if index e >=? ind then
        if index e =? ind then (false, mkEntry ind val :: t)
        else (true, mkEntry ind val :: l)
      else let '(c, t') := splice ind val t in (c, e :: t')
  end.

(** [get_v_entry]; [zero] is [0], or the shared [Uzero]. *)
Definition get_v_entry (zero : V) (vec : SparseVector) (ind : Z) : V :=
  match seek ind (entries vec) with
  | e :: _ => if index e =? ind then value e else zero
  | [] => zero
  end.

(** The loop of [find_v_unit]: first entry whose [ABSFUNC] is 1. *)
Fixpoint first_unit (absf : V -> Z) (l : list SparseEntry)
  : option SparseEntry :=
  match l with
  | [] => None
  | e :: t => if absf (value e) =? 1 then Some e else first_unit absf t
  end.

(** [find_v_unit], called with a non-NULL [val]: the index returned and
    the content of [*val] afterwards ([None]: left untouched). *)
Definition find_v_unit (absf : V -> Z) (vec : SparseVector)
  : Z * option V * option string :=
  if num_entries vec =? -1 then
    (-1, None, Some "find_v_unit: vector is already deleted"%string)
  else match first_unit absf (entries vec) with
       | Some e => (index e, Some (value e), None)
       | None => (0, None, None)
       end.

(** *** Logical view of a list of entries *)

(** Value stored under index [i], by plain search. *)
Fixpoint find_entry (i : Z) (l : list SparseEntry) : option V :=
  match l with
  | [] => None
  | e :: t => if index e =? i then Some (value e) else find_entry i t
  end.

(** Every index of [l] is above [lo], and they strictly increase. *)
Fixpoint ascending_from (lo : Z) (l : list SparseEntry) : Prop :=
  match l with
  | [] => True
  | e :: t => lo < index e /\ ascending_from (index e) t
  end.

Definition ascending (l : list SparseEntry) : Prop :=
  match l with
  | [] => True
  | e :: t => ascending_from (index e) t
  end.

Definition ents (vecs : list SparseVector) (i : Z) : list SparseEntry :=
  match vec_at vecs i with Some v => entries v | None => [] end.

(** Two orthogonal families of vectors describe the same cells. *)
Definition consistent (A B : list SparseVector) : Prop :=
  forall i j, find_entry j (ents A i) = find_entry i (ents B j).

(** A vector whose counter tells the length of its list. *)
Definition counted (v : SparseVector) : Prop :=
  num_entries v = Z.of_nat (length (entries v)).

End Data.

Arguments mkEntry {V}.
Arguments mkVector {V}.
Arguments mkMatrix {V}.

Unset Implicit Arguments.

Section ListFacts.

Variable V : Type.
Local Abbreviation E := (SparseEntry V).

Lemma ascending_from_weaken lo lo' (l : list E) :
  lo' <= lo -> ascending_from lo l -> ascending_from lo' l.
Proof. destruct l; simpl; intuition lia. Qed.

Lemma ascending_from_ascending lo (l : list E) :
  ascending_from lo l -> ascending l.
Proof. destruct l; simpl; intuition. Qed.


Lemma ascending_tail (e : E) l : ascending (e :: l) -> ascending l.
Proof. simpl. apply ascending_from_ascending. Qed.

Lemma find_entry_above lo (l : list E) i :
  ascending_from lo l -> i <= lo -> find_entry i l = None.
Proof.
  revert lo. induction l as [|e t IH]; simpl; intros lo H Hi; [reflexivity|].
  destruct H as [H1 H2].
  destruct (Z.eqb_spec (index e) i); [lia|].
  apply (IH (index e)); [assumption | lia].
Qed.

Lemma seek_find (l : list E) ind :
  ascending l ->
  match seek ind l with
  | e :: _ => if index e =? ind then Some (value e) else None
  | [] => None
  end = find_entry ind l.
Proof.
  induction l as [|e t IH]; simpl; intros H; [reflexivity|].
  destruct (Z.geb_spec (index e) ind) as [Hge|Hlt].
  - destruct (Z.eqb_spec (index e) ind) as [He|He]; [reflexivity|].
    symmetry. apply (find_entry_above _ _ _ H). lia.
  - destruct (Z.eqb_spec (index e) ind); [lia|].
    apply IH. eapply ascending_tail; eassumption.
Qed.

Lemma get_v_entry_find (zero : V) (vec : SparseVector V) ind :
  ascending (entries vec) ->
  get_v_entry zero vec ind =
  match find_entry ind (entries vec) with Some v => v | None => zero end.
Proof.
  intros H. unfold get_v_entry. rewrite <- (seek_find (entries vec) ind H).
  destruct (seek ind (entries vec)) as [|e t]; [reflexivity|].
  destruct (index e =? ind); reflexivity.
Qed.

Lemma find_entry_In (l : list E) i v :
  find_entry i l = Some v -> In (mkEntry i v) l.
Proof.
  induction l as [|e t IH]; simpl; [discriminate|].
  destruct (Z.eqb_spec (index e) i) as [He|He].
  - intros [= <-]. left. destruct e; simpl in *; subst; reflexivity.
  - intros H. right. auto.
Qed.

Lemma In_find_entry (l : list E) e :
  ascending l -> In e l -> find_entry (index e) l = Some (value e).
Proof.
  induction l as [|a t IH]; simpl; [contradiction|].
  intros Ha [->|Hin].
  - rewrite Z.eqb_refl. reflexivity.
  - destruct (Z.eqb_spec (index a) (index e)) as [He|He].
    + pose proof (IH (ascending_from_ascending _ _ Ha) Hin) as Hf.
      rewrite (find_entry_above _ _ _ Ha) in Hf by lia. discriminate.
    + apply IH; [eapply ascending_from_ascending; eassumption | assumption].
Qed.

(** *** [unlink] *)

Lemma unlink_fst (l : list E) ind :
  ascending l -> fst (unlink ind l) = find_entry ind l.
Proof.
  induction l as [|e t IH]; simpl; intros H; [reflexivity|].
  destruct (Z.geb_spec (index e) ind) as [Hge|Hlt].
  - destruct (Z.eqb_spec (index e) ind); simpl; [reflexivity|].
    symmetry. apply (find_entry_above _ _ _ H). lia.
  - destruct (Z.eqb_spec (index e) ind); [lia|].
    specialize (IH (ascending_tail _ _ H)).
    destruct (unlink ind t). simpl in *. assumption.
Qed.

Lemma unlink_from lo (l : list E) ind :
  ascending_from lo l -> ascending_from lo (snd (unlink ind l)).
Proof.
  revert lo. induction l as [|e t IH]; simpl; intros lo H; [exact I|].
  destruct H as [H1 H2].
  destruct (index e >=? ind).
  - destruct (index e =? ind); simpl; [|auto].
    eapply ascending_from_weaken; [|eassumption]. lia.
  - specialize (IH _ H2). destruct (unlink ind t). simpl in *. auto.
Qed.

Lemma unlink_ascending (l : list E) ind :
  ascending l -> ascending (snd (unlink ind l)).
Proof.
  destruct l as [|e t]; simpl; intros H; [exact I|].
  destruct (index e >=? ind).
  - destruct (index e =? ind); simpl;
      [eapply ascending_from_ascending; eassumption | assumption].
  - pose proof (unlink_from _ _ ind H) as H'.
    destruct (unlink ind t). simpl in *. assumption.
Qed.

Lemma unlink_find (l : list E) ind j :
  ascending l ->
  find_entry j (snd (unlink ind l)) =
  if j =? ind then None else find_entry j l.
Proof.
  induction l as [|e t IH]; simpl; intros H.
  - destruct (j =? ind); reflexivity.
  - destruct (Z.geb_spec (index e) ind) as [Hge|Hlt].
    + destruct (Z.eqb_spec (index e) ind) as [He|He]; simpl.
      * destruct (Z.eqb_spec j ind) as [Hj|Hj].
        -- apply (find_entry_above _ _ _ H). lia.
        -- destruct (Z.eqb_spec (index e) j); [lia | reflexivity].
      * destruct (Z.eqb_spec j ind) as [Hj|Hj]; [|reflexivity].
        destruct (Z.eqb_spec (index e) j); [lia|].
        apply (find_entry_above _ _ _ H). lia.
    + specialize (IH (ascending_tail _ _ H)).
      destruct (unlink ind t) as [r t']. simpl in *.
      destruct (Z.eqb_spec (index e) j) as [He|He]; [|assumption].
      destruct (Z.eqb_spec j ind); [lia | reflexivity].
Qed.

Lemma unlink_length (l : list E) ind :
  Z.of_nat (length (snd (unlink ind l))) =
  Z.of_nat (length l) -
  match fst (unlink ind l) with Some _ => 1 | None => 0 end.
Proof.
  induction l as [|e t IH]; [reflexivity|].
  cbn [unlink].
  destruct (index e >=? ind).
  - destruct (index e =? ind); cbn [fst snd length]; lia.
  - destruct (unlink ind t) as [r t']. cbn [fst snd length] in *. lia.
Qed.

Lemma unlink_Forall (P : E -> Prop) (l : list E) ind :
  Forall P l -> Forall P (snd (unlink ind l)).
Proof.
  induction 1 as [|e t He Ht IH]; simpl; [constructor|].
  destruct (index e >=? ind).
  - destruct (index e =? ind); simpl; [assumption | constructor; assumption].
  - destruct (unlink ind t). simpl in *. constructor; assumption.
Qed.

Lemma unlink_none (l : list E) ind :
  fst (unlink ind l) = None -> snd (unlink ind l) = l.
Proof.
  induction l as [|e t IH]; simpl; [reflexivity|].
  destruct (index e >=? ind).
  - destruct (index e =? ind); simpl; [discriminate | reflexivity].
  - destruct (unlink ind t) as [r t']. simpl in *.
    intros H. rewrite IH; auto.
Qed.

(** *** [splice] *)

Lemma splice_from lo (l : list E) ind val :
  lo < ind -> ascending_from lo l ->
  ascending_from lo (snd (splice ind val l)).
Proof.
  revert lo. induction l as [|e t IH]; simpl; intros lo Hlo H.
  - auto.
  - destruct H as [H1 H2].
    destruct (Z.geb_spec (index e) ind) as [Hge|Hlt].
    + destruct (Z.eqb_spec (index e) ind) as [He|He]; simpl.
      * split; [lia|]. subst ind. assumption.
      * split; [lia|]. split; [lia | assumption].
    + specialize (IH (index e) ltac:(lia) H2).
      destruct (splice ind val t). simpl in *. auto.
Qed.

Lemma splice_ascending (l : list E) ind val :
  ascending l -> ascending (snd (splice ind val l)).
Proof.
  destruct l as [|e t]; simpl; intros H; [exact I|].
  destruct (Z.geb_spec (index e) ind) as [Hge|Hlt].
  - destruct (Z.eqb_spec (index e) ind) as [He|He]; simpl.
    + subst ind. assumption.
    + split; [lia | assumption].
  - pose proof (splice_from (index e) t ind val ltac:(lia) H) as H'.
    destruct (splice ind val t). simpl in *. assumption.
Qed.

Lemma splice_find (l : list E) ind val j :
  ascending l ->
  find_entry j (snd (splice ind val l)) =
  if j =? ind then Some val else find_entry j l.
Proof.
  induction l as [|e t IH]; simpl; intros H.
  - rewrite (Z.eqb_sym ind j). destruct (j =? ind); reflexivity.
  - destruct (Z.geb_spec (index e) ind) as [Hge|Hlt].
    + destruct (Z.eqb_spec (index e) ind) as [He|He]; simpl.
      * rewrite (Z.eqb_sym ind j).
        destruct (Z.eqb_spec j ind) as [Hj|Hj]; [reflexivity|].
        destruct (Z.eqb_spec (index e) j); [lia | reflexivity].
      * rewrite (Z.eqb_sym ind j).
        destruct (Z.eqb_spec j ind) as [Hj|Hj]; reflexivity.
    + specialize (IH (ascending_tail _ _ H)).
      destruct (splice ind val t) as [c t']. simpl in *.
      destruct (Z.eqb_spec (index e) j) as [He|He]; [|assumption].
      destruct (Z.eqb_spec j ind); [lia | reflexivity].
Qed.

Lemma splice_length (l : list E) ind val :
  Z.of_nat (length (snd (splice ind val l))) =
  Z.of_nat (length l) + (if fst (splice ind val l) then 1 else 0).
Proof.
  induction l as [|e t IH]; [reflexivity|].
  cbn [splice].
  destruct (index e >=? ind).
  - destruct (index e =? ind); cbn [fst snd length]; lia.
  - destruct (splice ind val t) as [c t']. cbn [fst snd length] in *. lia.
Qed.

Lemma splice_Forall (P : E -> Prop) (l : list E) ind val :
  P (mkEntry ind val) -> Forall P l -> Forall P (snd (splice ind val l)).
Proof.
  intros Hp. induction 1 as [|e t He Ht IH]; simpl.
  - constructor; [assumption | constructor].
  - destruct (index e >=? ind).
    + destruct (index e =? ind); simpl; repeat constructor; assumption.
    + destruct (splice ind val t). simpl in *. constructor; assumption.
Qed.

End ListFacts.

Set Implicit Arguments.

Section Code.

Variable V : Type.
Local Abbreviation E := (SparseEntry V).
Local Abbreviation SV := (SparseVector V).

(** The ring operations and limits the code is compiled with. *)
Variables (vadd vmul : V -> V -> V) (is_zero : V -> bool).
Variables (ABSFUNC : V -> Z) (ENTRY_MAX : Z).

(** What [remove_v_entry] does to a vector that is not deleted: the
    value of the entry unlinked, if there was one, and the vector left. *)
Definition remove_found (vec : SV) (ind : Z) : option V * SV :=
  match unlink ind (entries vec) with
  | (Some val, l) => (Some val, mkVector (num_entries vec - 1) l)
  | (None, _) => (None, vec)
  end.

(** What [add_v_entry] does to a vector that is not deleted.  For a zero
    value it calls [remove_v_entry] and drops the result. *)
Definition put (vec : SV) (ind : Z) (val : V) : SV :=
  if is_zero val then snd (remove_found vec ind)
  else match splice ind val (entries vec) with
       | (true, l) => mkVector (num_entries vec + 1) l
       | (false, l) => mkVector (num_entries vec) l
       end.

(** [add_v_entry]. *)
Definition add_v_entry (vec : SV) (ind : Z) (val : V)
  : SV * Z * option string :=
  if num_entries vec =? -1 then
    (vec, -1, Some "add_v_entry: vector is already deleted"%string)
  else (put vec ind val, 0, None).

(** The inner [continue] branch of the loop of [add_m_colrows]: entries
    of the first vector below the current index of the second one are
    kept; returns them and the list that starts at [eptr1]. *)
Fixpoint skip_below (k : Z) (l : list E) : list E * list E :=
  match l with
  | [] => ([], [])
  | e :: t =>
      if index e <? k then let '(kept, rest) := skip_below k t in
                           (e :: kept, rest)
      else ([], l)
  end.

(** Reading through a pointer that leaves the array of vector roots has
    no defined behaviour; the embedding stops there with this message. *)
Definition wild_pointer : string := "vector index outside the array"%string.

(** The [while (eptr2 != NULL)] loop of [add_m_colrows].  [l2] is the
    list from [eptr2], [l1] the list from [eptr1], [n1] the counter of
    the first vector.  Returns the part of the first vector's list from
    the position the call started at, its counter, the orthogonal
    vectors, the value returned and the message.  The nodes before the
    current position are never touched again, so the result of the
    calling iteration is its kept prefix followed by this list. *)
Fixpoint merge_loop (cr_ind1 : Z) (scalar : V) (l2 l1 : list E) (n1 : Z)
    (others : list SV) (maxval : Z) {struct l2}
  : list E * Z * list SV * Z * option string :=
  match l2 with
  | [] => (l1, n1, others, maxval, None)
  | e2 :: t2 =>
      let '(kept, rest) := skip_below (index e2) l1 in
      let '(cur, rest1, n1a) :=
        match rest with
        | e1 :: t1 =>
            if index e1 >? index e2 then
              (mkEntry (index e2) (vmul scalar (value e2)), rest, n1 + 1)
            else
              (mkEntry (index e1) (vadd (value e1) (vmul scalar (value e2))),
               t1, n1)
        | [] => (mkEntry (index e2) (vmul scalar (value e2)), [], n1 + 1)
        end in
      let maxval' :=
        if ABSFUNC (value cur) >? maxval then ABSFUNC (value cur)
        else maxval in
      if ABSFUNC (value cur) >? ENTRY_MAX then
        (kept ++ cur :: rest1, n1a, others, -1,
         Some "add_m_colrows: entry's value is too big"%string)
      else
        match vec_at others (index cur) with
        | None => (kept ++ cur :: rest1, n1a, others, -1, Some wild_pointer)
        | Some ov =>
            let '(ov', rc, msg) := add_v_entry ov cr_ind1 (value cur) in
            let others' := set_vec others (index cur) ov' in
            if rc =? -1 then (kept ++ cur :: rest1, n1a, others', -1, msg)
            else if is_zero (value cur) then
              let '(l, n, o, r, m) :=
                merge_loop cr_ind1 scalar t2 rest1 (n1a - 1) others' maxval' in
              (kept ++ l, n, o, r, m)
            else
              let '(l, n, o, r, m) :=
                merge_loop cr_ind1 scalar t2 rest1 n1a others' maxval' in
              (kept ++ cur :: l, n, o, r, m)
        end
  end.

(** [add_m_colrows].  When both pointers name the same vector the C loop
    keeps [eptr1 == eptr2] and only takes the matched branch, reading
    each value before it updates it: the lists read here, taken before
    the loop, give the same result. *)
Definition add_m_colrows (cr_vec1 : SV) (cr_ind1 : Z) (cr_vec2 : SV)
    (others : list SV) (scalar : V)
  : SV * list SV * Z * option string :=
  if (num_entries cr_vec1 =? -1) || (num_entries cr_vec2 =? -1) then
    (cr_vec1, others, -1,
     Some "erase_m_colrow: vector is already deleted"%string)
  else
    let '(l, n, o, r, m) :=
      merge_loop cr_ind1 scalar (entries cr_vec2) (entries cr_vec1)
                 (num_entries cr_vec1) others 0 in
    (mkVector n l, o, r, m).

(** [check_m_indices]. *)
Definition check_m_indices (matr : SparseMatrix V) (row col : Z)
  : Z * option string :=
  if (row <? 1) || (row >? num_rows matr) || (col <? 1)
     || (col >? num_cols matr)
  then (-1, Some "check_m_indices: wrong matrix indices"%string)
  else (0, None).

(** [add_m_rows] and [add_m_cols]. *)
Definition add_m_rows (matr : SparseMatrix V) (row1 row2 : Z) (scalar : V)
  : SparseMatrix V * Z * option string :=
  match check_m_indices matr row1 1 with
  | (-1, msg) => (matr, -1, msg)
  | _ =>
    match check_m_indices matr row2 1 with
    | (-1, msg) => (matr, -1, msg)
    | _ =>
      match vec_at (rows matr) row1, vec_at (rows matr) row2 with
      | Some v1, Some v2 =>
          let '(v1', others, r, m) :=
            add_m_colrows v1 row1 v2 (columns matr) scalar in
          (mkMatrix (num_rows matr) (num_cols matr)
                    (set_vec (rows matr) row1 v1') others, r, m)
      | _, _ => (matr, -1, Some wild_pointer)
      end
    end
  end.

Definition add_m_cols (matr : SparseMatrix V) (col1 col2 : Z) (scalar : V)
  : SparseMatrix V * Z * option string :=
  match check_m_indices matr 1 col1 with
  | (-1, msg) => (matr, -1, msg)
  | _ =>
    match check_m_indices matr 1 col2 with
    | (-1, msg) => (matr, -1, msg)
    | _ =>
      match vec_at (columns matr) col1, vec_at (columns matr) col2 with
      | Some v1, Some v2 =>
          let '(v1', others, r, m) :=
            add_m_colrows v1 col1 v2 (rows matr) scalar in
          (mkMatrix (num_rows matr) (num_cols matr) others
                    (set_vec (columns matr) col1 v1'), r, m)
      | _, _ => (matr, -1, Some wild_pointer)
      end
    end
  end.

(** [init_s_matrix]: all vectors empty. *)
Definition init_s_matrix (n_rows n_cols : Z)
  : option (SparseMatrix V) * Z * option string :=
  if (n_rows <? 1) || (n_cols <? 1) then
    (None, -1,
     Some "init_s_matrix: number of rows or columns is too small"%string)
  else
    (Some (mkMatrix n_rows n_cols
             (repeat (mkVector 0 []) (Z.to_nat n_rows))
             (repeat (mkVector 0 []) (Z.to_nat n_cols))), 0, None).

End Code.

Unset Implicit Arguments.

Section ArrayFacts.

Variable V : Type.
Local Abbreviation SV := (SparseVector V).

Lemma set_nth_length n (v : SV) vecs :
  length (set_nth n v vecs) = length vecs.
Proof.
  revert n. induction vecs as [|h t IH]; intros [|n]; simpl; auto.
Qed.

Lemma nth_error_set_nth_same n (v : SV) vecs :
  (n < length vecs)%nat -> nth_error (set_nth n v vecs) n = Some v.
Proof.
  revert n. induction vecs as [|h t IH]; intros [|n]; simpl; intros H;
    try lia; auto. apply IH. lia.
Qed.

Lemma nth_error_set_nth_other n k (v : SV) vecs :
  n <> k -> nth_error (set_nth n v vecs) k = nth_error vecs k.
Proof.
  revert n k. induction vecs as [|h t IH]; intros [|n] [|k] H; simpl; auto.
  - contradiction.
Qed.

Lemma set_vec_length (vecs : list SV) i v :
  length (set_vec vecs i v) = length vecs.
Proof. unfold set_vec. destruct (i <? 1); auto using set_nth_length. Qed.

Lemma vec_at_range (vecs : list SV) i v :
  vec_at vecs i = Some v -> 1 <= i <= Z.of_nat (length vecs).
Proof.
  unfold vec_at. destruct (Z.ltb_spec i 1); [discriminate|].
  intros H'. assert (Hn : nth_error vecs (Z.to_nat (i - 1)) <> None)
    by congruence.
  apply nth_error_Some in Hn. lia.
Qed.

Lemma vec_at_in_range (vecs : list SV) i :
  1 <= i <= Z.of_nat (length vecs) -> exists v, vec_at vecs i = Some v.
Proof.
  intros H. unfold vec_at. destruct (Z.ltb_spec i 1); [lia|].
  destruct (nth_error vecs (Z.to_nat (i - 1))) eqn:Hn; [eauto|].
  apply nth_error_None in Hn. lia.
Qed.

Lemma vec_at_set_vec_same (vecs : list SV) i v v0 :
  vec_at vecs i = Some v0 -> vec_at (set_vec vecs i v) i = Some v.
Proof.
  intros H. pose proof (vec_at_range _ _ _ H) as Hr.
  unfold vec_at, set_vec. destruct (Z.ltb_spec i 1); [lia|].
  apply nth_error_set_nth_same. lia.
Qed.

Lemma vec_at_set_vec_other (vecs : list SV) i j v :
  i <> j -> vec_at (set_vec vecs i v) j = vec_at vecs j.
Proof.
  intros H. unfold vec_at, set_vec.
  destruct (Z.ltb_spec j 1); [reflexivity|].
  destruct (Z.ltb_spec i 1); [reflexivity|].
  apply nth_error_set_nth_other. lia.
Qed.

Lemma vec_at_In (vecs : list SV) i v : vec_at vecs i = Some v -> In v vecs.
Proof.
  unfold vec_at. destruct (i <? 1); [discriminate|]. apply nth_error_In.
Qed.

Lemma In_vec_at (vecs : list SV) v :
  In v vecs -> exists i, vec_at vecs i = Some v.
Proof.
  intros H. apply In_nth_error in H. destruct H as [n Hn].
  exists (Z.of_nat n + 1). unfold vec_at.
  destruct (Z.ltb_spec (Z.of_nat n + 1) 1); [lia|].
  replace (Z.to_nat (Z.of_nat n + 1 - 1)) with n by lia. assumption.
Qed.

Lemma set_vec_Forall (P : SV -> Prop) (vecs : list SV) i v :
  Forall P vecs -> P v -> Forall P (set_vec vecs i v).
Proof.
  intros Hall Hv. unfold set_vec. destruct (i <? 1); [assumption|].
  generalize (Z.to_nat (i - 1)). induction Hall as [|h t Hh Ht IH];
    intros [|n]; simpl; constructor; auto.
Qed.

Lemma ents_set_vec_same (vecs : list SV) i v v0 :
  vec_at vecs i = Some v0 -> ents (set_vec vecs i v) i = entries v.
Proof.
  intros H. unfold ents. rewrite (vec_at_set_vec_same _ _ v _ H). reflexivity.
Qed.

Lemma ents_set_vec_other (vecs : list SV) i j v :
  i <> j -> ents (set_vec vecs i v) j = ents vecs j.
Proof.
  intros H. unfold ents. rewrite vec_at_set_vec_other by assumption.
  reflexivity.
Qed.

Lemma vec_at_repeat (v : SV) n i :
  vec_at (repeat v n) i = if (1 <=? i) && (i <=? Z.of_nat n) then Some v
                          else None.
Proof.
  unfold vec_at. destruct (Z.ltb_spec i 1).
  - destruct (Z.leb_spec 1 i); [lia | reflexivity].
  - destruct (Z.leb_spec 1 i); [|lia]. simpl.
    destruct (Z.leb_spec i (Z.of_nat n)).
    + destruct (nth_error (repeat v n) (Z.to_nat (i - 1))) eqn:Hn.
      * apply nth_error_In, repeat_spec in Hn. congruence.
      * apply nth_error_None in Hn. rewrite repeat_length in Hn. lia.
    + apply nth_error_None. rewrite repeat_length. lia.
Qed.

End ArrayFacts.

Section PutFacts.

Variable V : Type.
Local Abbreviation E := (SparseEntry V).
Local Abbreviation SV := (SparseVector V).
Variable is_zero : V -> bool.

(** The entry a cell holds once [val] is written to it: none for zero. *)
Definition stored (val : V) : option V :=
  if is_zero val then None else Some val.

Lemma remove_found_fst (vec : SV) ind :
  ascending (entries vec) ->
  fst (remove_found vec ind) = find_entry ind (entries vec).
Proof.
  intros H. unfold remove_found.
  pose proof (unlink_fst _ (entries vec) ind H) as Hf.
  destruct (unlink ind (entries vec)) as [[v|] l]; simpl in *; congruence.
Qed.

Lemma remove_found_entries (vec : SV) ind :
  entries (snd (remove_found vec ind)) = snd (unlink ind (entries vec)).
Proof.
  unfold remove_found.
  pose proof (unlink_none _ (entries vec) ind) as Hn.
  destruct (unlink ind (entries vec)) as [[v|] l]; simpl in *;
    [reflexivity | symmetry; auto].
Qed.

Lemma remove_found_find (vec : SV) ind j :
  ascending (entries vec) ->
  find_entry j (entries (snd (remove_found vec ind))) =
  if j =? ind then None else find_entry j (entries vec).
Proof. intros H. rewrite remove_found_entries. apply unlink_find, H. Qed.

Lemma remove_found_ascending (vec : SV) ind :
  ascending (entries vec) -> ascending (entries (snd (remove_found vec ind))).
Proof. intros H. rewrite remove_found_entries. apply unlink_ascending, H. Qed.

Lemma remove_found_counted (vec : SV) ind :
  counted vec -> counted (snd (remove_found vec ind)).
Proof.
  unfold counted, remove_found. intros H.
  pose proof (unlink_length _ (entries vec) ind) as Hl.
  destruct (unlink ind (entries vec)) as [[v|] l]; simpl in *; lia.
Qed.

Lemma remove_found_Forall (P : E -> Prop) (vec : SV) ind :
  Forall P (entries vec) -> Forall P (entries (snd (remove_found vec ind))).
Proof. intros H. rewrite remove_found_entries. apply unlink_Forall, H. Qed.


Lemma put_ascending (vec : SV) ind val :
  ascending (entries vec) -> ascending (entries (put is_zero vec ind val)).
Proof.
  intros H. unfold put. destruct (is_zero val).
  - apply remove_found_ascending, H.
  - pose proof (splice_ascending _ (entries vec) ind val H) as Hs.
    destruct (splice ind val (entries vec)) as [[|] l]; simpl in *; assumption.
Qed.

Lemma put_find (vec : SV) ind val j :
  ascending (entries vec) ->
  find_entry j (entries (put is_zero vec ind val)) =
  if j =? ind then stored val else find_entry j (entries vec).
Proof.
  intros H. unfold put, stored. destruct (is_zero val).
  - apply remove_found_find, H.
  - pose proof (splice_find _ (entries vec) ind val j H) as Hs.
    destruct (splice ind val (entries vec)) as [[|] l]; simpl in *; assumption.
Qed.

Lemma put_counted (vec : SV) ind val :
  counted vec -> counted (put is_zero vec ind val).
Proof.
  intros H. unfold put. destruct (is_zero val).
  - apply remove_found_counted, H.
  - unfold counted in *.
    pose proof (splice_length _ (entries vec) ind val) as Hs.
    destruct (splice ind val (entries vec)) as [[|] l]; simpl in *; lia.
Qed.

Lemma put_Forall (P : E -> Prop) (vec : SV) ind val :
  (is_zero val = false -> P (mkEntry ind val)) ->
  Forall P (entries vec) -> Forall P (entries (put is_zero vec ind val)).
Proof.
  intros Hp H. unfold put. destruct (is_zero val).
  - apply remove_found_Forall, H.
  - pose proof (splice_Forall _ P (entries vec) ind val (Hp eq_refl) H) as Hs.
    destruct (splice ind val (entries vec)) as [[|] l]; simpl in *; assumption.
Qed.

Lemma add_v_entry_live (vec : SV) ind val :
  num_entries vec <> -1 ->
  add_v_entry is_zero vec ind val = (put is_zero vec ind val, 0, None).
Proof.
  intros H. unfold add_v_entry.
  destruct (Z.eqb_spec (num_entries vec) (-1)); [contradiction | reflexivity].
Qed.

Lemma add_v_entry_deleted (vec : SV) ind val :
  num_entries vec = -1 ->
  add_v_entry is_zero vec ind val =
  (vec, -1, Some "add_v_entry: vector is already deleted"%string).
Proof. intros H. unfold add_v_entry. rewrite H. reflexivity. Qed.

End PutFacts.

Section MergeFacts.

Variable V : Type.
Local Abbreviation E := (SparseEntry V).
Local Abbreviation SV := (SparseVector V).
Variables (vadd vmul : V -> V -> V) (is_zero : V -> bool).
Variables (ABSFUNC : V -> Z) (ENTRY_MAX : Z).

Local Abbreviation merge_loop :=
  (merge_loop vadd vmul is_zero ABSFUNC ENTRY_MAX).
Local Abbreviation put := (put is_zero).
Local Abbreviation stored := (stored V is_zero).

(** The value the loop computes for an index of the second vector:
    [scalar * v2] for a new node, [v1 + scalar * v2] for a matched one. *)
Definition comb (scalar : V) (o1 : option V) (v2 : V) : V :=
  match o1 with
  | Some v1 => vadd v1 (vmul scalar v2)
  | None => vmul scalar v2
  end.

Lemma find_entry_app (a b : list E) c :
  find_entry c (a ++ b) =
  match find_entry c a with Some v => Some v | None => find_entry c b end.
Proof.
  induction a as [|e t IH]; simpl; [reflexivity|].
  destruct (index e =? c); auto.
Qed.

Lemma find_entry_below k (a : list E) c :
  Forall (fun e => index e < k) a -> k <= c -> find_entry c a = None.
Proof.
  induction 1 as [|e t He Ht IH]; simpl; intros Hc; [reflexivity|].
  destruct (Z.eqb_spec (index e) c); [lia | auto].
Qed.

Lemma ascending_from_app lo m (a b : list E) :
  ascending_from lo a -> Forall (fun e => index e <= m) a -> lo <= m ->
  ascending_from m b -> ascending_from lo (a ++ b).
Proof.
  revert lo. induction a as [|e t IH]; simpl; intros lo Ha Hall Hlo Hb.
  - eapply ascending_from_weaken; eassumption.
  - destruct Ha as [H1 H2]. inversion Hall as [|? ? He Ht]; subst.
    split; [assumption|]. apply IH; auto.
Qed.

Lemma ascending_from_split lo (a b : list E) :
  ascending_from lo (a ++ b) -> ascending_from lo a /\ ascending_from lo b.
Proof.
  revert lo. induction a as [|e t IH]; simpl; intros lo H.
  - auto.
  - destruct H as [H1 H2]. destruct (IH _ H2) as [Ha Hb].
    repeat split; auto. eapply ascending_from_weaken; [|eassumption]. lia.
Qed.

Lemma skip_below_spec k (l : list E) :
  l = fst (skip_below k l) ++ snd (skip_below k l) /\
  Forall (fun e => index e < k) (fst (skip_below k l)) /\
  match snd (skip_below k l) with e :: _ => k <= index e | [] => True end.
Proof.
  induction l as [|e t IH]; simpl.
  - repeat split; constructor.
  - destruct (Z.ltb_spec (index e) k).
    + destruct (skip_below k t) as [kept rest]. simpl in *.
      destruct IH as (H1 & H2 & H3). repeat split; auto. congruence.
    + simpl. repeat split; auto.
Qed.

(** One iteration of the loop, with the current entry named by what it
    holds in terms of the two lists. *)
Lemma merge_step cr_ind1 scalar (e2 : E) t2 l1 lo n1 others maxval :
  ascending_from lo l1 ->
  exists kept rest1 n1a,
    let cur := mkEntry (index e2) (comb scalar (find_entry (index e2) l1)
                                        (value e2)) in
    let maxval' := if ABSFUNC (value cur) >? maxval then ABSFUNC (value cur)
                   else maxval in
    merge_loop cr_ind1 scalar (e2 :: t2) l1 n1 others maxval =
      (if ABSFUNC (value cur) >? ENTRY_MAX then
         (kept ++ cur :: rest1, n1a, others, -1,
          Some "add_m_colrows: entry's value is too big"%string)
       else
         match vec_at others (index cur) with
         | None => (kept ++ cur :: rest1, n1a, others, -1, Some wild_pointer)
         | Some ov =>
             let '(ov', rc, msg) :=
               add_v_entry is_zero ov cr_ind1 (value cur) in
             let others' := set_vec others (index cur) ov' in
             if rc =? -1 then (kept ++ cur :: rest1, n1a, others', -1, msg)
             else if is_zero (value cur) then
               let '(l, n, o, r, m) :=
                 merge_loop cr_ind1 scalar t2 rest1 (n1a - 1) others' maxval'
               in (kept ++ l, n, o, r, m)
             else
               let '(l, n, o, r, m) :=
                 merge_loop cr_ind1 scalar t2 rest1 n1a others' maxval'
               in (kept ++ cur :: l, n, o, r, m)
         end) /\
    Forall (fun e => index e < index e2) kept /\
    ascending_from lo kept /\
    ascending_from (index e2) rest1 /\
    (forall c, c < index e2 -> find_entry c kept = find_entry c l1) /\
    (forall c, index e2 < c -> find_entry c rest1 = find_entry c l1) /\
    n1a - (Z.of_nat (length kept) + 1 + Z.of_nat (length rest1)) =
    n1 - Z.of_nat (length l1).
Proof.
  intros Hasc.
  destruct (skip_below_spec (index e2) l1) as (Hl & Hk & Hr).
  cbn [Core.merge_loop].
  destruct (skip_below (index e2) l1) as [kept rest]. simpl in Hl, Hk, Hr.
  subst l1.
  destruct (ascending_from_split _ _ _ Hasc) as [Hak Har].
  assert (Hfk : forall c, c < index e2 ->
            find_entry c kept = find_entry c (kept ++ rest)).
  { intros c Hc. rewrite find_entry_app.
    destruct (find_entry c kept); [reflexivity|].
    destruct rest as [|e1 t1]; [reflexivity|]. simpl.
    destruct (Z.eqb_spec (index e1) c); [lia|].
    simpl in Har. symmetry. apply (find_entry_above _ _ _ _ (proj2 Har)). lia. }
  destruct rest as [|e1 t1].
  - exists kept, [], (n1 + 1). cbn zeta.
    rewrite find_entry_app, (find_entry_below _ _ _ Hk (Z.le_refl _)).
    simpl. repeat split; auto.
    + intros c Hc. rewrite find_entry_app, (find_entry_below _ _ _ Hk);
        [reflexivity | lia].
    + rewrite length_app. simpl. lia.
  - simpl in Har. destruct Har as [Har1 Har2].
    destruct (Z.gtb_spec (index e1) (index e2)) as [Hgt|Hle].
    + exists kept, (e1 :: t1), (n1 + 1). cbn zeta.
      rewrite find_entry_app, (find_entry_below _ _ _ Hk (Z.le_refl _)).
      simpl. destruct (Z.eqb_spec (index e1) (index e2)); [lia|].
      rewrite (find_entry_above _ _ _ _ Har2) by lia.
      simpl. repeat split; auto; try lia.
      * intros c Hc. rewrite find_entry_app, (find_entry_below _ _ _ Hk);
          [reflexivity | lia].
      * rewrite length_app. simpl. lia.
    + assert (He : index e1 = index e2) by lia.
      exists kept, t1, n1. cbn zeta.
      rewrite find_entry_app, (find_entry_below _ _ _ Hk (Z.le_refl _)).
      simpl. rewrite He, Z.eqb_refl. simpl.
      repeat split; auto.
      * rewrite <- He. assumption.
      * intros c Hc. rewrite find_entry_app, (find_entry_below _ _ _ Hk) by lia.
        simpl. rewrite He. destruct (Z.eqb_spec (index e2) c); [lia|].
        reflexivity.
      * rewrite length_app. simpl. lia.
Qed.

(** A successful run went through the whole body of the iteration. *)
Lemma merge_step_success cr_ind1 scalar (e2 : E) t2 l1 lo n1 others maxval
    l1' n1' others' ret msg :
  ascending_from lo l1 ->
  merge_loop cr_ind1 scalar (e2 :: t2) l1 n1 others maxval =
    (l1', n1', others', ret, msg) ->
  ret <> -1 ->
  exists kept rest1 n1a ov l,
    let nv := comb scalar (find_entry (index e2) l1) (value e2) in
    let maxval' := if ABSFUNC nv >? maxval then ABSFUNC nv else maxval in
    ABSFUNC nv <= ENTRY_MAX /\
    vec_at others (index e2) = Some ov /\ num_entries ov <> -1 /\
    merge_loop cr_ind1 scalar t2 rest1 (if is_zero nv then n1a - 1 else n1a)
      (set_vec others (index e2) (put ov cr_ind1 nv)) maxval' =
      (l, n1', others', ret, msg) /\
    l1' = kept ++ (if is_zero nv then l else mkEntry (index e2) nv :: l) /\
    Forall (fun e => index e < index e2) kept /\
    ascending_from lo kept /\
    ascending_from (index e2) rest1 /\
    (forall c, c < index e2 -> find_entry c kept = find_entry c l1) /\
    (forall c, index e2 < c -> find_entry c rest1 = find_entry c l1) /\
    n1a - (Z.of_nat (length kept) + 1 + Z.of_nat (length rest1)) =
    n1 - Z.of_nat (length l1).
Proof.
  intros Hasc Hrun Hret.
  destruct (merge_step cr_ind1 scalar e2 t2 l1 lo n1 others maxval Hasc)
    as (kept & rest1 & n1a & Heq & Hk & Hak & Har & Hfk & Hfr & Hn).
  cbn zeta in Heq. cbn [index value] in Heq. rewrite Heq in Hrun. clear Heq.
  set (nv := comb scalar (find_entry (index e2) l1) (value e2)) in *.
  destruct (Z.gtb_spec (ABSFUNC nv) ENTRY_MAX) as [Hbig|Hsmall];
    [inversion Hrun; subst; contradiction|].
  destruct (vec_at others (index e2)) as [ov|] eqn:Hov;
    [|inversion Hrun; subst; contradiction].
  unfold add_v_entry in Hrun.
  destruct (Z.eqb_spec (num_entries ov) (-1)) as [Hdel|Hlive].
  { simpl in Hrun. inversion Hrun; subst; contradiction. }
  cbn [Z.eqb] in Hrun. cbv iota in Hrun.
  exists kept, rest1, n1a, ov.
  destruct (is_zero nv) eqn:Hz.
  - destruct (Core.merge_loop _ _ _ _ _ _ _ t2 rest1 (n1a - 1) _ _)
      as [[[[l n] o] r] m] eqn:Hrec in Hrun.
    inversion Hrun; subst. exists l. cbn zeta. rewrite Hz.
    repeat split; auto.
  - destruct (Core.merge_loop _ _ _ _ _ _ _ t2 rest1 n1a _ _)
      as [[[[l n] o] r] m] eqn:Hrec in Hrun.
    inversion Hrun; subst. exists l. cbn zeta. rewrite Hz.
    repeat split; auto.
Qed.

(** What a successful run of the loop leaves behind. *)
Lemma merge_loop_success cr_ind1 scalar l2 :
  forall l1 lo n1 others maxval l1' n1' others' ret msg,
  ascending_from lo l1 -> ascending_from lo l2 ->
  merge_loop cr_ind1 scalar l2 l1 n1 others maxval =
    (l1', n1', others', ret, msg) ->
  ret <> -1 ->
  ascending_from lo l1' /\
  (forall c, find_entry c l1' =
             match find_entry c l2 with
             | Some v2 => stored (comb scalar (find_entry c l1) v2)
             | None => find_entry c l1
             end) /\
  n1' - Z.of_nat (length l1') = n1 - Z.of_nat (length l1) /\
  length others' = length others /\
  (forall i, vec_at others' i =
             match find_entry i l2 with
             | Some v2 =>
                 option_map
                   (fun ov => put ov cr_ind1
                                  (comb scalar (find_entry i l1) v2))
                   (vec_at others i)
             | None => vec_at others i
             end) /\
  (forall c v2, find_entry c l2 = Some v2 ->
     ABSFUNC (comb scalar (find_entry c l1) v2) <= ENTRY_MAX /\
     exists ov, vec_at others c = Some ov /\ num_entries ov <> -1) /\
  msg = None.
Proof.
  induction l2 as [|e2 t2 IH];
    intros l1 lo n1 others maxval l1' n1' others' ret msg Ha1 Ha2 Hrun Hret.
  - simpl in Hrun. inversion Hrun; subst.
    repeat split; auto; discriminate.
  - destruct Ha2 as [Hlo Ha2].
    destruct (merge_step_success _ _ _ _ _ _ _ _ _ _ _ _ _ _ Ha1 Hrun Hret)
      as (kept & rest1 & n1a & ov & l & Hsmall & Hov & Hlive & Hrec & Hl1'
          & Hk & Hak & Har & Hfk & Hfr & Hn).
    cbn zeta in *.
    set (nv := comb scalar (find_entry (index e2) l1) (value e2)) in *.
    destruct (IH _ (index e2) _ _ _ _ _ _ _ _ Har Ha2 Hrec Hret)
      as (Hal & Hfl & Hnl & Hlen & Hvec & Hbnd & Hmsg).
    assert (Ht2 : forall c, c <= index e2 -> find_entry c t2 = None)
      by (intros c Hc; apply (find_entry_above _ _ _ _ Ha2 Hc)).
    assert (Hr1 : forall c, c <= index e2 -> find_entry c rest1 = None)
      by (intros c Hc; apply (find_entry_above _ _ _ _ Har Hc)).
    assert (Hk' : Forall (fun e : E => index e <= index e2 - 1) kept)
      by (eapply Forall_impl; [|exact Hk]; simpl; intros; lia).
    assert (Hll : forall c, c <= index e2 -> find_entry c l = None).
    { intros c Hc. rewrite Hfl, (Ht2 c Hc). apply Hr1, Hc. }
    repeat split.
    + (* ascending *)
      subst l1'. apply ascending_from_app with (m := index e2 - 1);
        auto; [lia|].
      destruct (is_zero nv).
      * eapply ascending_from_weaken; [|exact Hal]. lia.
      * simpl. split; [lia | assumption].
    + (* content of the first vector *)
      intros c. subst l1'. rewrite find_entry_app. cbn [find_entry].
      destruct (Z.eqb_spec (index e2) c) as [Hc|Hc].
      * subst c. rewrite (find_entry_below _ _ _ Hk (Z.le_refl _)).
        unfold Core.stored. fold nv.
        destruct (is_zero nv).
        -- apply Hll. lia.
        -- simpl. rewrite Z.eqb_refl. reflexivity.
      * destruct (Z.lt_ge_cases c (index e2)) as [Hlt|Hge].
        -- rewrite (Hfk c Hlt), (Ht2 c) by lia.
           destruct (find_entry c l1); [reflexivity|].
           destruct (is_zero nv); simpl;
             [|destruct (Z.eqb_spec (index e2) c); [lia|]];
             apply Hll; lia.
        -- rewrite (find_entry_below _ _ _ Hk) by lia.
           assert (Hfin : find_entry c l =
                     match find_entry c t2 with
                     | Some v2 => stored (comb scalar (find_entry c l1) v2)
                     | None => find_entry c l1
                     end)
             by (rewrite Hfl, (Hfr c) by lia; reflexivity).
           destruct (is_zero nv); simpl;
             [|destruct (Z.eqb_spec (index e2) c); [lia|]]; exact Hfin.
    + (* counter *)
      subst l1'. rewrite length_app.
      destruct (is_zero nv); simpl length; lia.
    + (* orthogonal array keeps its length *)
      rewrite Hlen. apply set_vec_length.
    + (* orthogonal vectors *)
      intros i. rewrite Hvec. cbn [find_entry].
      destruct (Z.eqb_spec (index e2) i) as [Hi|Hi].
      * subst i. rewrite (Ht2 _ (Z.le_refl _)).
        rewrite (vec_at_set_vec_same _ _ _ _ _ Hov), Hov. reflexivity.
      * rewrite vec_at_set_vec_other by assumption.
        destruct (find_entry i t2) eqn:Hf; [|reflexivity].
        rewrite Hfr; [reflexivity|].
        destruct (Z.lt_ge_cases (index e2) i); [assumption|].
        rewrite Ht2 in Hf by lia. discriminate.
    + (* bound on the value computed *)
      revert H. cbn [find_entry].
      destruct (Z.eqb_spec (index e2) c) as [Hc|Hc].
      * intros [= <-]. subst c. exact Hsmall.
      * intros Hf. destruct (Hbnd _ _ Hf) as [Hb _].
        rewrite Hfr in Hb; [exact Hb|].
        destruct (Z.lt_ge_cases (index e2) c); [assumption|].
        rewrite Ht2 in Hf by lia. discriminate.
    + (* the orthogonal vector is there and alive *)
      revert H. cbn [find_entry].
      destruct (Z.eqb_spec (index e2) c) as [Hc|Hc].
      * intros _. subst c. eauto.
      * intros Hf. destruct (Hbnd _ _ Hf) as [_ (ov' & Hov' & Hl')].
        rewrite vec_at_set_vec_other in Hov' by assumption. eauto.
    + exact Hmsg.
Qed.

(** The value a successful run returns: the largest [ABSFUNC] among the
    values computed, or the initial [maxval] when none is larger. *)
Lemma merge_loop_ret cr_ind1 scalar l2 :
  forall l1 lo n1 others maxval l1' n1' others' ret msg,
  ascending_from lo l1 -> ascending_from lo l2 ->
  merge_loop cr_ind1 scalar l2 l1 n1 others maxval =
    (l1', n1', others', ret, msg) ->
  ret <> -1 ->
  maxval <= ret /\
  (forall c v2, find_entry c l2 = Some v2 ->
     ABSFUNC (comb scalar (find_entry c l1) v2) <= ret) /\
  (ret = maxval \/
   exists c v2, find_entry c l2 = Some v2 /\
                ret = ABSFUNC (comb scalar (find_entry c l1) v2)).
Proof.
  induction l2 as [|e2 t2 IH];
    intros l1 lo n1 others maxval l1' n1' others' ret msg Ha1 Ha2 Hrun Hret.
  - simpl in Hrun. inversion Hrun; subst.
    split; [lia|]. split; [discriminate | left; reflexivity].
  - destruct Ha2 as [Hlo Ha2].
    destruct (merge_step_success _ _ _ _ _ _ _ _ _ _ _ _ _ _ Ha1 Hrun Hret)
      as (kept & rest1 & n1a & ov & l & Hsmall & Hov & Hlive & Hrec & Hl1'
          & Hk & Hak & Har & Hfk & Hfr & Hn).
    cbn zeta in *.
    set (nv := comb scalar (find_entry (index e2) l1) (value e2)) in *.
    destruct (IH _ (index e2) _ _ _ _ _ _ _ _ Har Ha2 Hrec Hret)
      as (Hmax & Hall & Hwit).
    assert (Ht2 : forall c v2, find_entry c t2 = Some v2 ->
              find_entry c rest1 = find_entry c l1).
    { intros c v2 Hf. apply Hfr.
      destruct (Z.lt_ge_cases (index e2) c); [assumption|].
      rewrite (find_entry_above _ _ _ _ Ha2) in Hf by lia. discriminate. }
    assert (Hm' : maxval <= (if ABSFUNC nv >? maxval then ABSFUNC nv
                             else maxval) /\
                  ABSFUNC nv <= (if ABSFUNC nv >? maxval then ABSFUNC nv
                                 else maxval))
      by (destruct (Z.gtb_spec (ABSFUNC nv) maxval); lia).
    split; [lia|]. split.
    + intros c v2. cbn [find_entry].
      destruct (Z.eqb_spec (index e2) c) as [Hc|Hc].
      * intros [= <-]. subst c. fold nv. lia.
      * intros Hf. rewrite <- (Ht2 _ _ Hf). apply Hall, Hf.
    + destruct Hwit as [Hw|(c & v2 & Hf & Hw)].
      * destruct (Z.gtb_spec (ABSFUNC nv) maxval); [|left; assumption].
        right. exists (index e2), (value e2). cbn [find_entry].
        rewrite Z.eqb_refl. split; [reflexivity | exact Hw].
      * right. exists c, v2. cbn [find_entry].
        destruct (Z.eqb_spec (index e2) c) as [Hc|Hc].
        -- subst c. rewrite (find_entry_above _ _ _ _ Ha2) in Hf by lia.
           discriminate.
        -- split; [assumption|]. rewrite <- (Ht2 _ _ Hf). exact Hw.
Qed.

(** The loop runs to its end when no value computed is too big and the
    orthogonal vectors it writes to exist and are not deleted. *)
Lemma merge_loop_progress cr_ind1 scalar l2 :
  forall l1 lo n1 others maxval,
  0 <= maxval ->
  ascending_from lo l1 -> ascending_from lo l2 ->
  (forall c v2, find_entry c l2 = Some v2 ->
     ABSFUNC (comb scalar (find_entry c l1) v2) <= ENTRY_MAX /\
     exists ov, vec_at others c = Some ov /\ num_entries ov <> -1) ->
  exists l1' n1' others' ret,
    merge_loop cr_ind1 scalar l2 l1 n1 others maxval =
      (l1', n1', others', ret, None) /\ 0 <= ret.
Proof.
  induction l2 as [|e2 t2 IH]; intros l1 lo n1 others maxval Hm Ha1 Ha2 Hok.
  - simpl. eauto 6.
  - destruct Ha2 as [Hlo Ha2].
    destruct (merge_step cr_ind1 scalar e2 t2 l1 lo n1 others maxval Ha1)
      as (kept & rest1 & n1a & Heq & Hk & Hak & Har & Hfk & Hfr & Hn).
    cbn zeta in Heq. cbn [index value] in Heq. rewrite Heq. clear Heq.
    set (nv := comb scalar (find_entry (index e2) l1) (value e2)) in *.
    destruct (Hok (index e2) (value e2)) as (Hsmall & ov & Hov & Hlive).
    { cbn [find_entry]. rewrite Z.eqb_refl. reflexivity. }
    fold nv in Hsmall.
    destruct (Z.gtb_spec (ABSFUNC nv) ENTRY_MAX) as [Hbig|_]; [lia|].
    rewrite Hov. rewrite add_v_entry_live by assumption.
    cbn [Z.eqb]. cbv iota.
    set (maxval' := if ABSFUNC nv >? maxval then ABSFUNC nv else maxval).
    assert (Hm' : 0 <= maxval')
      by (unfold maxval'; destruct (Z.gtb_spec (ABSFUNC nv) maxval); lia).
    assert (Hok' : forall c v2, find_entry c t2 = Some v2 ->
              ABSFUNC (comb scalar (find_entry c rest1) v2) <= ENTRY_MAX /\
              exists ov0,
                vec_at (set_vec others (index e2) (put ov cr_ind1 nv)) c =
                  Some ov0 /\ num_entries ov0 <> -1).
    { intros c v2 Hf.
      assert (Hc : index e2 < c).
      { destruct (Z.lt_ge_cases (index e2) c); [assumption|].
        rewrite (find_entry_above _ _ _ _ Ha2) in Hf by lia. discriminate. }
      rewrite (Hfr c Hc), vec_at_set_vec_other by lia.
      apply Hok. cbn [find_entry].
      destruct (Z.eqb_spec (index e2) c); [lia | assumption]. }
    destruct (is_zero nv).
    + destruct (IH rest1 (index e2) (n1a - 1) _ maxval' Hm' Har Ha2 Hok')
        as (l & n & o & r & Hrec & Hr).
      rewrite Hrec. eauto 6.
    + destruct (IH rest1 (index e2) n1a _ maxval' Hm' Har Ha2 Hok')
        as (l & n & o & r & Hrec & Hr).
      rewrite Hrec. eauto 6.
Qed.

End MergeFacts.

(** *** Invariants of a pair of orthogonal families *)

Section FamilyFacts.

Variable V : Type.
Local Abbreviation E := (SparseEntry V).
Local Abbreviation SV := (SparseVector V).
Variables (vadd vmul : V -> V -> V) (is_zero : V -> bool).
Variables (ABSFUNC : V -> Z) (ENTRY_MAX : Z).

Local Abbreviation add_m_colrows :=
  (add_m_colrows vadd vmul is_zero ABSFUNC ENTRY_MAX).
Local Abbreviation put := (put is_zero).
Local Abbreviation stored := (stored V is_zero).
Local Abbreviation comb := (comb V vadd vmul).

Definition all_ascending (vecs : list SV) : Prop :=
  Forall (fun v => ascending (entries v)) vecs.

(** The two families are sorted and describe the same cells. *)
Definition sound (A B : list SV) : Prop :=
  all_ascending A /\ all_ascending B /\ consistent A B.

(** The invariants of one vector of the data model: sorted, indices in
    [1 .. bound], no zero value, and either the counter tells the length
    or the vector is deleted and empty. *)
Definition vec_wf (bound : Z) (v : SV) : Prop :=
  ascending (entries v) /\
  Forall (fun e => 1 <= index e <= bound /\ is_zero (value e) = false)
         (entries v) /\
  (counted v \/ (num_entries v = -1 /\ entries v = [])).

Definition fam_wf (A B : list SV) : Prop :=
  Forall (vec_wf (Z.of_nat (length B))) A /\
  Forall (vec_wf (Z.of_nat (length A))) B /\
  consistent A B.

Lemma consistent_sym (A B : list SV) : consistent A B -> consistent B A.
Proof. intros H i j. symmetry. apply H. Qed.

Lemma sound_sym (A B : list SV) : sound A B -> sound B A.
Proof. intros (Ha & Hb & Hc). repeat split; auto using consistent_sym. Qed.

Lemma fam_wf_sym (A B : list SV) : fam_wf A B -> fam_wf B A.
Proof. intros (Ha & Hb & Hc). repeat split; auto using consistent_sym. Qed.

Lemma fam_wf_sound (A B : list SV) : fam_wf A B -> sound A B.
Proof.
  intros (Ha & Hb & Hc). repeat split; auto;
    (eapply Forall_impl; [|eassumption]); intros v Hv; apply Hv.
Qed.

Lemma all_ascending_at (vecs : list SV) i v :
  all_ascending vecs -> vec_at vecs i = Some v -> ascending (entries v).
Proof.
  intros Hall Hv. apply vec_at_In in Hv.
  unfold all_ascending in Hall. rewrite Forall_forall in Hall. auto.
Qed.

Lemma all_ascending_ents (vecs : list SV) i :
  all_ascending vecs -> ascending (ents vecs i).
Proof.
  intros Hall. unfold ents. destruct (vec_at vecs i) eqn:Hv; [|exact I].
  eapply all_ascending_at; eassumption.
Qed.

Lemma ascending_common (l1 l2 : list E) :
  ascending l1 -> ascending l2 ->
  exists lo, ascending_from lo l1 /\ ascending_from lo l2.
Proof.
  intros H1 H2. destruct l1 as [|a t1], l2 as [|b t2]; simpl in *.
  - exists 0. auto.
  - exists (index b - 1). split; [exact I | split; [lia | assumption]].
  - exists (index a - 1). split; [split; [lia | assumption] | exact I].
  - exists (Z.min (index a) (index b) - 1). split; (split; [lia | assumption]).
Qed.

(** What a successful [add_m_colrows] leaves behind, in terms of the
    vectors it was given. *)
Lemma add_m_colrows_success (v1 v2 : SV) cr_ind1 others scalar
    v1' others' ret msg :
  ascending (entries v1) -> ascending (entries v2) ->
  add_m_colrows v1 cr_ind1 v2 others scalar = (v1', others', ret, msg) ->
  ret <> -1 ->
  num_entries v1 <> -1 /\ num_entries v2 <> -1 /\
  ascending (entries v1') /\
  (forall c, find_entry c (entries v1') =
             match find_entry c (entries v2) with
             | Some w => stored (comb scalar (find_entry c (entries v1)) w)
             | None => find_entry c (entries v1)
             end) /\
  num_entries v1' - Z.of_nat (length (entries v1')) =
    num_entries v1 - Z.of_nat (length (entries v1)) /\
  length others' = length others /\
  (forall i, vec_at others' i =
             match find_entry i (entries v2) with
             | Some w =>
                 option_map
                   (fun ov => put ov cr_ind1
                                (comb scalar (find_entry i (entries v1)) w))
                   (vec_at others i)
             | None => vec_at others i
             end) /\
  (forall c w, find_entry c (entries v2) = Some w ->
     ABSFUNC (comb scalar (find_entry c (entries v1)) w) <= ENTRY_MAX /\
     exists ov, vec_at others c = Some ov /\ num_entries ov <> -1) /\
  msg = None.
Proof.
  intros Ha1 Ha2 Hrun Hret. unfold Core.add_m_colrows in Hrun.
  destruct (Z.eqb_spec (num_entries v1) (-1)) as [H1|H1];
    [simpl in Hrun; inversion Hrun; subst; contradiction|].
  destruct (Z.eqb_spec (num_entries v2) (-1)) as [H2|H2];
    [simpl in Hrun; inversion Hrun; subst; contradiction|].
  simpl orb in Hrun. cbv iota in Hrun.
  destruct (Core.merge_loop _ _ _ _ _ _ _ _ _ _ _ _)
    as [[[[l n] o] r] m] eqn:Hloop in Hrun.
  inversion Hrun; subst. clear Hrun.
  destruct (ascending_common _ _ Ha1 Ha2) as (lo & Hl1 & Hl2).
  destruct (merge_loop_success _ _ _ _ _ _ _ _ _ _ _ _ _ _ _ _ _ _ _
              Hl1 Hl2 Hloop Hret)
    as (Hal & Hfl & Hnl & Hlen & Hvec & Hbnd & Hmsg).
  cbn [entries num_entries].
  split; [assumption|]. split; [assumption|].
  split; [eapply ascending_from_ascending; eassumption|].
  repeat (split; [assumption|]). assumption.
Qed.

Lemma add_m_colrows_sound (A B : list SV) i1 i2 v1 v2 scalar
    v1' B' ret msg :
  sound A B ->
  vec_at A i1 = Some v1 -> vec_at A i2 = Some v2 ->
  add_m_colrows v1 i1 v2 B scalar = (v1', B', ret, msg) ->
  ret <> -1 ->
  sound (set_vec A i1 v1') B'.
Proof.
  intros (HA & HB & Hc) Hv1 Hv2 Hrun Hret.
  pose proof (all_ascending_at _ _ _ HA Hv1) as Ha1.
  pose proof (all_ascending_at _ _ _ HA Hv2) as Ha2.
  destruct (add_m_colrows_success _ _ _ _ _ _ _ _ _ Ha1 Ha2 Hrun Hret)
    as (_ & _ & Hal & Hfl & _ & Hlen & Hvec & Hbnd & _).
  assert (HB' : all_ascending B').
  { unfold all_ascending. apply Forall_forall. intros v Hin.
    destruct (In_vec_at _ _ _ Hin) as [i Hi].
    rewrite Hvec in Hi.
    destruct (find_entry i (entries v2)) as [w|].
    - destruct (vec_at B i) as [ov|] eqn:Hov; [|discriminate].
      simpl in Hi. inversion Hi; subst.
      apply put_ascending. exact (all_ascending_at _ _ _ HB Hov).
    - exact (all_ascending_at _ _ _ HB Hi). }
  repeat split.
  - apply set_vec_Forall; assumption.
  - assumption.
  - intros i j.
    assert (Hents : find_entry i (ents B' j) =
              match find_entry j (entries v2) with
              | Some w =>
                  if i =? i1
                  then stored (comb scalar (find_entry j (entries v1)) w)
                  else find_entry i (ents B j)
              | None => find_entry i (ents B j)
              end).
    { unfold ents at 1. rewrite Hvec.
      destruct (find_entry j (entries v2)) as [w|] eqn:Hw; [|reflexivity].
      destruct (Hbnd _ _ Hw) as (_ & ov & Hov & _).
      unfold ents. rewrite Hov. simpl.
      apply put_find. exact (all_ascending_at _ _ _ HB Hov). }
    rewrite Hents.
    assert (Hl1 : find_entry j (entries v1) = find_entry i1 (ents B j)).
    { rewrite <- Hc. unfold ents. rewrite Hv1. reflexivity. }
    destruct (Z.eq_dec i i1) as [->|Hi].
    + rewrite (ents_set_vec_same _ _ _ v1' _ Hv1), Hfl, Z.eqb_refl.
      destruct (find_entry j (entries v2)); [reflexivity | assumption].
    + rewrite ents_set_vec_other by auto.
      destruct (Z.eqb_spec i i1); [contradiction|].
      destruct (find_entry j (entries v2)); apply Hc.
Qed.

Lemma vec_wf_at bound (vecs : list SV) i v :
  Forall (vec_wf bound) vecs -> vec_at vecs i = Some v -> vec_wf bound v.
Proof.
  intros Hall Hv. apply vec_at_In in Hv. rewrite Forall_forall in Hall. auto.
Qed.

Lemma vec_wf_live bound (v : SV) :
  vec_wf bound v -> num_entries v <> -1 -> counted v.
Proof. intros (_ & _ & [Hc|[Hd _]]) Hl; [assumption | contradiction]. Qed.

Lemma put_wf bound (v : SV) ind val :
  vec_wf bound v -> num_entries v <> -1 -> 1 <= ind <= bound ->
  vec_wf bound (put v ind val).
Proof.
  intros Hwf Hlive Hind. pose proof (vec_wf_live _ _ Hwf Hlive) as Hc.
  destruct Hwf as (Ha & Hf & _). repeat split.
  - apply put_ascending, Ha.
  - apply put_Forall; [|exact Hf]. intros Hz. simpl. auto.
  - left. apply put_counted, Hc.
Qed.

Lemma add_m_colrows_wf (A B : list SV) i1 i2 v1 v2 scalar
    v1' B' ret msg :
  fam_wf A B ->
  vec_at A i1 = Some v1 -> vec_at A i2 = Some v2 ->
  add_m_colrows v1 i1 v2 B scalar = (v1', B', ret, msg) ->
  ret <> -1 ->
  fam_wf (set_vec A i1 v1') B'.
Proof.
  intros Hwf Hv1 Hv2 Hrun Hret.
  pose proof (add_m_colrows_sound _ _ _ _ _ _ _ _ _ _ _
                (fam_wf_sound _ _ Hwf) Hv1 Hv2 Hrun Hret) as (_ & _ & Hcons).
  destruct Hwf as (HA & HB & Hc).
  pose proof (vec_wf_at _ _ _ _ HA Hv1) as Hw1.
  pose proof (vec_wf_at _ _ _ _ HA Hv2) as Hw2.
  destruct (add_m_colrows_success _ _ _ _ _ _ _ _ _
              (proj1 Hw1) (proj1 Hw2) Hrun Hret)
    as (Hl1 & Hl2 & Hal & Hfl & Hnl & Hlen & Hvec & Hbnd & _).
  repeat split; [| |exact Hcons].
  - rewrite Hlen. apply set_vec_Forall; [assumption|].
    repeat split.
    + exact Hal.
    + apply Forall_forall. intros e Hin.
      pose proof (In_find_entry _ _ _ Hal Hin) as Hf. rewrite Hfl in Hf.
      destruct Hw1 as (_ & Hf1 & _). destruct Hw2 as (_ & Hf2 & _).
      rewrite Forall_forall in Hf1, Hf2.
      destruct (find_entry (index e) (entries v2)) as [w|] eqn:Hw.
      * apply find_entry_In, Hf2 in Hw. simpl in Hw.
        unfold Core.stored in Hf.
        destruct (is_zero (comb _ _ _)) eqn:Hz; [discriminate|].
        injection Hf as Hval. rewrite <- Hval. split; [apply Hw | exact Hz].
      * apply find_entry_In, Hf1 in Hf. simpl in Hf. exact Hf.
    + left. pose proof (vec_wf_live _ _ Hw1 Hl1) as Hc1.
      unfold counted in *. lia.
  - rewrite set_vec_length. apply Forall_forall. intros v Hin.
    destruct (In_vec_at _ _ _ Hin) as [i Hi]. rewrite Hvec in Hi.
    destruct (find_entry i (entries v2)) as [w|] eqn:Hw.
    + destruct (Hbnd _ _ Hw) as (_ & ov & Hov & Hlive).
      rewrite Hov in Hi. simpl in Hi. inversion Hi; subst.
      apply put_wf; [exact (vec_wf_at _ _ _ _ HB Hov) | exact Hlive |].
      apply (vec_at_range _ _ _ _ Hv1).
    + exact (vec_wf_at _ _ _ _ HB Hi).
Qed.

(** Rewriting one cell, the same way in its row and in its column,
    keeps the two families consistent. *)
Lemma consistent_cell (A B : list SV) r c a b a' b' (x : option V) :
  consistent A B ->
  vec_at A r = Some a -> vec_at B c = Some b ->
  (forall j, find_entry j (entries a') =
             if j =? c then x else find_entry j (entries a)) ->
  (forall i, find_entry i (entries b') =
             if i =? r then x else find_entry i (entries b)) ->
  consistent (set_vec A r a') (set_vec B c b').
Proof.
  intros Hc Ha Hb Hfa Hfb i j.
  assert (HA : find_entry j (ents (set_vec A r a') i) =
               if (i =? r) && (j =? c) then x else find_entry j (ents A i)).
  { destruct (Z.eqb_spec i r) as [->|Hi].
    - rewrite (ents_set_vec_same _ _ _ _ _ Ha), Hfa. simpl.
      unfold ents. rewrite Ha. reflexivity.
    - rewrite ents_set_vec_other by auto. reflexivity. }
  assert (HB : find_entry i (ents (set_vec B c b') j) =
               if (i =? r) && (j =? c) then x else find_entry i (ents B j)).
  { clear HA. destruct (Z.eqb_spec j c) as [Hj|Hj].
    - subst j. rewrite (ents_set_vec_same _ _ _ _ _ Hb), Hfb, andb_true_r.
      unfold ents. rewrite Hb. reflexivity.
    - rewrite ents_set_vec_other by auto. rewrite andb_false_r. reflexivity. }
  rewrite HA, HB. destruct (_ && _); [reflexivity | apply Hc].
Qed.

(** The invariants of a vector that do not involve its order. *)
Definition vec_local (bound : Z) (v : SV) : Prop :=
  Forall (fun e => 1 <= index e <= bound /\ is_zero (value e) = false)
         (entries v) /\
  (counted v \/ (num_entries v = -1 /\ entries v = [])).

Lemma vec_wf_split bound (v : SV) :
  vec_wf bound v <-> ascending (entries v) /\ vec_local bound v.
Proof. unfold vec_wf, vec_local. tauto. Qed.

Lemma fam_wf_split (A B : list SV) :
  fam_wf A B <->
  sound A B /\ Forall (vec_local (Z.of_nat (length B))) A /\
  Forall (vec_local (Z.of_nat (length A))) B.
Proof.
  unfold fam_wf, sound, all_ascending. rewrite !Forall_forall. split.
  - intros (HA & HB & Hc).
    split; [split; [|split]; [| |exact Hc] | split]; intros v Hv.
    + apply (proj1 (vec_wf_split _ _) (HA v Hv)).
    + apply (proj1 (vec_wf_split _ _) (HB v Hv)).
    + apply (proj1 (vec_wf_split _ _) (HA v Hv)).
    + apply (proj1 (vec_wf_split _ _) (HB v Hv)).
  - intros ((HA & HB & Hc) & HlA & HlB).
    split; [|split]; [| |exact Hc]; intros v Hv; apply vec_wf_split; auto.
Qed.

Lemma vec_local_at bound (vecs : list SV) i v :
  Forall (vec_local bound) vecs -> vec_at vecs i = Some v -> vec_local bound v.
Proof.
  intros Hall Hv. apply vec_at_In in Hv. rewrite Forall_forall in Hall. auto.
Qed.

Lemma remove_found_local bound (v : SV) ind :
  vec_local bound v -> num_entries v <> -1 ->
  vec_local bound (snd (remove_found v ind)).
Proof.
  intros [Hf [Hc|[Hd _]]] Hlive; [|contradiction]. split.
  - apply remove_found_Forall, Hf.
  - left. apply remove_found_counted, Hc.
Qed.

Lemma put_local bound (v : SV) ind val :
  vec_local bound v -> num_entries v <> -1 -> 1 <= ind <= bound ->
  vec_local bound (put v ind val).
Proof.
  intros [Hf [Hc|[Hd _]]] Hlive Hind; [|contradiction]. split.
  - apply put_Forall; [|exact Hf]. intros Hz. simpl. auto.
  - left. apply put_counted, Hc.
Qed.

End FamilyFacts.

Arguments all_ascending {V}.
Arguments sound {V}.
Arguments vec_wf {V}.
Arguments fam_wf {V}.
Arguments vec_local {V}.

(** *** Invariants of a matrix *)

Section MatrixFacts.

Variable V : Type.
Local Abbreviation SV := (SparseVector V).
Local Abbreviation SM := (SparseMatrix V).
Variables (vadd vmul : V -> V -> V) (is_zero : V -> bool).
Variables (ABSFUNC : V -> Z) (ENTRY_MAX : Z).

Local Abbreviation add_m_rows :=
  (add_m_rows vadd vmul is_zero ABSFUNC ENTRY_MAX).
Local Abbreviation add_m_cols :=
  (add_m_cols vadd vmul is_zero ABSFUNC ENTRY_MAX).

(** The arrays have the lengths the header asks for. *)
Definition shaped (m : SM) : Prop :=
  num_rows m = Z.of_nat (length (rows m)) /\
  num_cols m = Z.of_nat (length (columns m)).

(** Bilateral consistency of sorted rows and columns. *)
Definition msound (m : SM) : Prop :=
  shaped m /\ sound (rows m) (columns m).

(** All the invariants of the data model. *)
Definition wf (m : SM) : Prop :=
  shaped m /\ fam_wf is_zero (rows m) (columns m).

Lemma wf_msound (m : SM) : wf m -> msound m.
Proof. intros [Hs Hf]. split; [exact Hs | eapply fam_wf_sound, Hf]. Qed.

Lemma check_m_indices_cases (m : SM) row col :
  (1 <= row <= num_rows m /\ 1 <= col <= num_cols m /\
   check_m_indices m row col = (0, None)) \/
  (~ (1 <= row <= num_rows m /\ 1 <= col <= num_cols m) /\
   check_m_indices m row col =
     (-1, Some "check_m_indices: wrong matrix indices"%string)).
Proof.
  unfold check_m_indices.
  destruct (Z.ltb_spec row 1); [right; simpl; split; [lia | reflexivity]|].
  destruct (Z.gtb_spec row (num_rows m));
    [right; simpl; split; [lia | reflexivity]|].
  destruct (Z.ltb_spec col 1); [right; simpl; split; [lia | reflexivity]|].
  destruct (Z.gtb_spec col (num_cols m));
    [right; simpl; split; [lia | reflexivity]|].
  left. simpl. repeat split; lia.
Qed.

Lemma add_m_rows_run (m m' : SM) row1 row2 scalar ret msg :
  add_m_rows m row1 row2 scalar = (m', ret, msg) -> ret <> -1 ->
  exists v1 v2 v1' others,
    1 <= row1 <= num_rows m /\ 1 <= row2 <= num_rows m /\
    vec_at (rows m) row1 = Some v1 /\ vec_at (rows m) row2 = Some v2 /\
    add_m_colrows vadd vmul is_zero ABSFUNC ENTRY_MAX
      v1 row1 v2 (columns m) scalar = (v1', others, ret, msg) /\
    m' = mkMatrix (num_rows m) (num_cols m)
                  (set_vec (rows m) row1 v1') others.
Proof.
  unfold Core.add_m_rows. intros Hrun Hret.
  destruct (check_m_indices_cases m row1 1) as [(H1 & _ & E1)|[_ E1]];
    rewrite E1 in Hrun; [|inversion Hrun; subst; contradiction].
  destruct (check_m_indices_cases m row2 1) as [(H2 & _ & E2)|[_ E2]];
    rewrite E2 in Hrun; [|inversion Hrun; subst; contradiction].
  destruct (vec_at (rows m) row1) as [v1|];
    [|inversion Hrun; subst; contradiction].
  destruct (vec_at (rows m) row2) as [v2|];
    [|inversion Hrun; subst; contradiction].
  destruct (add_m_colrows _ _ _ _ _ v1 row1 v2 (columns m) scalar)
    as [[[v1' others] r] e] eqn:Hcr.
  inversion Hrun; subst. exists v1, v2, v1', others. auto 10.
Qed.

Lemma add_m_cols_run (m m' : SM) col1 col2 scalar ret msg :
  add_m_cols m col1 col2 scalar = (m', ret, msg) -> ret <> -1 ->
  exists v1 v2 v1' others,
    1 <= col1 <= num_cols m /\ 1 <= col2 <= num_cols m /\
    vec_at (columns m) col1 = Some v1 /\ vec_at (columns m) col2 = Some v2 /\
    add_m_colrows vadd vmul is_zero ABSFUNC ENTRY_MAX
      v1 col1 v2 (rows m) scalar = (v1', others, ret, msg) /\
    m' = mkMatrix (num_rows m) (num_cols m)
                  others (set_vec (columns m) col1 v1').
Proof.
  unfold Core.add_m_cols. intros Hrun Hret.
  destruct (check_m_indices_cases m 1 col1) as [(_ & H1 & E1)|[_ E1]];
    rewrite E1 in Hrun; [|inversion Hrun; subst; contradiction].
  destruct (check_m_indices_cases m 1 col2) as [(_ & H2 & E2)|[_ E2]];
    rewrite E2 in Hrun; [|inversion Hrun; subst; contradiction].
  destruct (vec_at (columns m) col1) as [v1|];
    [|inversion Hrun; subst; contradiction].
  destruct (vec_at (columns m) col2) as [v2|];
    [|inversion Hrun; subst; contradiction].
  destruct (add_m_colrows _ _ _ _ _ v1 col1 v2 (rows m) scalar)
    as [[[v1' others] r] e] eqn:Hcr.
  inversion Hrun; subst. exists v1, v2, v1', others. auto 10.
Qed.

Lemma generic_add_m_rows_sound (m m' : SM) row1 row2 scalar ret msg :
  msound m -> add_m_rows m row1 row2 scalar = (m', ret, msg) -> ret <> -1 ->
  msound m'.
Proof.
  intros [[Hr Hc] Hs] Hrun Hret.
  destruct (add_m_rows_run _ _ _ _ _ _ _ Hrun Hret)
    as (v1 & v2 & v1' & others & _ & _ & Hv1 & Hv2 & Hcr & ->).
  pose proof (add_m_colrows_sound _ _ _ _ _ _ _ _ _ _ _ _ _ _ _ _ _
                Hs Hv1 Hv2 Hcr Hret) as Hs'.
  destruct (add_m_colrows_success _ _ _ _ _ _ _ _ _ _ _ _ _ _ _
              (all_ascending_at _ _ _ _ (proj1 Hs) Hv1)
              (all_ascending_at _ _ _ _ (proj1 Hs) Hv2) Hcr Hret)
    as (_ & _ & _ & _ & _ & Hlen & _).
  split; [|exact Hs']. split; simpl.
  - rewrite set_vec_length. exact Hr.
  - rewrite Hlen. exact Hc.
Qed.

Lemma generic_add_m_cols_sound (m m' : SM) col1 col2 scalar ret msg :
  msound m -> add_m_cols m col1 col2 scalar = (m', ret, msg) -> ret <> -1 ->
  msound m'.
Proof.
  intros [[Hr Hc] Hs] Hrun Hret.
  destruct (add_m_cols_run _ _ _ _ _ _ _ Hrun Hret)
    as (v1 & v2 & v1' & others & _ & _ & Hv1 & Hv2 & Hcr & ->).
  apply sound_sym in Hs.
  pose proof (add_m_colrows_sound _ _ _ _ _ _ _ _ _ _ _ _ _ _ _ _ _
                Hs Hv1 Hv2 Hcr Hret) as Hs'.
  destruct (add_m_colrows_success _ _ _ _ _ _ _ _ _ _ _ _ _ _ _
              (all_ascending_at _ _ _ _ (proj1 Hs) Hv1)
              (all_ascending_at _ _ _ _ (proj1 Hs) Hv2) Hcr Hret)
    as (_ & _ & _ & _ & _ & Hlen & _).
  split; [|apply sound_sym; exact Hs']. split; simpl.
  - rewrite Hlen. exact Hr.
  - rewrite set_vec_length. exact Hc.
Qed.

Lemma generic_add_m_rows_wf (m m' : SM) row1 row2 scalar ret msg :
  wf m -> add_m_rows m row1 row2 scalar = (m', ret, msg) -> ret <> -1 ->
  wf m'.
Proof.
  intros Hwf Hrun Hret.
  destruct (generic_add_m_rows_sound _ _ _ _ _ _ _ (wf_msound _ Hwf) Hrun Hret)
    as [Hsh _].
  destruct Hwf as [_ Hf].
  destruct (add_m_rows_run _ _ _ _ _ _ _ Hrun Hret)
    as (v1 & v2 & v1' & others & _ & _ & Hv1 & Hv2 & Hcr & ->).
  split; [exact Hsh|]. simpl.
  exact (add_m_colrows_wf _ _ _ _ _ _ _ _ _ _ _ _ _ _ _ _ _
           Hf Hv1 Hv2 Hcr Hret).
Qed.

Lemma generic_add_m_cols_wf (m m' : SM) col1 col2 scalar ret msg :
  wf m -> add_m_cols m col1 col2 scalar = (m', ret, msg) -> ret <> -1 ->
  wf m'.
Proof.
  intros Hwf Hrun Hret.
  destruct (generic_add_m_cols_sound _ _ _ _ _ _ _ (wf_msound _ Hwf) Hrun Hret)
    as [Hsh _].
  destruct Hwf as [_ Hf].
  destruct (add_m_cols_run _ _ _ _ _ _ _ Hrun Hret)
    as (v1 & v2 & v1' & others & _ & _ & Hv1 & Hv2 & Hcr & ->).
  split; [exact Hsh|]. simpl. apply fam_wf_sym.
  exact (add_m_colrows_wf _ _ _ _ _ _ _ _ _ _ _ _ _ _ _ _ _
           (fam_wf_sym _ _ _ _ Hf) Hv1 Hv2 Hcr Hret).
Qed.

Lemma check_m_indices_in (m : SM) row col :
  1 <= row <= num_rows m -> 1 <= col <= num_cols m ->
  check_m_indices m row col = (0, None).
Proof.
  intros Hr Hc.
  destruct (check_m_indices_cases m row col) as [(_ & _ & E)|[Hn _]];
    [exact E | tauto].
Qed.

Lemma add_m_rows_eq (m : SM) row1 row2 scalar v1 v2 :
  1 <= row1 <= num_rows m -> 1 <= row2 <= num_rows m -> 1 <= num_cols m ->
  vec_at (rows m) row1 = Some v1 -> vec_at (rows m) row2 = Some v2 ->
  add_m_rows m row1 row2 scalar =
  let '(v1', others, r, e) :=
    add_m_colrows vadd vmul is_zero ABSFUNC ENTRY_MAX
      v1 row1 v2 (columns m) scalar in
  (mkMatrix (num_rows m) (num_cols m) (set_vec (rows m) row1 v1') others,
   r, e).
Proof.
  intros H1 H2 Hc Hv1 Hv2. unfold Core.add_m_rows.
  rewrite !check_m_indices_in by lia. rewrite Hv1, Hv2. reflexivity.
Qed.

Lemma add_m_cols_eq (m : SM) col1 col2 scalar v1 v2 :
  1 <= col1 <= num_cols m -> 1 <= col2 <= num_cols m -> 1 <= num_rows m ->
  vec_at (columns m) col1 = Some v1 -> vec_at (columns m) col2 = Some v2 ->
  add_m_cols m col1 col2 scalar =
  let '(v1', others, r, e) :=
    add_m_colrows vadd vmul is_zero ABSFUNC ENTRY_MAX
      v1 col1 v2 (rows m) scalar in
  (mkMatrix (num_rows m) (num_cols m) others (set_vec (columns m) col1 v1'),
   r, e).
Proof.
  intros H1 H2 Hc Hv1 Hv2. unfold Core.add_m_cols.
  rewrite !check_m_indices_in by lia. rewrite Hv1, Hv2. reflexivity.
Qed.

(** A matrix fresh from [init_s_matrix] satisfies every invariant. *)
Lemma init_s_matrix_wf n_rows n_cols (m : SM) rc msg :
  init_s_matrix V n_rows n_cols = (Some m, rc, msg) -> wf m.
Proof.
  unfold init_s_matrix.
  destruct (Z.ltb_spec n_rows 1); [discriminate|].
  destruct (Z.ltb_spec n_cols 1); [discriminate|].
  simpl. intros [= <- _ _].
  assert (Hv : forall b, vec_wf is_zero b (mkVector 0 (@nil (SparseEntry V)))).
  { intros b. repeat split; simpl; auto. left. reflexivity. }
  split; [split; simpl; rewrite repeat_length; lia|].
  repeat split; simpl.
  - apply Forall_forall. intros v Hin. apply repeat_spec in Hin. subst. auto.
  - apply Forall_forall. intros v Hin. apply repeat_spec in Hin. subst. auto.
  - intros i j. unfold ents. rewrite !vec_at_repeat.
    destruct (_ && _), (_ && _); reflexivity.
Qed.

End MatrixFacts.

Arguments shaped {V}.
Arguments msound {V}.
Arguments wf {V}.

End Core.

(* ------------------------------------------------------------------ *)
(** ** [sparmat.c]: matrices of C [int] entries *)

Module SparMat.

Import Core.

(** [SM_value_t] and [SM_index_t] are [int]. *)
Definition int_bits : positive := 32%positive.
Definition INT_MAX : Z := 2147483647.
Definition INT_MIN : Z := -2147483648.

(** [#define ENTRY_MAX (INT_MAX / 2)] and [#define ERR_MVAL INT_MAX]. *)
Definition ENTRY_MAX : Z := INT_MAX / 2.
Definition ERR_MVAL : Z := INT_MAX.

(** [#define ABSFUNC abs], and the [int] operators [+], [*]. *)
Definition ABSFUNC (v : Z) : Z := CInt.abs int_bits v.
Definition vadd (x y : Z) : Z := CInt.add int_bits x y.
Definition vmul (x y : Z) : Z := CInt.mul int_bits x y.
Definition is_zero (v : Z) : bool := v =? 0.

Abbreviation SparseEntry := (Core.SparseEntry Z).
Abbreviation SparseVector := (Core.SparseVector Z).
Abbreviation SparseMatrix := (Core.SparseMatrix Z).

Definition get_v_entry (vec : SparseVector) (ind : Z) : Z :=
  Core.get_v_entry 0 vec ind.

Definition find_v_unit (vec : SparseVector) : Z * option Z * option string :=
  Core.find_v_unit ABSFUNC vec.

(** [remove_v_entry]: the value of the entry removed, 0 when there is
    none, [ERR_MVAL] for a deleted vector. *)
Definition remove_v_entry (vec : SparseVector) (ind : Z)
  : SparseVector * Z * option string :=
  if num_entries vec =? -1 then
    (vec, ERR_MVAL, Some "remove_v_entry: vector is already deleted"%string)
  else match remove_found vec ind with
       | (Some val, vec') => (vec', val, None)
       | (None, _) => (vec, 0, None)
       end.

Definition add_v_entry (vec : SparseVector) (ind val : Z)
  : SparseVector * Z * option string :=
  Core.add_v_entry is_zero vec ind val.

Definition check_m_indices (matr : SparseMatrix) (row col : Z)
  : Z * option string :=
  Core.check_m_indices matr row col.

(** [get_m_entry], compiled with [SPARMAT_DEBUG]. *)
Definition get_m_entry (matr : SparseMatrix) (row col : Z)
  : Z * option string :=
  match check_m_indices matr row col with
  | (-1, msg) => (ERR_MVAL, msg)
  | _ =>
    match vec_at (rows matr) row, vec_at (columns matr) col with
    | Some rv, Some cv =>
        let val := get_v_entry rv col in
        if negb (val =? get_v_entry cv row) then
          (ERR_MVAL,
           Some "get_m_entry: row and column entries don't match"%string)
        else (val, None)
    | _, _ => (ERR_MVAL, Some wild_pointer)
    end
  end.

Definition with_rows (matr : SparseMatrix) (rs : list SparseVector)
  : SparseMatrix :=
  mkMatrix (num_rows matr) (num_cols matr) rs (columns matr).

Definition with_columns (matr : SparseMatrix) (cs : list SparseVector)
  : SparseMatrix :=
  mkMatrix (num_rows matr) (num_cols matr) (rows matr) cs.

(** [remove_m_entry]. *)
Definition remove_m_entry (matr : SparseMatrix) (row col : Z)
  : SparseMatrix * Z * option string :=
  match check_m_indices matr row col with
  | (-1, msg) => (matr, ERR_MVAL, msg)
  | _ =>
    match vec_at (rows matr) row, vec_at (columns matr) col with
    | Some rv, Some cv =>
        let '(rv', valr, msgr) := remove_v_entry rv col in
        let matr1 := with_rows matr (set_vec (rows matr) row rv') in
        if valr =? ERR_MVAL then (matr1, ERR_MVAL, msgr)
        else
          let '(cv', valc, msgc) := remove_v_entry cv row in
          let matr2 := with_columns matr1 (set_vec (columns matr) col cv') in
          if valc =? ERR_MVAL then (matr2, ERR_MVAL, msgc)
          else if negb (valr =? valc) then
            (matr2, ERR_MVAL,
             Some "remove_m_entry: row and column entries don't match"%string)
          else (matr2, valr, None)
    | _, _ => (matr, ERR_MVAL, Some wild_pointer)
    end
  end.

(** [add_m_entry]. *)
Definition add_m_entry (matr : SparseMatrix) (row col val : Z)
  : SparseMatrix * Z * option string :=
  match check_m_indices matr row col with
  | (-1, msg) => (matr, -1, msg)
  | _ =>
    if (val >? ENTRY_MAX) || (val <? - ENTRY_MAX) then
      (matr, -1, Some "add_m_entry: entry's value is too big"%string)
    else if val =? 0 then
      let '(matr', r, msg) := remove_m_entry matr row col in
      if r =? ERR_MVAL then (matr', -1, msg) else (matr', 0, msg)
    else
      match vec_at (rows matr) row, vec_at (columns matr) col with
      | Some rv, Some cv =>
          let '(rv', rc, msgr) := add_v_entry rv col val in
          let matr1 := with_rows matr (set_vec (rows matr) row rv') in
          if rc =? -1 then (matr1, -1, msgr)
          else
            let '(cv', rc', msgc) := add_v_entry cv row val in
            (with_columns matr1 (set_vec (columns matr) col cv'), rc', msgc)
      | _, _ => (matr, -1, Some wild_pointer)
      end
  end.

(** The [while (eptr != NULL)] loop of [erase_m_colrow]: [l] is the list
    left in [cr_vec], [n] its counter. *)
Fixpoint erase_loop (cr_ind : Z) (l : list SparseEntry) (n : Z)
    (others : list SparseVector)
  : list SparseEntry * Z * list SparseVector * Z * option string :=
  match l with
  | [] => ([], n, others, 0, None)
  | e :: t =>
      match vec_at others (index e) with
      | None => (l, n, others, -1, Some wild_pointer)
      | Some ov =>
          let '(ov', val, msg) := remove_v_entry ov cr_ind in
          let others' := set_vec others (index e) ov' in
          if val =? ERR_MVAL then (l, n, others', -1, msg)
          else if negb (val =? value e) then
            (l, n, others', -1,
             Some "erase_m_colrow: row and column entries don't match"%string)
          else erase_loop cr_ind t (n - 1) others'
      end
  end.

(** [erase_m_colrow], compiled with [SPARMAT_DEBUG]. *)
Definition erase_m_colrow (cr_vec : SparseVector) (cr_ind : Z)
    (others : list SparseVector) (do_del : Z)
  : SparseVector * list SparseVector * Z * option string :=
  if num_entries cr_vec =? -1 then
    (cr_vec, others, -1,
     Some "erase_m_colrow: vector is already deleted"%string)
  else
    let '(l, n, others', rc, msg) :=
      erase_loop cr_ind (entries cr_vec) (num_entries cr_vec) others in
    if rc =? -1 then (mkVector n l, others', -1, msg)
    else if negb (n =? 0) then
      (mkVector n l, others', -1,
       Some "erase_m_colrow: num_entries is not 0 after erasing"%string)
    else (mkVector (if do_del =? 0 then n else -1) l, others', 0, None).

Definition erase_m_row (matr : SparseMatrix) (row do_del : Z)
  : SparseMatrix * Z * option string :=
  match check_m_indices matr row 1 with
  | (-1, msg) => (matr, -1, msg)
  | _ =>
    match vec_at (rows matr) row with
    | Some rv =>
        let '(rv', others, rc, msg) :=
          erase_m_colrow rv row (columns matr) do_del in
        (mkMatrix (num_rows matr) (num_cols matr)
                  (set_vec (rows matr) row rv') others, rc, msg)
    | None => (matr, -1, Some wild_pointer)
    end
  end.

Definition erase_m_column (matr : SparseMatrix) (col do_del : Z)
  : SparseMatrix * Z * option string :=
  match check_m_indices matr 1 col with
  | (-1, msg) => (matr, -1, msg)
  | _ =>
    match vec_at (columns matr) col with
    | Some cv =>
        let '(cv', others, rc, msg) :=
          erase_m_colrow cv col (rows matr) do_del in
        (mkMatrix (num_rows matr) (num_cols matr)
                  others (set_vec (columns matr) col cv'), rc, msg)
    | None => (matr, -1, Some wild_pointer)
    end
  end.

Definition add_m_rows (matr : SparseMatrix) (row1 row2 scalar : Z)
  : SparseMatrix * Z * option string :=
  Core.add_m_rows vadd vmul is_zero ABSFUNC ENTRY_MAX matr row1 row2 scalar.

Definition add_m_cols (matr : SparseMatrix) (col1 col2 scalar : Z)
  : SparseMatrix * Z * option string :=
  Core.add_m_cols vadd vmul is_zero ABSFUNC ENTRY_MAX matr col1 col2 scalar.

Definition init_s_matrix (n_rows n_cols : Z)
  : option SparseMatrix * Z * option string :=
  Core.init_s_matrix Z n_rows n_cols.

(** The [for] loop of [check_v_data]; [others = None] is the NULL
    pointer.  Returns the message of the check that fails, or the final
    value of [i]. *)
Fixpoint check_loop (l : list SparseEntry) (i oldind max_index v_ind : Z)
    (others : option (list SparseVector)) : string + Z :=
  match l with
  | [] => inr i
  | e :: t =>
      if index e <? 1 then inl "check_v_data: index is not positive"%string
      else if index e >? max_index then
        inl "check_v_data: index is too big"%string
      else if index e <=? oldind then
        inl "check_v_data: index is not increasing"%string
      else if value e =? 0 then inl "check_v_data: value is 0"%string
      else
        match others with
        | None => check_loop t (i + 1) (index e) max_index v_ind others
        | Some os =>
            match vec_at os (index e) with
            | None => inl wild_pointer
            | Some ov =>
                if negb (get_v_entry ov v_ind =? value e) then
                  inl "check_v_data: rows and columns don't match"%string
                else check_loop t (i + 1) (index e) max_index v_ind others
            end
        end
  end.

(** [check_v_data]. *)
Definition check_v_data (vec : SparseVector) (max_index v_ind : Z)
    (others : option (list SparseVector)) : Z * option string :=
  let n_entries := num_entries vec in
  if n_entries >? max_index then
    (-1, Some "check_v_data: number of entries is too big"%string)
  else if n_entries <? -1 then
    (-1, Some "check_v_data: number of entries is negative"%string)
  else if (n_entries =? -1) && negb (match entries vec with
                                     | [] => true | _ => false end) then
    (-1, Some "check_v_data: deleted vector is not empty"%string)
  else
    let n_entries := if n_entries =? -1 then 0 else n_entries in
    match check_loop (entries vec) 1 (-1) max_index v_ind others with
    | inl msg => (-1, Some msg)
    | inr i =>
        if negb (i =? n_entries + 1) then
          (-1, Some "check_v_data: wrong number of entries"%string)
        else (0, None)
    end.

(** The two loops of [check_m_data]: [vecs] is the array from [vec] on,
    [i] the C counter. Both loops pass [n_rows] as [max_index]. *)
Fixpoint check_vectors (vecs : list SparseVector) (i max_index : Z)
    (others : list SparseVector) : Z * option string :=
  match vecs with
  | [] => (0, None)
  | vec :: rest =>
      match check_v_data vec max_index (i + 1) (Some others) with
      | (-1, msg) => (-1, msg)
      | _ => check_vectors rest (i + 1) max_index others
      end
  end.

(** [check_m_data]. *)
Definition check_m_data (matr : SparseMatrix) : Z * option string :=
  let n_rows := num_rows matr in
  match check_vectors (firstn (Z.to_nat n_rows) (rows matr)) 0 n_rows
                      (columns matr) with
  | (-1, msg) => (-1, msg)
  | _ =>
      match check_vectors (firstn (Z.to_nat (num_cols matr)) (columns matr))
                          0 n_rows (rows matr) with
      | (-1, msg) => (-1, msg)
      | _ => (0, None)
      end
  end.

(** *** Invariants *)

(** Sorted rows and columns that agree cell by cell. *)
Definition msound (m : SparseMatrix) : Prop := Core.msound m.

(** All the invariants of the data model. *)
Definition wf (m : SparseMatrix) : Prop := Core.wf is_zero m.

Definition row_entries (m : SparseMatrix) (r : Z) : list SparseEntry :=
  ents (rows m) r.
Definition col_entries (m : SparseMatrix) (c : Z) : list SparseEntry :=
  ents (columns m) c.

(** Bilateral consistency as the specification words it: row [r] has an
    entry at [c] iff column [c] has one at [r], with the same value. *)
Definition bilateral (m : SparseMatrix) : Prop :=
  forall r c v,
    In (mkEntry c v) (row_entries m r) <-> In (mkEntry r v) (col_entries m c).

Lemma remove_v_entry_live (vec : SparseVector) ind :
  num_entries vec <> -1 ->
  remove_v_entry vec ind =
  (snd (remove_found vec ind),
   match fst (remove_found vec ind) with Some v => v | None => 0 end, None).
Proof.
  intros H. unfold remove_v_entry.
  destruct (Z.eqb_spec (num_entries vec) (-1)); [contradiction|].
  unfold remove_found.
  destruct (unlink ind (entries vec)) as [[v|] l]; reflexivity.
Qed.

Lemma remove_v_entry_deleted (vec : SparseVector) ind :
  num_entries vec = -1 ->
  remove_v_entry vec ind =
  (vec, ERR_MVAL, Some "remove_v_entry: vector is already deleted"%string).
Proof. intros H. unfold remove_v_entry. rewrite H. reflexivity. Qed.

(** A call of [remove_m_entry] that does not return [ERR_MVAL] unlinked
    the cell from its row and from its column. *)
Lemma remove_m_entry_run (m m' : SparseMatrix) row col ret msg :
  remove_m_entry m row col = (m', ret, msg) -> ret <> ERR_MVAL ->
  exists rv cv,
    1 <= row <= num_rows m /\ 1 <= col <= num_cols m /\
    vec_at (rows m) row = Some rv /\ vec_at (columns m) col = Some cv /\
    num_entries rv <> -1 /\ num_entries cv <> -1 /\
    m' = mkMatrix (num_rows m) (num_cols m)
           (set_vec (rows m) row (snd (remove_found rv col)))
           (set_vec (columns m) col (snd (remove_found cv row))) /\
    ret = match fst (remove_found rv col) with Some v => v | None => 0 end /\
    ret = match fst (remove_found cv row) with Some v => v | None => 0 end /\
    msg = None.
Proof.
  unfold remove_m_entry, check_m_indices. intros Hrun Hret.
  destruct (check_m_indices_cases _ m row col) as [(H1 & H2 & E)|[_ E]];
    rewrite E in Hrun; [|inversion Hrun; subst; contradiction].
  destruct (vec_at (rows m) row) as [rv|];
    [|inversion Hrun; subst; contradiction].
  destruct (vec_at (columns m) col) as [cv|];
    [|inversion Hrun; subst; contradiction].
  destruct (Z.eq_dec (num_entries rv) (-1)) as [Hdr|Hlr].
  { rewrite (remove_v_entry_deleted _ _ Hdr) in Hrun. simpl in Hrun.
    inversion Hrun; subst; contradiction. }
  rewrite (remove_v_entry_live _ _ Hlr) in Hrun.
  destruct (Z.eqb_spec
              (match fst (remove_found rv col) with Some v => v | None => 0 end)
              ERR_MVAL) as [|Hr]; [inversion Hrun; subst; contradiction|].
  destruct (Z.eq_dec (num_entries cv) (-1)) as [Hdc|Hlc].
  { rewrite (remove_v_entry_deleted _ _ Hdc) in Hrun. simpl in Hrun.
    inversion Hrun; subst; contradiction. }
  rewrite (remove_v_entry_live _ _ Hlc) in Hrun.
  destruct (Z.eqb_spec
              (match fst (remove_found cv row) with Some v => v | None => 0 end)
              ERR_MVAL) as [|Hc]; [inversion Hrun; subst; contradiction|].
  destruct (Z.eqb_spec
              (match fst (remove_found rv col) with Some v => v | None => 0 end)
              (match fst (remove_found cv row) with Some v => v | None => 0 end))
    as [Heq|Hne]; simpl in Hrun; [|inversion Hrun; subst; contradiction].
  inversion Hrun; subst. exists rv, cv.
  unfold with_columns, with_rows. simpl. auto 12.
Qed.

(** A successful [add_m_entry] wrote the value to the row and to the
    column (for zero: unlinked the cell from both). *)
Lemma add_m_entry_run (m m' : SparseMatrix) row col val ret msg :
  add_m_entry m row col val = (m', ret, msg) -> ret <> -1 ->
  exists rv cv,
    1 <= row <= num_rows m /\ 1 <= col <= num_cols m /\
    - ENTRY_MAX <= val <= ENTRY_MAX /\
    vec_at (rows m) row = Some rv /\ vec_at (columns m) col = Some cv /\
    num_entries rv <> -1 /\ num_entries cv <> -1 /\
    m' = mkMatrix (num_rows m) (num_cols m)
           (set_vec (rows m) row (put is_zero rv col val))
           (set_vec (columns m) col (put is_zero cv row val)) /\
    ret = 0 /\ msg = None.
Proof.
  unfold add_m_entry. intros Hrun Hret.
  destruct (check_m_indices_cases _ m row col) as [(H1 & H2 & E)|[_ E]];
    unfold check_m_indices in Hrun; rewrite E in Hrun;
    [|inversion Hrun; subst; contradiction].
  destruct (Z.gtb_spec val ENTRY_MAX);
    [inversion Hrun; subst; contradiction|].
  destruct (Z.ltb_spec val (- ENTRY_MAX));
    [inversion Hrun; subst; contradiction|].
  simpl orb in Hrun. cbv iota in Hrun.
  destruct (Z.eqb_spec val 0) as [Hz|Hnz].
  - destruct (remove_m_entry m row col) as [[m1 r1] e1] eqn:Hrm.
    destruct (Z.eqb_spec r1 ERR_MVAL);
      [inversion Hrun; subst; contradiction|].
    destruct (remove_m_entry_run _ _ _ _ _ _ Hrm n)
      as (rv & cv & _ & _ & Hrv & Hcv & Hlr & Hlc & Hm & _ & _ & He).
    inversion Hrun; subst. exists rv, cv.
    unfold put. simpl. repeat split; auto; try lia.
  - destruct (vec_at (rows m) row) as [rv|];
      [|inversion Hrun; subst; contradiction].
    destruct (vec_at (columns m) col) as [cv|];
      [|inversion Hrun; subst; contradiction].
    unfold add_v_entry, Core.add_v_entry in Hrun.
    destruct (Z.eqb_spec (num_entries rv) (-1));
      [simpl in Hrun; inversion Hrun; subst; contradiction|].
    simpl in Hrun.
    destruct (Z.eqb_spec (num_entries cv) (-1));
      [simpl in Hrun; inversion Hrun; subst; contradiction|].
    inversion Hrun; subst. exists rv, cv.
    unfold with_columns, with_rows. simpl. repeat split; auto; try lia.
Qed.

Lemma shaped_set (m : SparseMatrix) r c rv cv :
  shaped m ->
  shaped (mkMatrix (num_rows m) (num_cols m)
            (set_vec (rows m) r rv) (set_vec (columns m) c cv)).
Proof.
  intros [Hr Hc]. split; simpl; rewrite set_vec_length; assumption.
Qed.

Lemma remove_m_entry_sound (m m' : SparseMatrix) row col ret msg :
  msound m -> remove_m_entry m row col = (m', ret, msg) -> ret <> ERR_MVAL ->
  msound m'.
Proof.
  intros [Hsh (HA & HB & Hc)] Hrun Hret.
  destruct (remove_m_entry_run _ _ _ _ _ _ Hrun Hret)
    as (rv & cv & _ & _ & Hrv & Hcv & _ & _ & -> & _ & _ & _).
  pose proof (all_ascending_at _ _ _ _ HA Hrv) as Har.
  pose proof (all_ascending_at _ _ _ _ HB Hcv) as Hac.
  split; [apply shaped_set, Hsh|]. simpl. repeat split.
  - apply set_vec_Forall; [exact HA | apply remove_found_ascending, Har].
  - apply set_vec_Forall; [exact HB | apply remove_found_ascending, Hac].
  - apply (consistent_cell _ _ _ _ _ _ _ _ _ None Hc Hrv Hcv);
      intros k; apply remove_found_find; assumption.
Qed.

Lemma add_m_entry_sound (m m' : SparseMatrix) row col val ret msg :
  msound m -> add_m_entry m row col val = (m', ret, msg) -> ret <> -1 ->
  msound m'.
Proof.
  intros [Hsh (HA & HB & Hc)] Hrun Hret.
  destruct (add_m_entry_run _ _ _ _ _ _ _ Hrun Hret)
    as (rv & cv & _ & _ & _ & Hrv & Hcv & _ & _ & -> & _ & _).
  pose proof (all_ascending_at _ _ _ _ HA Hrv) as Har.
  pose proof (all_ascending_at _ _ _ _ HB Hcv) as Hac.
  split; [apply shaped_set, Hsh|]. simpl. repeat split.
  - apply set_vec_Forall; [exact HA | apply put_ascending, Har].
  - apply set_vec_Forall; [exact HB | apply put_ascending, Hac].
  - apply (consistent_cell _ _ _ _ _ _ _ _ _ (stored Z is_zero val)
             Hc Hrv Hcv); intros k; apply put_find; assumption.
Qed.

Lemma wf_intro (m : SparseMatrix) :
  msound m ->
  Forall (vec_local is_zero (num_cols m)) (rows m) ->
  Forall (vec_local is_zero (num_rows m)) (columns m) ->
  wf m.
Proof.
  intros [[Hr Hc] Hs] HlA HlB. split; [split; assumption|].
  apply fam_wf_split. rewrite <- Hr, <- Hc. auto.
Qed.

Lemma wf_elim (m : SparseMatrix) :
  wf m ->
  msound m /\
  Forall (vec_local is_zero (num_cols m)) (rows m) /\
  Forall (vec_local is_zero (num_rows m)) (columns m).
Proof.
  intros [[Hr Hc] Hf]. apply fam_wf_split in Hf.
  rewrite <- Hr, <- Hc in Hf. destruct Hf as (Hs & HlA & HlB).
  split; [split; [split|]; assumption | split; assumption].
Qed.

Lemma remove_m_entry_wf (m m' : SparseMatrix) row col ret msg :
  wf m -> remove_m_entry m row col = (m', ret, msg) -> ret <> ERR_MVAL ->
  wf m'.
Proof.
  intros Hwf Hrun Hret. destruct (wf_elim _ Hwf) as (Hs & HlA & HlB).
  pose proof (remove_m_entry_sound _ _ _ _ _ _ Hs Hrun Hret) as Hs'.
  destruct (remove_m_entry_run _ _ _ _ _ _ Hrun Hret)
    as (rv & cv & _ & _ & Hrv & Hcv & Hlr & Hlc & -> & _ & _ & _).
  apply wf_intro; [exact Hs'| |]; simpl; apply set_vec_Forall; auto;
    apply remove_found_local; auto; eapply vec_local_at; eassumption.
Qed.

Lemma add_m_entry_wf (m m' : SparseMatrix) row col val ret msg :
  wf m -> add_m_entry m row col val = (m', ret, msg) -> ret <> -1 ->
  wf m'.
Proof.
  intros Hwf Hrun Hret. destruct (wf_elim _ Hwf) as (Hs & HlA & HlB).
  pose proof (add_m_entry_sound _ _ _ _ _ _ _ Hs Hrun Hret) as Hs'.
  destruct (add_m_entry_run _ _ _ _ _ _ _ Hrun Hret)
    as (rv & cv & Hr & Hc & _ & Hrv & Hcv & Hlr & Hlc & -> & _ & _).
  apply wf_intro; [exact Hs'| |]; simpl; apply set_vec_Forall; auto;
    apply put_local; auto; eapply vec_local_at; eassumption.
Qed.

(** *** [erase_m_colrow] *)

(** What a successful run of the erasing loop leaves behind. *)
Lemma erase_loop_success cr_ind (l : list SparseEntry) :
  forall lo n others l' n' others' rc msg,
  ascending_from lo l ->
  erase_loop cr_ind l n others = (l', n', others', rc, msg) ->
  rc <> -1 ->
  l' = [] /\ n' = n - Z.of_nat (length l) /\
  length others' = length others /\ msg = None /\
  (forall i, vec_at others' i =
             match find_entry i l with
             | Some _ =>
                 option_map (fun ov => snd (remove_found ov cr_ind))
                            (vec_at others i)
             | None => vec_at others i
             end) /\
  (forall c w, find_entry c l = Some w ->
     exists ov, vec_at others c = Some ov /\ num_entries ov <> -1).
Proof.
  induction l as [|e t IH];
    intros lo n others l' n' others' rc msg Ha Hrun Hrc.
  - simpl in Hrun. inversion Hrun; subst. simpl.
    repeat split; auto; try lia. discriminate.
  - destruct Ha as [Hlo Ha]. cbn [erase_loop] in Hrun.
    destruct (vec_at others (index e)) as [ov|] eqn:Hov;
      [|inversion Hrun; subst; contradiction].
    destruct (Z.eq_dec (num_entries ov) (-1)) as [Hd|Hlive].
    { rewrite (remove_v_entry_deleted _ _ Hd) in Hrun. simpl in Hrun.
      inversion Hrun; subst; contradiction. }
    rewrite (remove_v_entry_live _ _ Hlive) in Hrun.
    destruct (_ =? ERR_MVAL); [inversion Hrun; subst; contradiction|].
    destruct (negb _); [inversion Hrun; subst; contradiction|].
    destruct (IH _ _ _ _ _ _ _ _ Ha Hrun Hrc)
      as (Hl' & Hn' & Hlen & Hmsg & Hvec & Hex).
    assert (Ht : forall c, c <= index e -> find_entry c t = None)
      by (intros c Hc; apply (find_entry_above _ _ _ _ Ha Hc)).
    repeat split; auto.
    + simpl length. lia.
    + rewrite Hlen. apply set_vec_length.
    + intros i. rewrite Hvec. cbn [find_entry].
      destruct (Z.eqb_spec (index e) i) as [Hi|Hi].
      * subst i. rewrite (Ht _ (Z.le_refl _)).
        rewrite (vec_at_set_vec_same _ _ _ _ _ Hov), Hov. reflexivity.
      * rewrite vec_at_set_vec_other by assumption. reflexivity.
    + intros c w. cbn [find_entry].
      destruct (Z.eqb_spec (index e) c) as [Hc|Hc].
      * intros _. subst c. eauto.
      * intros Hf. destruct (Hex _ _ Hf) as (ov' & Hov' & Hl2).
        rewrite vec_at_set_vec_other in Hov' by assumption. eauto.
Qed.

(** A successful [erase_m_colrow] emptied the vector and unlinked its
    number from every orthogonal vector it named. *)
Lemma erase_m_colrow_run (cr_vec : SparseVector) cr_ind others do_del
    cr_vec' others' rc msg :
  ascending (entries cr_vec) ->
  erase_m_colrow cr_vec cr_ind others do_del = (cr_vec', others', rc, msg) ->
  rc <> -1 ->
  num_entries cr_vec <> -1 /\
  cr_vec' = mkVector (if do_del =? 0 then 0 else -1) [] /\
  counted cr_vec /\
  length others' = length others /\ rc = 0 /\ msg = None /\
  (forall i, vec_at others' i =
             match find_entry i (entries cr_vec) with
             | Some _ =>
                 option_map (fun ov => snd (remove_found ov cr_ind))
                            (vec_at others i)
             | None => vec_at others i
             end) /\
  (forall c w, find_entry c (entries cr_vec) = Some w ->
     exists ov, vec_at others c = Some ov /\ num_entries ov <> -1).
Proof.
  intros Ha Hrun Hrc. unfold erase_m_colrow in Hrun.
  destruct (Z.eqb_spec (num_entries cr_vec) (-1)) as [|Hlive];
    [inversion Hrun; subst; contradiction|].
  destruct (erase_loop cr_ind (entries cr_vec) (num_entries cr_vec) others)
    as [[[[l n] o] r] e] eqn:Hloop.
  destruct (Z.eqb_spec r (-1)) as [|Hr];
    [inversion Hrun; subst; contradiction|].
  destruct (Z.eqb_spec n 0) as [Hn|Hn]; simpl in Hrun;
    [|inversion Hrun; subst; contradiction].
  destruct (ascending_common _ _ _ Ha Ha) as (lo & Hlo & _).
  destruct (erase_loop_success _ _ _ _ _ _ _ _ _ _ Hlo Hloop Hr)
    as (Hl' & Hn' & Hlen & Hmsg & Hvec & Hex).
  inversion Hrun; subst. unfold counted.
  repeat split; auto; lia.
Qed.

Lemma erase_m_colrow_sound (A B : list SparseVector) i v do_del
    v' B' rc msg :
  sound A B -> vec_at A i = Some v ->
  erase_m_colrow v i B do_del = (v', B', rc, msg) -> rc <> -1 ->
  sound (set_vec A i v') B' /\ length B' = length B.
Proof.
  intros (HA & HB & Hc) Hv Hrun Hrc.
  pose proof (all_ascending_at _ _ _ _ HA Hv) as Ha.
  destruct (erase_m_colrow_run _ _ _ _ _ _ _ _ Ha Hrun Hrc)
    as (_ & -> & _ & Hlen & _ & _ & Hvec & Hex).
  split; [|exact Hlen].
  assert (HB' : all_ascending B').
  { apply Forall_forall. intros w Hin.
    destruct (In_vec_at _ _ _ Hin) as [k Hk]. rewrite Hvec in Hk.
    destruct (find_entry k (entries v)).
    - destruct (vec_at B k) as [ov|] eqn:Hov; [|discriminate].
      simpl in Hk. inversion Hk; subst.
      apply remove_found_ascending. exact (all_ascending_at _ _ _ _ HB Hov).
    - exact (all_ascending_at _ _ _ _ HB Hk). }
  repeat split; [|exact HB'|].
  - apply set_vec_Forall; [exact HA | exact I].
  - intros r c.
    assert (Hents : find_entry r (ents B' c) =
              match find_entry c (entries v) with
              | Some _ => if r =? i then None else find_entry r (ents B c)
              | None => find_entry r (ents B c)
              end).
    { unfold ents at 1. rewrite Hvec.
      destruct (find_entry c (entries v)) as [w|] eqn:Hw; [|reflexivity].
      destruct (Hex _ _ Hw) as (ov & Hov & _).
      unfold ents. rewrite Hov. simpl.
      apply remove_found_find. exact (all_ascending_at _ _ _ _ HB Hov). }
    rewrite Hents.
    assert (Hvi : find_entry c (entries v) = find_entry i (ents B c)).
    { rewrite <- Hc. unfold ents. rewrite Hv. reflexivity. }
    destruct (Z.eq_dec r i) as [->|Hr].
    + rewrite (ents_set_vec_same _ _ _ _ _ Hv), Z.eqb_refl. simpl.
      destruct (find_entry c (entries v)); [reflexivity | assumption].
    + rewrite ents_set_vec_other by auto.
      destruct (Z.eqb_spec r i); [contradiction|].
      destruct (find_entry c (entries v)); apply Hc.
Qed.

Lemma erase_m_colrow_local (A B : list SparseVector) i v do_del
    v' B' rc msg bA bB :
  all_ascending A -> vec_at A i = Some v ->
  Forall (vec_local is_zero bA) A -> Forall (vec_local is_zero bB) B ->
  erase_m_colrow v i B do_del = (v', B', rc, msg) -> rc <> -1 ->
  Forall (vec_local is_zero bA) (set_vec A i v') /\
  Forall (vec_local is_zero bB) B'.
Proof.
  intros HA Hv HlA HlB Hrun Hrc.
  pose proof (all_ascending_at _ _ _ _ HA Hv) as Ha.
  destruct (erase_m_colrow_run _ _ _ _ _ _ _ _ Ha Hrun Hrc)
    as (_ & -> & _ & Hlen & _ & _ & Hvec & Hex).
  split.
  - apply set_vec_Forall; [exact HlA|]. split; simpl; [constructor|].
    destruct (do_del =? 0); [left; reflexivity | right; auto].
  - apply Forall_forall. intros w Hin.
    destruct (In_vec_at _ _ _ Hin) as [k Hk]. rewrite Hvec in Hk.
    destruct (find_entry k (entries v)) as [x|] eqn:Hx.
    + destruct (Hex _ _ Hx) as (ov & Hov & Hlive).
      rewrite Hov in Hk. simpl in Hk. inversion Hk; subst.
      apply remove_found_local; [|exact Hlive].
      exact (vec_local_at _ _ _ _ _ _ HlB Hov).
    + exact (vec_local_at _ _ _ _ _ _ HlB Hk).
Qed.

Lemma erase_m_row_run (m m' : SparseMatrix) row do_del rc msg :
  erase_m_row m row do_del = (m', rc, msg) -> rc <> -1 ->
  exists rv rv' others,
    1 <= row <= num_rows m /\ vec_at (rows m) row = Some rv /\
    erase_m_colrow rv row (columns m) do_del = (rv', others, rc, msg) /\
    m' = mkMatrix (num_rows m) (num_cols m)
                  (set_vec (rows m) row rv') others.
Proof.
  unfold erase_m_row, check_m_indices. intros Hrun Hrc.
  destruct (check_m_indices_cases _ m row 1) as [(H1 & _ & E)|[_ E]];
    rewrite E in Hrun; [|inversion Hrun; subst; contradiction].
  destruct (vec_at (rows m) row) as [rv|];
    [|inversion Hrun; subst; contradiction].
  destruct (erase_m_colrow rv row (columns m) do_del)
    as [[[rv' others] r] e] eqn:Her.
  inversion Hrun; subst. exists rv, rv', others. auto.
Qed.

Lemma erase_m_column_run (m m' : SparseMatrix) col do_del rc msg :
  erase_m_column m col do_del = (m', rc, msg) -> rc <> -1 ->
  exists cv cv' others,
    1 <= col <= num_cols m /\ vec_at (columns m) col = Some cv /\
    erase_m_colrow cv col (rows m) do_del = (cv', others, rc, msg) /\
    m' = mkMatrix (num_rows m) (num_cols m)
                  others (set_vec (columns m) col cv').
Proof.
  unfold erase_m_column, check_m_indices. intros Hrun Hrc.
  destruct (check_m_indices_cases _ m 1 col) as [(_ & H1 & E)|[_ E]];
    rewrite E in Hrun; [|inversion Hrun; subst; contradiction].
  destruct (vec_at (columns m) col) as [cv|];
    [|inversion Hrun; subst; contradiction].
  destruct (erase_m_colrow cv col (rows m) do_del)
    as [[[cv' others] r] e] eqn:Her.
  inversion Hrun; subst. exists cv, cv', others. auto.
Qed.

Lemma erase_m_row_sound (m m' : SparseMatrix) row do_del rc msg :
  msound m -> erase_m_row m row do_del = (m', rc, msg) -> rc <> -1 ->
  msound m'.
Proof.
  intros [[Hr Hc] Hs] Hrun Hrc.
  destruct (erase_m_row_run _ _ _ _ _ _ Hrun Hrc)
    as (rv & rv' & others & _ & Hrv & Her & ->).
  destruct (erase_m_colrow_sound _ _ _ _ _ _ _ _ _ Hs Hrv Her Hrc)
    as [Hs' Hlen].
  split; [|exact Hs']. split; simpl.
  - rewrite set_vec_length. exact Hr.
  - rewrite Hlen. exact Hc.
Qed.

Lemma erase_m_column_sound (m m' : SparseMatrix) col do_del rc msg :
  msound m -> erase_m_column m col do_del = (m', rc, msg) -> rc <> -1 ->
  msound m'.
Proof.
  intros [[Hr Hc] Hs] Hrun Hrc.
  destruct (erase_m_column_run _ _ _ _ _ _ Hrun Hrc)
    as (cv & cv' & others & _ & Hcv & Her & ->).
  destruct (erase_m_colrow_sound _ _ _ _ _ _ _ _ _
              (sound_sym _ _ _ Hs) Hcv Her Hrc) as [Hs' Hlen].
  split; [|apply sound_sym; exact Hs']. split; simpl.
  - rewrite Hlen. exact Hr.
  - rewrite set_vec_length. exact Hc.
Qed.

Lemma erase_m_row_wf (m m' : SparseMatrix) row do_del rc msg :
  wf m -> erase_m_row m row do_del = (m', rc, msg) -> rc <> -1 -> wf m'.
Proof.
  intros Hwf Hrun Hrc. destruct (wf_elim _ Hwf) as (Hs & HlA & HlB).
  pose proof (erase_m_row_sound _ _ _ _ _ _ Hs Hrun Hrc) as Hs'.
  destruct (erase_m_row_run _ _ _ _ _ _ Hrun Hrc)
    as (rv & rv' & others & _ & Hrv & Her & ->).
  destruct (erase_m_colrow_local _ _ _ _ _ _ _ _ _ _ _
              (proj1 (proj2 Hs)) Hrv HlA HlB Her Hrc) as [HlA' HlB'].
  apply wf_intro; assumption.
Qed.

Lemma erase_m_column_wf (m m' : SparseMatrix) col do_del rc msg :
  wf m -> erase_m_column m col do_del = (m', rc, msg) -> rc <> -1 -> wf m'.
Proof.
  intros Hwf Hrun Hrc. destruct (wf_elim _ Hwf) as (Hs & HlA & HlB).
  pose proof (erase_m_column_sound _ _ _ _ _ _ Hs Hrun Hrc) as Hs'.
  destruct (erase_m_column_run _ _ _ _ _ _ Hrun Hrc)
    as (cv & cv' & others & _ & Hcv & Her & ->).
  destruct (erase_m_colrow_local _ _ _ _ _ _ _ _ _ _ _
              (proj1 (proj2 (proj2 Hs))) Hcv HlB HlA Her Hrc) as [HlB' HlA'].
  apply wf_intro; assumption.
Qed.

Lemma add_m_rows_sound (m m' : SparseMatrix) row1 row2 scalar ret msg :
  msound m -> add_m_rows m row1 row2 scalar = (m', ret, msg) -> ret <> -1 ->
  msound m'.
Proof. apply Core.generic_add_m_rows_sound. Qed.

Lemma add_m_cols_sound (m m' : SparseMatrix) col1 col2 scalar ret msg :
  msound m -> add_m_cols m col1 col2 scalar = (m', ret, msg) -> ret <> -1 ->
  msound m'.
Proof. apply Core.generic_add_m_cols_sound. Qed.

Lemma add_m_rows_wf (m m' : SparseMatrix) row1 row2 scalar ret msg :
  wf m -> add_m_rows m row1 row2 scalar = (m', ret, msg) -> ret <> -1 ->
  wf m'.
Proof. apply Core.generic_add_m_rows_wf. Qed.

Lemma add_m_cols_wf (m m' : SparseMatrix) col1 col2 scalar ret msg :
  wf m -> add_m_cols m col1 col2 scalar = (m', ret, msg) -> ret <> -1 ->
  wf m'.
Proof. apply Core.generic_add_m_cols_wf. Qed.

(** *** Bilateral consistency and the public mutating operations *)

Lemma consistent_bilateral (m : SparseMatrix) :
  all_ascending (rows m) -> all_ascending (columns m) ->
  (consistent (rows m) (columns m) <-> bilateral m).
Proof.
  intros HA HB. unfold bilateral, row_entries, col_entries. split.
  - intros Hc r c v.
    pose proof (all_ascending_ents _ _ r HA) as Har.
    pose proof (all_ascending_ents _ _ c HB) as Hac.
    split; intros Hin.
    + apply (In_find_entry _ _ _ Har) in Hin. simpl in Hin.
      rewrite Hc in Hin. apply find_entry_In, Hin.
    + apply (In_find_entry _ _ _ Hac) in Hin. simpl in Hin.
      rewrite <- Hc in Hin. apply find_entry_In, Hin.
  - intros Hb r c.
    pose proof (all_ascending_ents _ _ r HA) as Har.
    pose proof (all_ascending_ents _ _ c HB) as Hac.
    destruct (find_entry c (ents (rows m) r)) as [v|] eqn:Hr.
    + apply find_entry_In, Hb in Hr.
      apply (In_find_entry _ _ _ Hac) in Hr. simpl in Hr. auto.
    + destruct (find_entry r (ents (columns m) c)) as [v|] eqn:Hcv;
        [|reflexivity].
      apply find_entry_In, Hb in Hcv.
      apply (In_find_entry _ _ _ Har) in Hcv. simpl in Hcv. congruence.
Qed.

(** The calls the matrix can be mutated through. *)
Inductive mutation : Type :=
| AddEntry (row col val : Z)
| RemoveEntry (row col : Z)
| EraseRow (row do_del : Z)
| EraseColumn (col do_del : Z)
| AddRows (row1 row2 scalar : Z)
| AddCols (col1 col2 scalar : Z).

Definition run (c : mutation) (m : SparseMatrix)
  : SparseMatrix * Z * option string :=
  match c with
  | AddEntry row col val => add_m_entry m row col val
  | RemoveEntry row col => remove_m_entry m row col
  | EraseRow row do_del => erase_m_row m row do_del
  | EraseColumn col do_del => erase_m_column m col do_del
  | AddRows row1 row2 scalar => add_m_rows m row1 row2 scalar
  | AddCols col1 col2 scalar => add_m_cols m col1 col2 scalar
  end.

(** The value returned does not signal a failure: [remove_m_entry]
    fails with [ERR_MVAL], the others with -1. *)
Definition succeeded (c : mutation) (ret : Z) : Prop :=
  match c with
  | RemoveEntry _ _ => ret <> ERR_MVAL
  | _ => ret <> -1
  end.

Lemma run_sound (c : mutation) (m m' : SparseMatrix) ret msg :
  msound m -> run c m = (m', ret, msg) -> succeeded c ret -> msound m'.
Proof.
  destruct c; simpl; intros Hs Hrun Hok.
  - eapply add_m_entry_sound; eassumption.
  - eapply remove_m_entry_sound; eassumption.
  - eapply erase_m_row_sound; eassumption.
  - eapply erase_m_column_sound; eassumption.
  - eapply add_m_rows_sound; eassumption.
  - eapply add_m_cols_sound; eassumption.
Qed.

Lemma run_wf (c : mutation) (m m' : SparseMatrix) ret msg :
  wf m -> run c m = (m', ret, msg) -> succeeded c ret -> wf m'.
Proof.
  destruct c; simpl; intros Hs Hrun Hok.
  - eapply add_m_entry_wf; eassumption.
  - eapply remove_m_entry_wf; eassumption.
  - eapply erase_m_row_wf; eassumption.
  - eapply erase_m_column_wf; eassumption.
  - eapply add_m_rows_wf; eassumption.
  - eapply add_m_cols_wf; eassumption.
Qed.

(** A small matrix used to exercise the statements: 2 rows, 1 column,
    built by [init_s_matrix] and [add_m_entry]. *)
Definition empty_2x1 : SparseMatrix :=
  match init_s_matrix 2 1 with
  | (Some m, _, _) => m
  | _ => mkMatrix 0 0 [] []
  end.

Definition column_2x1 (val : Z) : SparseMatrix :=
  fst (fst (add_m_entry empty_2x1 2 1 val)).

Lemma empty_2x1_wf : wf empty_2x1.
Proof. apply (init_s_matrix_wf Z is_zero 2 1 _ 0 None). reflexivity. Qed.

Lemma column_2x1_wf val :
  - ENTRY_MAX <= val <= ENTRY_MAX -> wf (column_2x1 val).
Proof.
  intros Hval. unfold column_2x1.
  destruct (add_m_entry empty_2x1 2 1 val) as [[m' r] e] eqn:Hrun.
  apply (add_m_entry_wf _ _ _ _ _ _ _ empty_2x1_wf Hrun).
  revert Hrun. unfold add_m_entry.
  change (check_m_indices empty_2x1 2 1) with (0, @None string).
  cbv iota.
  destruct (Z.gtb_spec val ENTRY_MAX); [lia|].
  destruct (Z.ltb_spec val (- ENTRY_MAX)); [lia|]. simpl orb. cbv iota.
  destruct (val =? 0); simpl; intros [= _ <- _]; discriminate.
Qed.

(** *** What [add_m_rows] and [add_m_cols] compute *)

(** The vector has an entry at index [c]. *)
Definition has_entry (v : SparseVector) (c : Z) : Prop :=
  exists w, In (mkEntry c w) (entries v).

(** The exact integer [v1[c] + scalar * v2[c]], absent entries read as 0. *)
Definition merged (v1 v2 : SparseVector) (scalar c : Z) : Z :=
  get_v_entry v1 c + scalar * get_v_entry v2 c.

Lemma has_entry_find (v : SparseVector) c :
  ascending (entries v) ->
  (has_entry v c <-> exists w, find_entry c (entries v) = Some w).
Proof.
  intros Ha. split; intros [w Hw]; exists w.
  - apply (In_find_entry _ _ _ Ha) in Hw. exact Hw.
  - apply find_entry_In, Hw.
Qed.

Lemma ENTRY_MAX_val : ENTRY_MAX = 1073741823.
Proof. reflexivity. Qed.

Lemma int_small x :
  Z.abs x <= INT_MAX -> CInt.wrap int_bits x = x /\ ABSFUNC x = Z.abs x.
Proof.
  intros H. unfold ABSFUNC, CInt.abs.
  split; apply CInt.wrap_small; unfold CInt.in_range, CInt.min_int,
    CInt.max_int, int_bits, INT_MAX in *; simpl; lia.
Qed.

Lemma comb_exact (v1 v2 : SparseVector) scalar c w :
  ascending (entries v1) -> ascending (entries v2) ->
  find_entry c (entries v2) = Some w ->
  comb Z vadd vmul scalar (find_entry c (entries v1)) w =
  CInt.wrap int_bits (merged v1 v2 scalar c).
Proof.
  intros H1 H2 Hw. unfold merged, get_v_entry.
  rewrite !get_v_entry_find by assumption. rewrite Hw.
  unfold comb, vadd, vmul, CInt.add, CInt.mul.
  destruct (find_entry c (entries v1)) as [x|].
  - apply CInt.wrap_add_r.
  - reflexivity.
Qed.

Lemma merged_untouched (v1 v2 : SparseVector) scalar c :
  ascending (entries v1) -> ascending (entries v2) ->
  find_entry c (entries v2) = None ->
  merged v1 v2 scalar c =
  match find_entry c (entries v1) with Some x => x | None => 0 end.
Proof.
  intros H1 H2 Hw. unfold merged, get_v_entry.
  rewrite !get_v_entry_find by assumption. rewrite Hw. lia.
Qed.

(** An orthogonal vector named by an entry exists and is not deleted. *)
Lemma fam_wf_other_live (A B : list SparseVector) i v c w :
  fam_wf is_zero A B -> vec_at A i = Some v ->
  find_entry c (entries v) = Some w ->
  exists ov, vec_at B c = Some ov /\ num_entries ov <> -1.
Proof.
  intros (HA & HB & Hc) Hv Hw.
  pose proof (vec_wf_at _ _ _ _ _ _ HA Hv) as (_ & Hf & _).
  rewrite Forall_forall in Hf.
  pose proof (Hf _ (find_entry_In _ _ _ _ Hw)) as [Hr _]. simpl in Hr.
  destruct (vec_at_in_range _ B c Hr) as [ov Hov]. exists ov.
  split; [exact Hov|].
  pose proof (vec_wf_at _ _ _ _ _ _ HB Hov) as (_ & _ & Hcnt).
  assert (Hin : find_entry i (entries ov) = Some w).
  { specialize (Hc i c). unfold ents in Hc. rewrite Hv, Hov in Hc.
    congruence. }
  destruct Hcnt as [Hcnt|[_ He]].
  - unfold counted in Hcnt. lia.
  - rewrite He in Hin. discriminate.
Qed.

(** When no value computed exceeds [ENTRY_MAX], [add_m_colrows]
    succeeds and leaves the exact sums, zero results absent. *)
Lemma add_m_colrows_exact (A B : list SparseVector) i1 i2 v1 v2 scalar :
  fam_wf is_zero A B ->
  vec_at A i1 = Some v1 -> vec_at A i2 = Some v2 ->
  num_entries v1 <> -1 -> num_entries v2 <> -1 ->
  (forall c, has_entry v2 c -> Z.abs (merged v1 v2 scalar c) <= ENTRY_MAX) ->
  exists v1' B' ret,
    add_m_colrows vadd vmul is_zero ABSFUNC ENTRY_MAX v1 i1 v2 B scalar =
      (v1', B', ret, None) /\
    fam_wf is_zero (set_vec A i1 v1') B' /\
    length B' = length B /\
    (forall c, find_entry c (entries v1') =
               if merged v1 v2 scalar c =? 0 then None
               else Some (merged v1 v2 scalar c)) /\
    (forall c, ~ has_entry v2 c -> vec_at B' c = vec_at B c) /\
    (forall c, has_entry v2 c -> Z.abs (merged v1 v2 scalar c) <= ret) /\
    (ret = 0 \/
     exists c, has_entry v2 c /\ ret = Z.abs (merged v1 v2 scalar c)).
Proof.
  intros Hwf Hv1 Hv2 Hl1 Hl2 Hsmall.
  pose proof Hwf as (HA & HB & Hc).
  pose proof (vec_wf_at _ _ _ _ _ _ HA Hv1) as (Ha1 & Hf1 & _).
  pose proof (vec_wf_at _ _ _ _ _ _ HA Hv2) as (Ha2 & Hf2 & _).
  assert (Hem : ENTRY_MAX <= INT_MAX) by (rewrite ENTRY_MAX_val; unfold INT_MAX; lia).
  assert (Hex : forall c w, find_entry c (entries v2) = Some w ->
            comb Z vadd vmul scalar (find_entry c (entries v1)) w =
              merged v1 v2 scalar c /\
            ABSFUNC (merged v1 v2 scalar c) = Z.abs (merged v1 v2 scalar c) /\
            Z.abs (merged v1 v2 scalar c) <= ENTRY_MAX).
  { intros c w Hw.
    assert (Hs : Z.abs (merged v1 v2 scalar c) <= ENTRY_MAX)
      by (apply Hsmall, has_entry_find; eauto).
    destruct (int_small (merged v1 v2 scalar c)) as [E1 E2]; [lia|].
    rewrite (comb_exact _ _ _ _ _ Ha1 Ha2 Hw), E1. auto. }
  destruct (ascending_common _ _ _ Ha1 Ha2) as (lo & Hlo1 & Hlo2).
  destruct (merge_loop_progress Z vadd vmul is_zero ABSFUNC ENTRY_MAX
              i1 scalar (entries v2) (entries v1) lo (num_entries v1) B 0
              (Z.le_refl 0) Hlo1 Hlo2) as (l & n & o & r & Hloop & Hr).
  { intros c w Hw. destruct (Hex c w Hw) as (E1 & E2 & E3).
    rewrite E1, E2. split; [exact E3|].
    exact (fam_wf_other_live _ _ _ _ _ _ Hwf Hv2 Hw). }
  assert (Hrun : add_m_colrows vadd vmul is_zero ABSFUNC ENTRY_MAX
                   v1 i1 v2 B scalar = (mkVector n l, o, r, None)).
  { unfold add_m_colrows.
    destruct (Z.eqb_spec (num_entries v1) (-1)); [contradiction|].
    destruct (Z.eqb_spec (num_entries v2) (-1)); [contradiction|].
    simpl orb. cbv iota. rewrite Hloop. reflexivity. }
  assert (Hret : r <> -1) by lia.
  exists (mkVector n l), o, r. split; [exact Hrun|].
  split; [exact (add_m_colrows_wf _ _ _ _ _ _ _ _ _ _ _ _ _ _ _ _ _
                   Hwf Hv1 Hv2 Hrun Hret)|].
  destruct (add_m_colrows_success _ _ _ _ _ _ _ _ _ _ _ _ _ _ _
              Ha1 Ha2 Hrun Hret)
    as (_ & _ & _ & Hfl & _ & Hlen & Hvec & _ & _).
  destruct (merge_loop_ret _ _ _ _ _ _ _ _ _ _ _ _ _ _ _ _ _ _ _
              Hlo1 Hlo2 Hloop Hret) as (_ & Hall & Hwit).
  split; [exact Hlen|]. split; [|split; [|split]].
  - intros c. rewrite Hfl. cbn [entries].
    destruct (find_entry c (entries v2)) as [w|] eqn:Hw.
    + destruct (Hex c w Hw) as (E1 & _). rewrite E1. reflexivity.
    + rewrite (merged_untouched _ _ _ _ Ha1 Ha2 Hw).
      destruct (find_entry c (entries v1)) as [x|] eqn:Hx; [|reflexivity].
      rewrite Forall_forall in Hf1.
      pose proof (Hf1 _ (find_entry_In _ _ _ _ Hx)) as [_ Hnz].
      simpl in Hnz. unfold is_zero in Hnz. rewrite Hnz. reflexivity.
  - intros c Hn. rewrite Hvec.
    destruct (find_entry c (entries v2)) as [w|] eqn:Hw; [|reflexivity].
    exfalso. apply Hn, has_entry_find; eauto.
  - intros c Hc'. apply has_entry_find in Hc'; [|exact Ha2].
    destruct Hc' as [w Hw]. destruct (Hex c w Hw) as (E1 & E2 & _).
    rewrite <- E2, <- E1. apply Hall, Hw.
  - destruct Hwit as [Hw0|(c & w & Hw & Hr')]; [left; exact Hw0|].
    right. exists c. destruct (Hex c w Hw) as (E1 & E2 & _).
    split; [apply has_entry_find; eauto|]. rewrite <- E2, <- E1. exact Hr'.
Qed.

(** A value computed that exceeds [ENTRY_MAX] and still fits an [int]
    makes [add_m_colrows] fail. *)
Lemma add_m_colrows_too_big (A B : list SparseVector) i1 i2 v1 v2 scalar
    v1' B' ret msg c :
  all_ascending A ->
  vec_at A i1 = Some v1 -> vec_at A i2 = Some v2 ->
  has_entry v2 c ->
  ENTRY_MAX < Z.abs (merged v1 v2 scalar c) <= INT_MAX ->
  add_m_colrows vadd vmul is_zero ABSFUNC ENTRY_MAX v1 i1 v2 B scalar =
    (v1', B', ret, msg) ->
  ret = -1.
Proof.
  intros HA Hv1 Hv2 Hc Hbig Hrun.
  pose proof (all_ascending_at _ _ _ _ HA Hv1) as Ha1.
  pose proof (all_ascending_at _ _ _ _ HA Hv2) as Ha2.
  destruct (Z.eq_dec ret (-1)) as [|Hret]; [assumption|]. exfalso.
  destruct (add_m_colrows_success _ _ _ _ _ _ _ _ _ _ _ _ _ _ _
              Ha1 Ha2 Hrun Hret)
    as (_ & _ & _ & _ & _ & _ & _ & Hbnd & _).
  apply has_entry_find in Hc; [|exact Ha2]. destruct Hc as [w Hw].
  destruct (Hbnd _ _ Hw) as [Hb _].
  rewrite (comb_exact _ _ _ _ _ Ha1 Ha2 Hw) in Hb.
  destruct (int_small (merged v1 v2 scalar c)) as [E1 E2]; [lia|].
  rewrite E1, E2 in Hb. lia.
Qed.

Lemma add_m_colrows_deleted (v1 v2 : SparseVector) i1 B scalar :
  num_entries v1 = -1 \/ num_entries v2 = -1 ->
  add_m_colrows vadd vmul is_zero ABSFUNC ENTRY_MAX v1 i1 v2 B scalar =
  (v1, B, -1, Some "erase_m_colrow: vector is already deleted"%string).
Proof.
  intros H. unfold add_m_colrows.
  destruct (Z.eqb_spec (num_entries v1) (-1)); [reflexivity|].
  destruct (Z.eqb_spec (num_entries v2) (-1)); [reflexivity|].
  destruct H; contradiction.
Qed.

(** *** Deleted vectors *)

Definition deleted_row (m : SparseMatrix) (r : Z) : Prop :=
  exists v, vec_at (rows m) r = Some v /\ num_entries v = -1.

Definition deleted_column (m : SparseMatrix) (c : Z) : Prop :=
  exists v, vec_at (columns m) c = Some v /\ num_entries v = -1.

Lemma wf_deleted_empty (m : SparseMatrix) :
  wf m ->
  (forall r v, vec_at (rows m) r = Some v -> num_entries v = -1 ->
               entries v = []) /\
  (forall c v, vec_at (columns m) c = Some v -> num_entries v = -1 ->
               entries v = []).
Proof.
  intros [_ (HA & HB & _)]. split; intros i v Hv Hd.
  - destruct (vec_wf_at _ _ _ _ _ _ HA Hv) as (_ & _ & [Hc|[_ He]]);
      [unfold counted in Hc; lia | exact He].
  - destruct (vec_wf_at _ _ _ _ _ _ HB Hv) as (_ & _ & [Hc|[_ He]]);
      [unfold counted in Hc; lia | exact He].
Qed.

(** Reading a cell of a deleted row or column gives 0, without error. *)
Lemma get_m_entry_deleted (m : SparseMatrix) r c :
  wf m -> 1 <= r <= num_rows m -> 1 <= c <= num_cols m ->
  deleted_row m r \/ deleted_column m c ->
  get_m_entry m r c = (0, None).
Proof.
  intros Hwf Hr Hc Hdel.
  destruct (wf_deleted_empty _ Hwf) as [HdR HdC].
  destruct Hwf as [[Hnr Hnc] (HA & HB & Hcons)].
  unfold get_m_entry, check_m_indices.
  rewrite check_m_indices_in by assumption.
  destruct (vec_at_in_range _ (rows m) r) as [rv Hrv]; [lia|].
  destruct (vec_at_in_range _ (columns m) c) as [cv Hcv]; [lia|].
  rewrite Hrv, Hcv.
  pose proof (vec_wf_at _ _ _ _ _ _ HA Hrv) as (Har & _).
  pose proof (vec_wf_at _ _ _ _ _ _ HB Hcv) as (Hac & _).
  unfold get_v_entry. rewrite !get_v_entry_find by assumption.
  specialize (Hcons r c). unfold ents in Hcons. rewrite Hrv, Hcv in Hcons.
  assert (Hnone : find_entry c (entries rv) = None).
  { destruct Hdel as [(v & Hv & Hd)|(v & Hv & Hd)].
    - rewrite Hrv in Hv. inversion Hv; subst.
      rewrite (HdR _ _ Hrv Hd). reflexivity.
    - rewrite Hcv in Hv. inversion Hv; subst.
      rewrite Hcons, (HdC _ _ Hcv Hd). reflexivity. }
  rewrite <- Hcons, Hnone. reflexivity.
Qed.

(** A successful mutation leaves the deleted vectors as they are. *)
Lemma colrows_keeps_deleted (v1 v2 : SparseVector) i1 B scalar
    v1' B' ret msg j w :
  ascending (entries v1) -> ascending (entries v2) ->
  add_m_colrows vadd vmul is_zero ABSFUNC ENTRY_MAX v1 i1 v2 B scalar =
    (v1', B', ret, msg) -> ret <> -1 ->
  vec_at B j = Some w -> num_entries w = -1 -> vec_at B' j = Some w.
Proof.
  intros Ha1 Ha2 Hrun Hret Hw Hd.
  destruct (add_m_colrows_success _ _ _ _ _ _ _ _ _ _ _ _ _ _ _
              Ha1 Ha2 Hrun Hret)
    as (_ & _ & _ & _ & _ & _ & Hvec & Hbnd & _).
  rewrite Hvec. destruct (find_entry j (entries v2)) as [x|] eqn:Hx;
    [|exact Hw].
  destruct (Hbnd _ _ Hx) as (_ & ov & Hov & Hlive). congruence.
Qed.

Lemma erase_keeps_deleted (v : SparseVector) i B do_del v' B' rc msg j w :
  ascending (entries v) ->
  erase_m_colrow v i B do_del = (v', B', rc, msg) -> rc <> -1 ->
  vec_at B j = Some w -> num_entries w = -1 -> vec_at B' j = Some w.
Proof.
  intros Ha Hrun Hrc Hw Hd.
  destruct (erase_m_colrow_run _ _ _ _ _ _ _ _ Ha Hrun Hrc)
    as (_ & _ & _ & _ & _ & _ & Hvec & Hex).
  rewrite Hvec. destruct (find_entry j (entries v)) as [x|] eqn:Hx;
    [|exact Hw].
  destruct (Hex _ _ Hx) as (ov & Hov & Hlive). congruence.
Qed.

Lemma set_vec_keeps (vecs : list SparseVector) i v v' j w :
  vec_at vecs i = Some v -> num_entries v <> -1 ->
  vec_at vecs j = Some w -> num_entries w = -1 ->
  vec_at (set_vec vecs i v') j = Some w.
Proof.
  intros Hv Hlive Hw Hd. rewrite vec_at_set_vec_other; [exact Hw|].
  intros ->. congruence.
Qed.

Lemma run_keeps_deleted (c : mutation) (m m' : SparseMatrix) ret msg :
  msound m -> run c m = (m', ret, msg) -> succeeded c ret ->
  (forall r, deleted_row m r -> deleted_row m' r) /\
  (forall k, deleted_column m k -> deleted_column m' k).
Proof.
  intros [_ (HA & HB & _)] Hrun Hok.
  destruct c; simpl in Hrun, Hok.
  - destruct (add_m_entry_run _ _ _ _ _ _ _ Hrun Hok)
      as (rv & cv & _ & _ & _ & Hrv & Hcv & Hlr & Hlc & -> & _ & _).
    split; intros k (w & Hw & Hd); exists w; (split; [|exact Hd]); simpl;
      eapply set_vec_keeps; eassumption.
  - destruct (remove_m_entry_run _ _ _ _ _ _ Hrun Hok)
      as (rv & cv & _ & _ & Hrv & Hcv & Hlr & Hlc & -> & _ & _ & _).
    split; intros k (w & Hw & Hd); exists w; (split; [|exact Hd]); simpl;
      eapply set_vec_keeps; eassumption.
  - destruct (erase_m_row_run _ _ _ _ _ _ Hrun Hok)
      as (rv & rv' & others & _ & Hrv & Her & ->).
    pose proof (all_ascending_at _ _ _ _ HA Hrv) as Ha.
    destruct (erase_m_colrow_run _ _ _ _ _ _ _ _ Ha Her Hok)
      as (Hlive & _).
    split; intros k (w & Hw & Hd); exists w; (split; [|exact Hd]); simpl.
    + eapply set_vec_keeps; eassumption.
    + exact (erase_keeps_deleted _ _ _ _ _ _ _ _ _ _ Ha Her Hok Hw Hd).
  - destruct (erase_m_column_run _ _ _ _ _ _ Hrun Hok)
      as (cv & cv' & others & _ & Hcv & Her & ->).
    pose proof (all_ascending_at _ _ _ _ HB Hcv) as Ha.
    destruct (erase_m_colrow_run _ _ _ _ _ _ _ _ Ha Her Hok)
      as (Hlive & _).
    split; intros k (w & Hw & Hd); exists w; (split; [|exact Hd]); simpl.
    + exact (erase_keeps_deleted _ _ _ _ _ _ _ _ _ _ Ha Her Hok Hw Hd).
    + eapply set_vec_keeps; eassumption.
  - destruct (add_m_rows_run _ _ _ _ _ _ _ _ _ _ _ _ _ Hrun Hok)
      as (v1 & v2 & v1' & others & _ & _ & Hv1 & Hv2 & Hcr & ->).
    pose proof (all_ascending_at _ _ _ _ HA Hv1) as Ha1.
    pose proof (all_ascending_at _ _ _ _ HA Hv2) as Ha2.
    destruct (add_m_colrows_success _ _ _ _ _ _ _ _ _ _ _ _ _ _ _
                Ha1 Ha2 Hcr Hok) as (Hlive & _).
    split; intros k (w & Hw & Hd); exists w; (split; [|exact Hd]); simpl.
    + eapply set_vec_keeps; eassumption.
    + exact (colrows_keeps_deleted _ _ _ _ _ _ _ _ _ _ _ Ha1 Ha2 Hcr Hok Hw Hd).
  - destruct (add_m_cols_run _ _ _ _ _ _ _ _ _ _ _ _ _ Hrun Hok)
      as (v1 & v2 & v1' & others & _ & _ & Hv1 & Hv2 & Hcr & ->).
    pose proof (all_ascending_at _ _ _ _ HB Hv1) as Ha1.
    pose proof (all_ascending_at _ _ _ _ HB Hv2) as Ha2.
    destruct (add_m_colrows_success _ _ _ _ _ _ _ _ _ _ _ _ _ _ _
                Ha1 Ha2 Hcr Hok) as (Hlive & _).
    split; intros k (w & Hw & Hd); exists w; (split; [|exact Hd]); simpl.
    + exact (colrows_keeps_deleted _ _ _ _ _ _ _ _ _ _ _ Ha1 Ha2 Hcr Hok Hw Hd).
    + eapply set_vec_keeps; eassumption.
Qed.

(** Erasing with [do_del] set marks the vector as deleted. *)
Lemma erase_m_row_deletes (m m' : SparseMatrix) row do_del rc msg :
  msound m -> erase_m_row m row do_del = (m', rc, msg) -> rc <> -1 ->
  do_del <> 0 -> deleted_row m' row.
Proof.
  intros [_ (HA & _)] Hrun Hrc Hd.
  destruct (erase_m_row_run _ _ _ _ _ _ Hrun Hrc)
    as (rv & rv' & others & _ & Hrv & Her & ->).
  pose proof (all_ascending_at _ _ _ _ HA Hrv) as Ha.
  destruct (erase_m_colrow_run _ _ _ _ _ _ _ _ Ha Her Hrc) as (_ & -> & _).
  exists (mkVector (if do_del =? 0 then 0 else -1) []). simpl. split.
  - eapply vec_at_set_vec_same; eassumption.
  - destruct (Z.eqb_spec do_del 0); [contradiction | reflexivity].
Qed.

Lemma erase_m_column_deletes (m m' : SparseMatrix) col do_del rc msg :
  msound m -> erase_m_column m col do_del = (m', rc, msg) -> rc <> -1 ->
  do_del <> 0 -> deleted_column m' col.
Proof.
  intros [_ (_ & HB & _)] Hrun Hrc Hd.
  destruct (erase_m_column_run _ _ _ _ _ _ Hrun Hrc)
    as (cv & cv' & others & _ & Hcv & Her & ->).
  pose proof (all_ascending_at _ _ _ _ HB Hcv) as Ha.
  destruct (erase_m_colrow_run _ _ _ _ _ _ _ _ Ha Her Hrc) as (_ & -> & _).
  exists (mkVector (if do_del =? 0 then 0 else -1) []). simpl. split.
  - eapply vec_at_set_vec_same; eassumption.
  - destruct (Z.eqb_spec do_del 0); [contradiction | reflexivity].
Qed.

(** A sequence of calls, every one of which succeeds. *)
Definition succeededb (c : mutation) (ret : Z) : bool :=
  match c with
  | RemoveEntry _ _ => negb (ret =? ERR_MVAL)
  | _ => negb (ret =? -1)
  end.

Fixpoint run_all (cs : list mutation) (m : SparseMatrix)
  : option SparseMatrix :=
  match cs with
  | [] => Some m
  | c :: t =>
      let '(m', ret, _) := run c m in
      if succeededb c ret then run_all t m' else None
  end.

Lemma succeededb_spec c ret : succeededb c ret = true <-> succeeded c ret.
Proof.
  destruct c; simpl; rewrite negb_true_iff, Z.eqb_neq; reflexivity.
Qed.

Lemma run_dims (c : mutation) (m m' : SparseMatrix) ret msg :
  msound m -> run c m = (m', ret, msg) -> succeeded c ret ->
  num_rows m' = num_rows m /\ num_cols m' = num_cols m.
Proof.
  intros Hs Hrun Hok. destruct c; simpl in Hrun, Hok.
  - destruct (add_m_entry_run _ _ _ _ _ _ _ Hrun Hok)
      as (? & ? & _ & _ & _ & _ & _ & _ & _ & -> & _). auto.
  - destruct (remove_m_entry_run _ _ _ _ _ _ Hrun Hok)
      as (? & ? & _ & _ & _ & _ & _ & _ & -> & _). auto.
  - destruct (erase_m_row_run _ _ _ _ _ _ Hrun Hok)
      as (? & ? & ? & _ & _ & _ & ->). auto.
  - destruct (erase_m_column_run _ _ _ _ _ _ Hrun Hok)
      as (? & ? & ? & _ & _ & _ & ->). auto.
  - destruct (add_m_rows_run _ _ _ _ _ _ _ _ _ _ _ _ _ Hrun Hok)
      as (? & ? & ? & ? & _ & _ & _ & _ & _ & ->). auto.
  - destruct (add_m_cols_run _ _ _ _ _ _ _ _ _ _ _ _ _ Hrun Hok)
      as (? & ? & ? & ? & _ & _ & _ & _ & _ & ->). auto.
Qed.

Lemma run_all_wf cs : forall m m',
  wf m -> run_all cs m = Some m' ->
  wf m' /\ num_rows m' = num_rows m /\ num_cols m' = num_cols m /\
  (forall r, deleted_row m r -> deleted_row m' r) /\
  (forall c, deleted_column m c -> deleted_column m' c).
Proof.
  induction cs as [|c t IH]; intros m m' Hwf Hrun; simpl in Hrun.
  - inversion Hrun; subst. auto.
  - destruct (run c m) as [[m1 ret] msg] eqn:Hc.
    destruct (succeededb c ret) eqn:Hok; [|discriminate].
    apply succeededb_spec in Hok.
    pose proof (run_wf _ _ _ _ _ Hwf Hc Hok) as Hwf1.
    destruct (run_dims _ _ _ _ _ (wf_msound _ _ _ Hwf) Hc Hok) as [Hr1 Hc1].
    destruct (run_keeps_deleted _ _ _ _ _ (wf_msound _ _ _ Hwf) Hc Hok)
      as [Hdr Hdc].
    destruct (IH _ _ Hwf1 Hrun) as (Hwf' & Hr' & Hc' & Hdr' & Hdc').
    split; [exact Hwf'|]. split; [congruence|]. split; [congruence|].
    split; auto.
Qed.

(** *** The error value [ERR_MVAL] *)

(** Every stored value is at most [ENTRY_MAX] in absolute value. *)
Definition bounded_vec (v : SparseVector) : Prop :=
  Forall (fun e => Z.abs (value e) <= ENTRY_MAX) (entries v).

Definition bounded (m : SparseMatrix) : Prop :=
  Forall bounded_vec (rows m) /\ Forall bounded_vec (columns m).

Lemma seek_incl (ind : Z) (l : list SparseEntry) e :
  In e (seek ind l) -> In e l.
Proof.
  induction l as [|a t IH]; simpl; [contradiction|].
  destruct (index a >=? ind); simpl; intuition.
Qed.

Lemma get_v_entry_bounded (v : SparseVector) ind :
  bounded_vec v -> Z.abs (get_v_entry v ind) <= ENTRY_MAX.
Proof.
  intros Hb. unfold get_v_entry, Core.get_v_entry.
  assert (H0 : Z.abs 0 <= ENTRY_MAX) by (rewrite ENTRY_MAX_val; simpl; lia).
  destruct (seek ind (entries v)) as [|e t] eqn:Hs; [exact H0|].
  destruct (index e =? ind); [|exact H0].
  unfold bounded_vec in Hb. rewrite Forall_forall in Hb. apply Hb.
  apply (seek_incl ind). rewrite Hs. left. reflexivity.
Qed.

Lemma unlink_In (ind : Z) (l : list SparseEntry) x :
  fst (unlink ind l) = Some x -> exists e, In e l /\ value e = x.
Proof.
  induction l as [|a t IH]; simpl; [discriminate|].
  destruct (index a >=? ind).
  - destruct (index a =? ind); simpl; [|discriminate].
    intros [= <-]. eauto.
  - destruct (unlink ind t) as [r t']. simpl in *. intros Hr.
    destruct (IH Hr) as (e & He & Hv). eauto.
Qed.

Lemma remove_found_bounded (v : SparseVector) ind :
  bounded_vec v ->
  Z.abs (match fst (remove_found v ind) with Some x => x | None => 0 end)
    <= ENTRY_MAX /\
  bounded_vec (snd (remove_found v ind)).
Proof.
  intros Hb. split.
  - unfold remove_found.
    pose proof (unlink_In ind (entries v)) as Hin.
    destruct (unlink ind (entries v)) as [[x|] l]; simpl in *.
    + destruct (Hin x eq_refl) as (e & He & <-).
      unfold bounded_vec in Hb. rewrite Forall_forall in Hb. auto.
    + rewrite ENTRY_MAX_val. lia.
  - apply remove_found_Forall, Hb.
Qed.

Lemma bounded_at (vecs : list SparseVector) i v :
  Forall bounded_vec vecs -> vec_at vecs i = Some v -> bounded_vec v.
Proof.
  intros Hall Hv. apply vec_at_In in Hv. rewrite Forall_forall in Hall. auto.
Qed.

(** On a matrix with bounded values [get_m_entry] returns [ERR_MVAL]
    exactly when it has set an error message. *)
Lemma get_m_entry_sentinel (m : SparseMatrix) row col :
  bounded m ->
  (fst (get_m_entry m row col) = ERR_MVAL <->
   snd (get_m_entry m row col) <> None).
Proof.
  intros [HbR HbC]. unfold get_m_entry, check_m_indices.
  destruct (check_m_indices_cases _ m row col) as [(_ & _ & E)|[_ E]];
    rewrite E; [|simpl; split; [discriminate | reflexivity]].
  destruct (vec_at (rows m) row) as [rv|] eqn:Hrv;
    [|simpl; split; [discriminate | reflexivity]].
  destruct (vec_at (columns m) col) as [cv|] eqn:Hcv;
    [|simpl; split; [discriminate | reflexivity]].
  destruct (negb _); simpl; [split; [discriminate | reflexivity]|].
  pose proof (get_v_entry_bounded rv col (bounded_at _ _ _ HbR Hrv)) as Hb.
  unfold ERR_MVAL, INT_MAX. rewrite ENTRY_MAX_val in Hb.
  split; [lia | congruence].
Qed.

(** The same for [remove_m_entry]. *)
Lemma remove_m_entry_sentinel (m : SparseMatrix) row col :
  bounded m ->
  (snd (fst (remove_m_entry m row col)) = ERR_MVAL <->
   snd (remove_m_entry m row col) <> None).
Proof.
  intros [HbR HbC]. unfold remove_m_entry, check_m_indices.
  destruct (check_m_indices_cases _ m row col) as [(_ & _ & E)|[_ E]];
    rewrite E; [|simpl; split; [discriminate | reflexivity]].
  destruct (vec_at (rows m) row) as [rv|] eqn:Hrv;
    [|simpl; split; [discriminate | reflexivity]].
  destruct (vec_at (columns m) col) as [cv|] eqn:Hcv;
    [|simpl; split; [discriminate | reflexivity]].
  destruct (Z.eq_dec (num_entries rv) (-1)) as [Hdr|Hlr].
  { rewrite (remove_v_entry_deleted _ _ Hdr). simpl.
    split; [discriminate | reflexivity]. }
  rewrite (remove_v_entry_live _ _ Hlr).
  destruct (remove_found_bounded rv col (bounded_at _ _ _ HbR Hrv))
    as [Hbr _].
  set (valr := match fst (remove_found rv col) with
               | Some v => v | None => 0 end) in *.
  assert (Hne : valr <> ERR_MVAL)
    by (unfold ERR_MVAL, INT_MAX; rewrite ENTRY_MAX_val in Hbr; lia).
  destruct (Z.eqb_spec valr ERR_MVAL); [contradiction|].
  destruct (Z.eq_dec (num_entries cv) (-1)) as [Hdc|Hlc].
  { rewrite (remove_v_entry_deleted _ _ Hdc). simpl.
    split; [discriminate | reflexivity]. }
  rewrite (remove_v_entry_live _ _ Hlc).
  destruct (remove_found_bounded cv row (bounded_at _ _ _ HbC Hcv))
    as [Hbc _].
  set (valc := match fst (remove_found cv row) with
               | Some v => v | None => 0 end) in *.
  assert (Hnc : valc <> ERR_MVAL)
    by (unfold ERR_MVAL, INT_MAX; rewrite ENTRY_MAX_val in Hbc; lia).
  destruct (Z.eqb_spec valc ERR_MVAL); [contradiction|].
  destruct (negb _); simpl; [split; [discriminate | reflexivity]|].
  split; [contradiction | congruence].
Qed.

(** [add_m_entry] only stores values within the bound. *)
Lemma add_m_entry_bounded (m m' : SparseMatrix) row col val ret msg :
  bounded m -> add_m_entry m row col val = (m', ret, msg) -> ret <> -1 ->
  Z.abs val <= ENTRY_MAX /\ bounded m'.
Proof.
  intros [HbR HbC] Hrun Hret.
  destruct (add_m_entry_run _ _ _ _ _ _ _ Hrun Hret)
    as (rv & cv & _ & _ & Hval & Hrv & Hcv & _ & _ & -> & _ & _).
  split; [lia|]. split; simpl; apply set_vec_Forall; auto;
    apply put_Forall; try (intros _; simpl; lia).
  - exact (bounded_at _ _ _ HbR Hrv).
  - exact (bounded_at _ _ _ HbC Hcv).
Qed.

Lemma remove_m_entry_bounded (m m' : SparseMatrix) row col ret msg :
  bounded m -> remove_m_entry m row col = (m', ret, msg) ->
  ret <> ERR_MVAL -> Z.abs ret <= ENTRY_MAX /\ bounded m'.
Proof.
  intros [HbR HbC] Hrun Hret.
  destruct (remove_m_entry_run _ _ _ _ _ _ Hrun Hret)
    as (rv & cv & _ & _ & Hrv & Hcv & _ & _ & -> & -> & _ & _).
  destruct (remove_found_bounded rv col (bounded_at _ _ _ HbR Hrv))
    as [Hbr Hbr'].
  destruct (remove_found_bounded cv row (bounded_at _ _ _ HbC Hcv))
    as [_ Hbc'].
  split; [exact Hbr|]. split; simpl; apply set_vec_Forall; auto.
Qed.

Lemma empty_2x1_bounded : bounded empty_2x1.
Proof. split; simpl; repeat constructor. Qed.

End SparMat.

(* ------------------------------------------------------------------ *)
(** ** [sparmat-U.c]: matrices with entries in Z[t]/(t^2 = 1)

    The header [sparmat-U.h] is not among the sources.  What it fixes -
    the width of [SM_value_t], the macro [ABSFUNC] on a two-component
    value and the limit [ENTRY_MAX] - is kept as the parameters of the
    section below. *)

Module SparMatU.

Import Core.

(** An element [a + b t]: the array [SM_value_t val[2]]. *)
Definition Uval : Type := (Z * Z)%type.

Abbreviation SparseEntry := (Core.SparseEntry Uval).
Abbreviation SparseVector := (Core.SparseVector Uval).
Abbreviation SparseMatrix := (Core.SparseMatrix Uval).

Definition Uzero : Uval := (0, 0).

(** [are_Uvals_equal] and [is_Uval_zero]. *)
Definition are_Uvals_equal (val1 val2 : Uval) : bool :=
  (fst val1 =? fst val2) && (snd val1 =? snd val2).

Definition is_Uval_zero (val : Uval) : bool := are_Uvals_equal val Uzero.

Section Parameters.

(** Number of bits of [SM_value_t]. *)
Variable value_bits : positive.
(** [ABSFUNC] on an element, and [ENTRY_MAX]. *)
Variable ABSFUNC : Uval -> Z.
Variable ENTRY_MAX : Z.

Local Abbreviation wrap := (CInt.wrap value_bits).

(** [add_Uvals]. *)
Definition add_Uvals (val1 val2 : Uval) : Uval :=
  (wrap (fst val1 + fst val2), wrap (snd val1 + snd val2)).

(** [mult_Uvals]. *)
Definition mult_Uvals (val1 val2 : Uval) : Uval :=
  (wrap (wrap (fst val1 * fst val2) + wrap (snd val1 * snd val2)),
   wrap (wrap (fst val1 * snd val2) + wrap (snd val1 * fst val2))).

Definition get_v_entry (vec : SparseVector) (ind : Z) : Uval :=
  Core.get_v_entry Uzero vec ind.

Definition find_v_unit (vec : SparseVector)
  : Z * option Uval * option string :=
  Core.find_v_unit ABSFUNC vec.

(** [remove_v_entry], called with a non-NULL [val]: the value returned,
    and what it stored in [*val] ([None]: nothing). *)
Definition remove_v_entry (vec : SparseVector) (ind : Z)
  : SparseVector * Z * option Uval * option string :=
  if num_entries vec =? -1 then
    (vec, -1, None, Some "remove_v_entry: vector is already deleted"%string)
  else match remove_found vec ind with
       | (Some val, vec') => (vec', 0, Some val, None)
       | (None, _) => (vec, 0, Some Uzero, None)
       end.

Definition add_v_entry (vec : SparseVector) (ind : Z) (val : Uval)
  : SparseVector * Z * option string :=
  Core.add_v_entry is_Uval_zero vec ind val.

Definition check_m_indices (matr : SparseMatrix) (row col : Z)
  : Z * option string :=
  Core.check_m_indices matr row col.

Definition with_rows (matr : SparseMatrix) (rs : list SparseVector)
  : SparseMatrix :=
  mkMatrix (num_rows matr) (num_cols matr) rs (columns matr).

Definition with_columns (matr : SparseMatrix) (cs : list SparseVector)
  : SparseMatrix :=
  mkMatrix (num_rows matr) (num_cols matr) (rows matr) cs.

(** [remove_m_entry], called with a non-NULL [val]. *)
Definition remove_m_entry (matr : SparseMatrix) (row col : Z)
  : SparseMatrix * Z * option Uval * option string :=
  match check_m_indices matr row col with
  | (-1, msg) => (matr, -1, None, msg)
  | _ =>
    match vec_at (rows matr) row, vec_at (columns matr) col with
    | Some rv, Some cv =>
        let '(rv', rcr, valr, msgr) := remove_v_entry rv col in
        let matr1 := with_rows matr (set_vec (rows matr) row rv') in
        if rcr =? -1 then (matr1, -1, None, msgr)
        else
          let '(cv', rcc, valc, msgc) := remove_v_entry cv row in
          let matr2 := with_columns matr1 (set_vec (columns matr) col cv') in
          if rcc =? -1 then (matr2, -1, None, msgc)
          else
            match valr, valc with
            | Some vr, Some vc =>
                if negb (are_Uvals_equal vr vc) then
                  (matr2, -1, None,
                   Some "remove_m_entry: row and column entries don't match"
                        %string)
                else (matr2, 0, Some vr, None)
            | _, _ => (matr2, -1, None, Some wild_pointer)
            end
    | _, _ => (matr, -1, None, Some wild_pointer)
    end
  end.

(** [add_m_entry]. *)
Definition add_m_entry (matr : SparseMatrix) (row col : Z) (val : Uval)
  : SparseMatrix * Z * option string :=
  match check_m_indices matr row col with
  | (-1, msg) => (matr, -1, msg)
  | _ =>
    if ABSFUNC val >? ENTRY_MAX then
      (matr, -1, Some "add_m_entry: entry's value is too big"%string)
    else if is_Uval_zero val then
      let '(matr', r, _, msg) := remove_m_entry matr row col in
      if r =? -1 then (matr', -1, msg) else (matr', 0, msg)
    else
      match vec_at (rows matr) row, vec_at (columns matr) col with
      | Some rv, Some cv =>
          let '(rv', rc, msgr) := add_v_entry rv col val in
          let matr1 := with_rows matr (set_vec (rows matr) row rv') in
          if rc =? -1 then (matr1, -1, msgr)
          else
            let '(cv', rc', msgc) := add_v_entry cv row val in
            (with_columns matr1 (set_vec (columns matr) col cv'), rc', msgc)
      | _, _ => (matr, -1, Some wild_pointer)
      end
  end.

(** The loop of [erase_m_colrow]. *)
Fixpoint erase_loop (cr_ind : Z) (l : list SparseEntry) (n : Z)
    (others : list SparseVector)
  : list SparseEntry * Z * list SparseVector * Z * option string :=
  match l with
  | [] => ([], n, others, 0, None)
  | e :: t =>
      match vec_at others (index e) with
      | None => (l, n, others, -1, Some wild_pointer)
      | Some ov =>
          let '(ov', rc, val, msg) := remove_v_entry ov cr_ind in
          let others' := set_vec others (index e) ov' in
          if rc =? -1 then (l, n, others', -1, msg)
          else
            match val with
            | Some v =>
                if negb (are_Uvals_equal v (value e)) then
                  (l, n, others', -1,
                   Some "erase_m_colrow: row and column entries don't match"
                        %string)
                else erase_loop cr_ind t (n - 1) others'
            | None => (l, n, others', -1, Some wild_pointer)
            end
      end
  end.

(** [erase_m_colrow], compiled with [SPARMAT_DEBUG]. *)
Definition erase_m_colrow (cr_vec : SparseVector) (cr_ind : Z)
    (others : list SparseVector) (do_del : Z)
  : SparseVector * list SparseVector * Z * option string :=
  if num_entries cr_vec =? -1 then
    (cr_vec, others, -1,
     Some "erase_m_colrow: vector is already deleted"%string)
  else
    let '(l, n, others', rc, msg) :=
      erase_loop cr_ind (entries cr_vec) (num_entries cr_vec) others in
    if rc =? -1 then (mkVector n l, others', -1, msg)
    else if negb (n =? 0) then
      (mkVector n l, others', -1,
       Some "erase_m_colrow: num_entries is not 0 after erasing"%string)
    else (mkVector (if do_del =? 0 then n else -1) l, others', 0, None).

Definition erase_m_row (matr : SparseMatrix) (row do_del : Z)
  : SparseMatrix * Z * option string :=
  match check_m_indices matr row 1 with
  | (-1, msg) => (matr, -1, msg)
  | _ =>
    match vec_at (rows matr) row with
    | Some rv =>
        let '(rv', others, rc, msg) :=
          erase_m_colrow rv row (columns matr) do_del in
        (mkMatrix (num_rows matr) (num_cols matr)
                  (set_vec (rows matr) row rv') others, rc, msg)
    | None => (matr, -1, Some wild_pointer)
    end
  end.

Definition erase_m_column (matr : SparseMatrix) (col do_del : Z)
  : SparseMatrix * Z * option string :=
  match check_m_indices matr 1 col with
  | (-1, msg) => (matr, -1, msg)
  | _ =>
    match vec_at (columns matr) col with
    | Some cv =>
        let '(cv', others, rc, msg) :=
          erase_m_colrow cv col (rows matr) do_del in
        (mkMatrix (num_rows matr) (num_cols matr)
                  others (set_vec (columns matr) col cv'), rc, msg)
    | None => (matr, -1, Some wild_pointer)
    end
  end.

Definition add_m_rows (matr : SparseMatrix) (row1 row2 : Z) (scalar : Uval)
  : SparseMatrix * Z * option string :=
  Core.add_m_rows add_Uvals mult_Uvals is_Uval_zero ABSFUNC ENTRY_MAX
                  matr row1 row2 scalar.

Definition add_m_cols (matr : SparseMatrix) (col1 col2 : Z) (scalar : Uval)
  : SparseMatrix * Z * option string :=
  Core.add_m_cols add_Uvals mult_Uvals is_Uval_zero ABSFUNC ENTRY_MAX
                  matr col1 col2 scalar.

Definition init_s_matrix (n_rows n_cols : Z)
  : option SparseMatrix * Z * option string :=
  Core.init_s_matrix Uval n_rows n_cols.

(** *** Invariants *)

Definition msound (m : SparseMatrix) : Prop := Core.msound m.
Definition wf (m : SparseMatrix) : Prop := Core.wf is_Uval_zero m.

Lemma are_Uvals_equal_spec (v w : Uval) :
  are_Uvals_equal v w = true <-> v = w.
Proof.
  destruct v as [a b], w as [c d]. unfold are_Uvals_equal. simpl.
  rewrite andb_true_iff, !Z.eqb_eq. split.
  - intros [-> ->]. reflexivity.
  - intros [= -> ->]. auto.
Qed.

Lemma are_Uvals_equal_refl (v : Uval) : are_Uvals_equal v v = true.
Proof. apply are_Uvals_equal_spec. reflexivity. Qed.

Lemma is_Uval_zero_spec (v : Uval) : is_Uval_zero v = true <-> v = Uzero.
Proof. apply are_Uvals_equal_spec. Qed.

Lemma remove_v_entry_live_U (vec : SparseVector) ind :
  num_entries vec <> -1 ->
  remove_v_entry vec ind =
  (snd (remove_found vec ind), 0,
   Some match fst (remove_found vec ind) with Some v => v | None => Uzero end,
   None).
Proof.
  intros H. unfold remove_v_entry.
  destruct (Z.eqb_spec (num_entries vec) (-1)); [contradiction|].
  unfold remove_found.
  destruct (unlink ind (entries vec)) as [[v|] l]; reflexivity.
Qed.

Lemma remove_v_entry_deleted_U (vec : SparseVector) ind :
  num_entries vec = -1 ->
  remove_v_entry vec ind =
  (vec, -1, None, Some "remove_v_entry: vector is already deleted"%string).
Proof. intros H. unfold remove_v_entry. rewrite H. reflexivity. Qed.

Lemma shaped_set_U (m : SparseMatrix) r c rv cv :
  shaped m ->
  shaped (mkMatrix (num_rows m) (num_cols m)
            (set_vec (rows m) r rv) (set_vec (columns m) c cv)).
Proof.
  intros [Hr Hc]. split; simpl; rewrite set_vec_length; assumption.
Qed.

Lemma wf_intro_U (m : SparseMatrix) :
  msound m ->
  Forall (vec_local is_Uval_zero (num_cols m)) (rows m) ->
  Forall (vec_local is_Uval_zero (num_rows m)) (columns m) ->
  wf m.
Proof.
  intros [[Hr Hc] Hs] HlA HlB. split; [split; assumption|].
  apply fam_wf_split. rewrite <- Hr, <- Hc. auto.
Qed.

Lemma wf_elim_U (m : SparseMatrix) :
  wf m ->
  msound m /\
  Forall (vec_local is_Uval_zero (num_cols m)) (rows m) /\
  Forall (vec_local is_Uval_zero (num_rows m)) (columns m).
Proof.
  intros [[Hr Hc] Hf]. apply fam_wf_split in Hf.
  rewrite <- Hr, <- Hc in Hf. destruct Hf as (Hs & HlA & HlB).
  split; [split; [split|]; assumption | split; assumption].
Qed.

(** A successful [remove_m_entry] unlinked the cell from its row and
    from its column. *)
Lemma remove_m_entry_run_U (m m' : SparseMatrix) row col rc val msg :
  remove_m_entry m row col = (m', rc, val, msg) -> rc <> -1 ->
  exists rv cv,
    1 <= row <= num_rows m /\ 1 <= col <= num_cols m /\
    vec_at (rows m) row = Some rv /\ vec_at (columns m) col = Some cv /\
    num_entries rv <> -1 /\ num_entries cv <> -1 /\
    m' = mkMatrix (num_rows m) (num_cols m)
           (set_vec (rows m) row (snd (remove_found rv col)))
           (set_vec (columns m) col (snd (remove_found cv row))) /\
    val = Some match fst (remove_found rv col) with
               | Some v => v | None => Uzero end /\
    rc = 0 /\ msg = None.
Proof.
  unfold remove_m_entry, check_m_indices. intros Hrun Hret.
  destruct (check_m_indices_cases _ m row col) as [(H1 & H2 & E)|[_ E]];
    rewrite E in Hrun; [|inversion Hrun; subst; contradiction].
  destruct (vec_at (rows m) row) as [rv|];
    [|inversion Hrun; subst; contradiction].
  destruct (vec_at (columns m) col) as [cv|];
    [|inversion Hrun; subst; contradiction].
  destruct (Z.eq_dec (num_entries rv) (-1)) as [Hdr|Hlr].
  { rewrite (remove_v_entry_deleted_U _ _ Hdr) in Hrun. simpl in Hrun.
    inversion Hrun; subst; contradiction. }
  rewrite (remove_v_entry_live_U _ _ Hlr) in Hrun. cbn [Z.eqb] in Hrun.
  cbv iota in Hrun.
  destruct (Z.eq_dec (num_entries cv) (-1)) as [Hdc|Hlc].
  { rewrite (remove_v_entry_deleted_U _ _ Hdc) in Hrun. simpl in Hrun.
    inversion Hrun; subst; contradiction. }
  rewrite (remove_v_entry_live_U _ _ Hlc) in Hrun. cbn [Z.eqb] in Hrun.
  cbv iota in Hrun.
  destruct (negb _); [inversion Hrun; subst; contradiction|].
  inversion Hrun; subst. exists rv, cv.
  unfold with_columns, with_rows. simpl. auto 12.
Qed.

(** A successful [add_m_entry] wrote the value to the row and to the
    column. *)
Lemma add_m_entry_run_U (m m' : SparseMatrix) row col val ret msg :
  add_m_entry m row col val = (m', ret, msg) -> ret <> -1 ->
  exists rv cv,
    1 <= row <= num_rows m /\ 1 <= col <= num_cols m /\
    ABSFUNC val <= ENTRY_MAX /\
    vec_at (rows m) row = Some rv /\ vec_at (columns m) col = Some cv /\
    num_entries rv <> -1 /\ num_entries cv <> -1 /\
    m' = mkMatrix (num_rows m) (num_cols m)
           (set_vec (rows m) row (put is_Uval_zero rv col val))
           (set_vec (columns m) col (put is_Uval_zero cv row val)) /\
    ret = 0 /\ msg = None.
Proof.
  unfold add_m_entry. intros Hrun Hret.
  destruct (check_m_indices_cases _ m row col) as [(H1 & H2 & E)|[_ E]];
    unfold check_m_indices in Hrun; rewrite E in Hrun;
    [|inversion Hrun; subst; contradiction].
  destruct (Z.gtb_spec (ABSFUNC val) ENTRY_MAX);
    [inversion Hrun; subst; contradiction|].
  destruct (is_Uval_zero val) eqn:Hz.
  - destruct (remove_m_entry m row col) as [[[m1 r1] v1] e1] eqn:Hrm.
    destruct (Z.eqb_spec r1 (-1));
      [inversion Hrun; subst; contradiction|].
    destruct (remove_m_entry_run_U _ _ _ _ _ _ _ Hrm n)
      as (rv & cv & _ & _ & Hrv & Hcv & Hlr & Hlc & Hm & _ & _ & He).
    inversion Hrun; subst. exists rv, cv.
    unfold put. rewrite Hz. repeat split; auto; try lia.
  - destruct (vec_at (rows m) row) as [rv|];
      [|inversion Hrun; subst; contradiction].
    destruct (vec_at (columns m) col) as [cv|];
      [|inversion Hrun; subst; contradiction].
    unfold add_v_entry, Core.add_v_entry in Hrun.
    destruct (Z.eqb_spec (num_entries rv) (-1));
      [simpl in Hrun; inversion Hrun; subst; contradiction|].
    cbn [Z.eqb] in Hrun. cbv iota in Hrun.
    destruct (Z.eqb_spec (num_entries cv) (-1));
      [simpl in Hrun; inversion Hrun; subst; contradiction|].
    inversion Hrun; subst. exists rv, cv.
    unfold with_columns, with_rows. simpl. repeat split; auto; try lia.
Qed.

Lemma add_m_entry_wf_U (m m' : SparseMatrix) row col val ret msg :
  wf m -> add_m_entry m row col val = (m', ret, msg) -> ret <> -1 ->
  wf m'.
Proof.
  intros Hwf Hrun Hret.
  destruct (wf_elim_U _ Hwf) as ([Hsh (HA & HB & Hc)] & HlA & HlB).
  destruct (add_m_entry_run_U _ _ _ _ _ _ _ Hrun Hret)
    as (rv & cv & Hr & Hcl & _ & Hrv & Hcv & Hlr & Hlc & -> & _ & _).
  pose proof (all_ascending_at _ _ _ _ HA Hrv) as Har.
  pose proof (all_ascending_at _ _ _ _ HB Hcv) as Hac.
  apply wf_intro_U; simpl.
  - split; [apply shaped_set_U, Hsh|]. simpl. repeat split.
    + apply set_vec_Forall; [exact HA | apply put_ascending, Har].
    + apply set_vec_Forall; [exact HB | apply put_ascending, Hac].
    + apply (consistent_cell _ _ _ _ _ _ _ _ _ (stored Uval is_Uval_zero val)
               Hc Hrv Hcv); intros k; apply put_find; assumption.
  - apply set_vec_Forall; auto. apply put_local; auto.
    eapply vec_local_at; eassumption.
  - apply set_vec_Forall; auto. apply put_local; auto.
    eapply vec_local_at; eassumption.
Qed.

(** *** [erase_m_colrow] *)









(** *** Arithmetic of Z[t]/(t^2 = 1) on machine integers *)

#[local] Existing Instance eqm_setoid.
#[local] Existing Instance Zplus_eqm.
#[local] Existing Instance Zmult_eqm.
#[local] Existing Instance Zopp_eqm.

Lemma wrap_cong x : eqm (2 ^ Z.pos value_bits) (wrap x) x.
Proof. apply CInt.wrap_mod. Qed.




End Parameters.

End SparMatU.

(* ------------------------------------------------------------------ *)
(** ** [sparreduce-U.c]: reduction of a chain complex

    The file is embedded as compiled for a host with 64-bit [long]
    ([LONG_IS_64BIT]), without [PRINT_DEBUG] and [PRINT_REDSTAT].  The
    static variables of the file are the fields of [Complex], threaded
    through the functions.  [bailout()] ends the run with the message in
    [ERR_MESSAGE]. *)

Module SparReduce.

Import Core.
Import SparMatU.

(** The PARI objects that cross the interface. *)
Inductive GEN : Type :=
| t_INT (n : Z)
| t_VECSMALL (words : list Z)
| t_VEC (components : list GEN)
| t_COL (components : list GEN)
| t_MAT (columns : list GEN).

Definition gen_0 : GEN := t_INT 0.
Definition stoi (n : Z) : GEN := t_INT n.

(** How a call ends: with a value, in [bailout()], or with the loop
    budget of the embedding used up. *)
Inductive outcome (A : Type) : Type :=
| Done (a : A)
| Bail (msg : option string)
| Fuel.

Arguments Done {A}.
Arguments Bail {A}.
Arguments Fuel {A}.

Definition bind {A B : Type} (x : outcome A) (f : A -> outcome B)
  : outcome B :=
  match x with
  | Done a => f a
  | Bail msg => Bail msg
  | Fuel => Fuel
  end.

Notation "x <- c1 ;; c2" := (bind c1 (fun x => c2))
  (at level 61, c1 at next level, right associativity).

(** C arrays indexed from 0. *)
Definition zat {A : Type} (l : list A) (i : Z) : option A :=
  if i <? 0 then None else nth_error l (Z.to_nat i).

Fixpoint set_nth {A : Type} (n : nat) (a : A) (l : list A) : list A :=
  match l, n with
  | [], _ => []
  | _ :: t, O => a :: t
  | h :: t, S n' => h :: set_nth n' a t
  end.

Definition zset {A : Type} (l : list A) (i : Z) (a : A) : list A :=
  if i <? 0 then l else set_nth (Z.to_nat i) a l.

(** The static variables of the file.  [num_entries_gen] is the static
    [GEN num_entries], read here through [itos]. *)
Record Complex : Type := mkComplex {
  cplx_size : Z;
  first_group : Z;
  last_group : Z;
  cplx_matrices : list SparseMatrix;
  cplx_group_ranks : list Z;
  num_generators : list Z;
  pari_matrices : list GEN;
  num_entries_gen : list Z;
  ERR_MESSAGE : option string
}.

Definition with_matrices (st : Complex) (ms : list SparseMatrix) : Complex :=
  mkComplex (cplx_size st) (first_group st) (last_group st) ms
            (cplx_group_ranks st) (num_generators st) (pari_matrices st)
            (num_entries_gen st) (ERR_MESSAGE st).

Definition with_generators (st : Complex) (gs : list Z) : Complex :=
  mkComplex (cplx_size st) (first_group st) (last_group st)
            (cplx_matrices st) (cplx_group_ranks st) gs (pari_matrices st)
            (num_entries_gen st) (ERR_MESSAGE st).

(** A matrix before [init_s_matrix]: [rows] and [columns] are NULL. *)
Definition null_matrix : SparseMatrix := mkMatrix 0 0 [] [].

Definition rows_null (m : SparseMatrix) : bool :=
  match rows m with [] => true | _ => false end.

Definition gen_error : string :=
  "eliminate_gens: generator is not killed cleanly"%string.

Section Parameters.

Variable value_bits : positive.
Variable ABSFUNC : Uval -> Z.
Variable ENTRY_MAX : Z.

Local Abbreviation add_m_cols := (add_m_cols value_bits ABSFUNC ENTRY_MAX).
Local Abbreviation add_m_entry := (add_m_entry ABSFUNC ENTRY_MAX).
Local Abbreviation find_v_unit := (find_v_unit ABSFUNC).
Local Abbreviation mult_Uvals := (mult_Uvals value_bits).

(** [malloc_arrays]: a negative element count makes the request huge
    and [malloc] return NULL. *)
Definition malloc_arrays (c_size : Z) : outcome Complex :=
  let size := CInt.wrap 32 c_size in
  if size - 1 <? 0 then Bail (Some "malloc_arrays: not enough memory"%string)
  else
    Done (mkComplex size 0 0
            (repeat null_matrix (Z.to_nat (size - 1)))
            (repeat 0 (Z.to_nat size)) (repeat 0 (Z.to_nat size))
            [] [] None).

(** The loop of [init_ranks]; [c_ranks] holds the values [itos] reads. *)
Fixpoint init_ranks_loop (n : nat) (i : Z) (c_ranks : list Z)
    (first last : Z) (ranks : list Z) : outcome (Z * Z * list Z) :=
  match n with
  | O => Done (first, last, ranks)
  | S n' =>
      match zat c_ranks i with
      | None => Bail (Some wild_pointer)
      | Some r =>
          let rank := CInt.wrap 32 r in
          let ranks' := zset ranks i rank in
          if rank >? 0 then
            init_ranks_loop n' (i + 1) c_ranks
              (if first <? 0 then i else first) i ranks'
          else init_ranks_loop n' (i + 1) c_ranks first last ranks'
      end
  end.

(** [init_ranks]. *)
Definition init_ranks (st : Complex) (c_ranks : list Z)
  : outcome (Complex * Z) :=
  r <- init_ranks_loop (Z.to_nat (cplx_size st)) 0 c_ranks (-1) (-1)
                       (cplx_group_ranks st) ;;
  let '(first, last, ranks) := r in
  let st' := mkComplex (cplx_size st) first last (cplx_matrices st)
                       ranks ranks (pari_matrices st) (num_entries_gen st)
                       (ERR_MESSAGE st) in
  Done (st', if first <? 0 then -1 else 0).

(** One entry of the packed format: row, column and value. *)
Definition unpack (word : Z) : Z * Z * Uval :=
  let is_val_neg := word <? 0 in
  let tmp_val := CInt.abs 64 word in
  let is_odd_var := negb (Z.land tmp_val (Z.shiftl 1 31) =? 0) in
  let row := CInt.wrap 32 (Z.shiftr tmp_val 32) in
  let column := CInt.wrap 32 (Z.land tmp_val (Z.shiftl 1 31 - 1)) in
  let unit := if is_val_neg then -1 else 1 in
  (row, column, if is_odd_var then (0, unit) else (unit, 0)).

(** The loop of [assign_matrix]. *)
Fixpoint assign_loop (n : nat) (words : list Z) (matr : SparseMatrix)
  : outcome SparseMatrix :=
  match n with
  | O => Done matr
  | S n' =>
      match words with
      | [] => Bail (Some wild_pointer)
      | word :: rest =>
          let '(row, column, value) := unpack word in
          let '(matr', rc, msg) := add_m_entry matr row column value in
          if rc =? -1 then Bail msg else assign_loop n' rest matr'
      end
  end.

(** [assign_matrix]; a list of the wrong type bails out with whatever
    [ERR_MESSAGE] holds. *)
Definition assign_matrix (err : option string) (matr : SparseMatrix)
    (entries_list : GEN) (list_len : Z) : outcome SparseMatrix :=
  match entries_list with
  | t_VECSMALL words => assign_loop (Z.to_nat list_len) words matr
  | _ => Bail err
  end.

(** [init_diff_matrix]. *)
Definition init_diff_matrix (st : Complex) (matrix : Z) : outcome Complex :=
  if (matrix <? first_group st) || (matrix >=? last_group st) then Done st
  else
    match zat (cplx_group_ranks st) (matrix + 1),
          zat (cplx_group_ranks st) matrix with
    | Some n_rows, Some n_cols =>
        match init_s_matrix n_rows n_cols with
        | (Some matr, _, _) =>
            match zat (pari_matrices st) matrix,
                  zat (num_entries_gen st) matrix with
            | Some entries_list, Some list_len =>
                matr' <- assign_matrix (ERR_MESSAGE st) matr entries_list
                                       list_len ;;
                Done (with_matrices st
                        (zset (cplx_matrices st) matrix matr'))
            | _, _ => Bail (Some wild_pointer)
            end
        | (None, _, msg) => Bail msg
        end
    | _, _ => Bail (Some wild_pointer)
    end.

(** [kill_gen]. *)
Definition kill_gen (st : Complex) (group gen_num : Z) : outcome Complex :=
  st1 <-
    (if group >? first_group st then
       match zat (cplx_matrices st) (group - 1) with
       | None => Bail (Some wild_pointer)
       | Some matr =>
           let '(matr', rc, msg) := erase_m_row matr gen_num 1 in
           if rc =? -1 then Bail msg
           else Done (with_matrices st
                        (zset (cplx_matrices st) (group - 1) matr'))
       end
     else Done st) ;;
  st2 <-
    (if group <? last_group st1 then
       match zat (cplx_matrices st1) group with
       | None => Bail (Some wild_pointer)
       | Some matr =>
           let '(matr', rc, msg) := erase_m_column matr gen_num 1 in
           if rc =? -1 then Bail msg
           else Done (with_matrices st1
                        (zset (cplx_matrices st1) group matr'))
       end
     else Done st1) ;;
  match zat (num_generators st2) group with
  | None => Bail (Some wild_pointer)
  | Some n =>
      Done (with_generators st2 (zset (num_generators st2) group (n - 1)))
  end.

(** The [while (cur_entry != NULL)] loop of [eliminate_gens].  [l] is
    the list from [cur_entry].  The call of [add_m_cols] changes, in the
    row being walked, the node of [cur_entry] only (it rewrites or
    unlinks the entry of the column it is given), and [next_entry] is
    read before the call: on a consistent matrix the loop sees the
    entries the row had when the loop started. *)
Fixpoint sweep (l : list SparseEntry) (matr : SparseMatrix) (inc_gen : Z)
    (gen_coeff : Uval) : outcome SparseMatrix :=
  match l with
  | [] => Done matr
  | cur_entry :: next_entry =>
      let add_coeff := mult_Uvals (value cur_entry) gen_coeff in
      if negb (index cur_entry =? inc_gen) then
        let '(matr', rc, msg) :=
          add_m_cols matr (index cur_entry) inc_gen add_coeff in
        if rc =? -1 then Bail msg
        else sweep next_entry matr' inc_gen gen_coeff
      else sweep next_entry matr inc_gen gen_coeff
  end.

(** The counter of row [gen] of the matrix number [matrix]:
    [inum_vectors->num_entries]. *)
Definition inum_entries (st : Complex) (matrix gen : Z) : option Z :=
  match zat (cplx_matrices st) matrix with
  | Some matr => option_map (@Core.num_entries Uval) (vec_at (rows matr) gen)
  | None => None
  end.

(** The body of the [for] loop of [eliminate_gens] once an invertible
    entry [inc_gen], of value [coeff], is found in the row [vec]. *)
Definition eliminate_gen (st : Complex) (group gen : Z)
    (matr : SparseMatrix) (vec : SparseVector) (inc_gen : Z) (coeff : Uval)
  : outcome Complex :=
  let gen_coeff := (CInt.neg value_bits (fst coeff),
                    CInt.neg value_bits (snd coeff)) in
  matr' <- sweep (entries vec) matr inc_gen gen_coeff ;;
  let st1 := with_matrices st (zset (cplx_matrices st) (group - 1) matr') in
  match inum_entries st1 (group - 1) gen with
  | None => Bail (Some wild_pointer)
  | Some n1 =>
      if negb (n1 =? 1) then Bail (Some gen_error)
      else
        st2 <- kill_gen st1 (group - 1) inc_gen ;;
        match inum_entries st2 (group - 1) gen with
        | None => Bail (Some wild_pointer)
        | Some n2 =>
            if negb (n2 =? 0) then Bail (Some gen_error)
            else kill_gen st2 group gen
        end
  end.

(** The [for (gen = 1; gen <= cplx_group_ranks[group]; ...)] loop. *)
Fixpoint gens_loop (n : nat) (gen : Z) (st : Complex) (group do_short : Z)
    (isfound : Z) : outcome (Complex * Z) :=
  match n with
  | O => Done (st, isfound)
  | S n' =>
      match zat (cplx_matrices st) (group - 1) with
      | None => Bail (Some wild_pointer)
      | Some matr =>
          match vec_at (rows matr) gen with
          | None => Bail (Some wild_pointer)
          | Some vec =>
              if Core.num_entries vec =? -1 then
                gens_loop n' (gen + 1) st group do_short isfound
              else if negb (do_short =? 0) && (Core.num_entries vec >? 2) then
                gens_loop n' (gen + 1) st group do_short isfound
              else
                match find_v_unit vec with
                | (inc_gen, Some coeff, _) =>
                    if inc_gen =? 0 then
                      gens_loop n' (gen + 1) st group do_short isfound
                    else
                      st' <- eliminate_gen st group gen matr vec inc_gen
                                           coeff ;;
                      gens_loop n' (gen + 1) st' group do_short 1
                | (inc_gen, None, _) =>
                    if inc_gen =? 0 then
                      gens_loop n' (gen + 1) st group do_short isfound
                    else Bail (Some wild_pointer)
                end
          end
      end
  end.

(** The test [cplx_matrices[k].rows == 0] followed by
    [init_diff_matrix(k)]. *)
Definition ensure_matrix (st : Complex) (matrix : Z) : outcome Complex :=
  match zat (cplx_matrices st) matrix with
  | None => Bail (Some wild_pointer)
  | Some matr =>
      if rows_null matr then init_diff_matrix st matrix else Done st
  end.

(** [eliminate_gens]. *)
Definition eliminate_gens (st : Complex) (group do_short : Z)
  : outcome (Complex * Z) :=
  st1 <- (if group >? first_group st + 1 then ensure_matrix st (group - 2)
          else Done st) ;;
  st2 <- (if group >? first_group st1 then ensure_matrix st1 (group - 1)
          else Done st1) ;;
  st3 <- (if group <? last_group st2 then ensure_matrix st2 group
          else Done st2) ;;
  match zat (cplx_group_ranks st3) group with
  | None => Bail (Some wild_pointer)
  | Some rank => gens_loop (Z.to_nat rank) 1 st3 group do_short 0
  end.

(** [while (eliminate_gens(group, do_short)) cnt++;] *)
Fixpoint eliminate_while (fuel : nat) (st : Complex) (group do_short : Z)
  : outcome Complex :=
  match fuel with
  | O => Fuel
  | S fuel' =>
      r <- eliminate_gens st group do_short ;;
      let '(st', isfound) := r in
      if isfound =? 0 then Done st'
      else eliminate_while fuel' st' group do_short
  end.

(** The [for (group = first_group + 1; group <= last_group; group++)]
    loop of [reduce_s_complex_U]. *)
Fixpoint groups_loop (n : nat) (group : Z) (fuel : nat) (st : Complex)
  : outcome Complex :=
  match n with
  | O => Done st
  | S n' =>
      st1 <- eliminate_while fuel st group 1 ;;
      st2 <- eliminate_while fuel st1 group 0 ;;
      groups_loop n' (group + 1) fuel st2
  end.

(** [while (vecs[i - 1].num_entries == -1 && i <= n) i++;] with [vs] the
    array from [vecs + i - 1] to its end. *)
Fixpoint skip_deleted (vs : list SparseVector) (i : Z) : Z :=
  match vs with
  | [] => i
  | v :: t => if Core.num_entries v =? -1 then skip_deleted t (i + 1) else i
  end.

Definition next_live (vecs : list SparseVector) (i : Z) : Z :=
  skip_deleted (skipn (Z.to_nat (i - 1)) vecs) i.

Definition matr_error : string := "matr2pari: matrix is corrupt"%string.

(** The inner loop of [matr2pari]: one column of the two results. *)
Fixpoint matr2pari_rows (n : nat) (row col : Z) (matr : SparseMatrix)
  : outcome (list GEN * list GEN * SparseMatrix) :=
  match n with
  | O => Done ([], [], matr)
  | S n' =>
      let row := next_live (rows matr) row in
      if row >? num_rows matr then Bail (Some matr_error)
      else
        match remove_m_entry matr row col with
        | (matr', rc, Some val, msg) =>
            if rc =? -1 then Bail msg
            else
              r <- matr2pari_rows n' (row + 1) col matr' ;;
              let '(c0, c1, matr'') := r in
              Done (stoi (fst val) :: c0, stoi (snd val) :: c1, matr'')
        | (_, _, None, msg) => Bail msg
        end
  end.

(** The outer loop of [matr2pari]. *)
Fixpoint matr2pari_cols (n : nat) (col n_rows : Z) (matr : SparseMatrix)
  : outcome (list GEN * list GEN * SparseMatrix) :=
  match n with
  | O => Done ([], [], matr)
  | S n' =>
      let col := next_live (columns matr) col in
      if col >? num_cols matr then Bail (Some matr_error)
      else
        r <- matr2pari_rows (Z.to_nat n_rows) 1 col matr ;;
        let '(c0, c1, matr') := r in
        r' <- matr2pari_cols n' (col + 1) n_rows matr' ;;
        let '(m0, m1, matr'') := r' in
        Done (t_COL c0 :: m0, t_COL c1 :: m1, matr'')
  end.

(** [matr2pari]. *)
Definition matr2pari (st : Complex) (group : Z)
  : outcome (GEN * GEN * Complex) :=
  match zat (cplx_matrices st) group,
        zat (num_generators st) (group + 1),
        zat (num_generators st) group with
  | Some matr, Some n_rows, Some n_cols =>
      r <- matr2pari_cols (Z.to_nat n_cols) 1 n_rows matr ;;
      let '(m0, m1, matr') := r in
      Done (t_MAT m0, t_MAT m1,
            with_matrices st (zset (cplx_matrices st) group matr'))
  | _, _, _ => Bail (Some wild_pointer)
  end.

(** The [for (group = first_group; group <= last_group; group++)] loop
    of [feed2pari]. *)
Fixpoint feed_loop (n : nat) (group : Z) (st : Complex)
    (numgen_vec mats0 mats1 : list GEN)
  : outcome (list GEN * list GEN * list GEN) :=
  match n with
  | O => Done (numgen_vec, mats0, mats1)
  | S n' =>
      match zat (num_generators st) group with
      | None => Bail (Some wild_pointer)
      | Some g =>
          if g =? 0 then
            feed_loop n' (group + 1) st numgen_vec mats0 mats1
          else
            let numgen_vec' := zset numgen_vec group (stoi g) in
            if group =? last_group st then
              feed_loop n' (group + 1) st numgen_vec' mats0 mats1
            else
              match zat (num_generators st) (group + 1) with
              | None => Bail (Some wild_pointer)
              | Some g' =>
                  if g' =? 0 then
                    feed_loop n' (group + 1) st numgen_vec' mats0 mats1
                  else
                    r <- matr2pari st group ;;
                    let '(m0, m1, st') := r in
                    feed_loop n' (group + 1) st' numgen_vec'
                              (zset mats0 group m0) (zset mats1 group m1)
              end
      end
  end.

(** [feed2pari]. *)
Definition feed2pari (st : Complex) : outcome GEN :=
  let numgen_vec := repeat gen_0 (Z.to_nat (cplx_size st)) in
  let mats := repeat gen_0 (Z.to_nat (cplx_size st - 1)) in
  if first_group st <? 0 then
    Done (t_VEC [t_VEC numgen_vec; t_VEC mats; t_VEC mats])
  else
    r <- feed_loop (Z.to_nat (last_group st - first_group st + 1))
                   (first_group st) st numgen_vec mats mats ;;
    let '(nv, m0, m1) := r in
    Done (t_VEC [t_VEC nv; t_VEC m0; t_VEC m1]).

(** [reduce_s_complex_U]; [fuel] bounds the number of passes of each
    [while] loop. *)
Definition reduce_s_complex_U (fuel : nat) (c_size : Z) (c_ranks : list Z)
    (d_matrices : list GEN) (matr_lengths : list Z) : outcome GEN :=
  st0 <- malloc_arrays c_size ;;
  let st := mkComplex (cplx_size st0) (first_group st0) (last_group st0)
              (cplx_matrices st0) (cplx_group_ranks st0)
              (num_generators st0) d_matrices matr_lengths
              (ERR_MESSAGE st0) in
  r <- init_ranks st c_ranks ;;
  let '(st1, rc) := r in
  if rc =? -1 then feed2pari st1
  else
    st2 <- groups_loop (Z.to_nat (last_group st1 - first_group st1))
                       (first_group st1 + 1) fuel st1 ;;
    feed2pari st2.

(** *** Arrays *)

Lemma set_nth_length_any {A : Type} n (a : A) l :
  length (set_nth n a l) = length l.
Proof. revert n. induction l as [|h t IH]; intros [|n]; simpl; auto. Qed.

Lemma zat_zset_same {A : Type} (l : list A) i a a0 :
  zat l i = Some a0 -> zat (zset l i a) i = Some a.
Proof.
  unfold zat, zset. destruct (i <? 0); [discriminate|].
  generalize (Z.to_nat i). clear i.
  induction l as [|h t IH]; intros [|n]; simpl; try discriminate; auto.
Qed.

Lemma zat_zset_other {A : Type} (l : list A) i j a :
  i <> j -> zat (zset l i a) j = zat l j.
Proof.
  intros Hij. unfold zat, zset.
  destruct (Z.ltb_spec j 0); [reflexivity|].
  destruct (Z.ltb_spec i 0); [reflexivity|].
  assert (Hn : Z.to_nat i <> Z.to_nat j) by lia.
  revert Hn. generalize (Z.to_nat i), (Z.to_nat j). clear.
  induction l as [|h t IH]; intros [|n] [|k] Hn; simpl; auto.
  contradiction.
Qed.

(** *** Messages of the library

    None of the messages set by [sparmat-U.c] is the one of the two
    checks of [eliminate_gens]. *)

Definition library_message (msg : option string) : Prop :=
  msg <> Some gen_error.

Ltac lib_msg :=
  unfold library_message, gen_error, wild_pointer; congruence.







Lemma remove_m_entry_message (m m' : SparseMatrix) row col rc val msg :
  remove_m_entry m row col = (m', rc, val, msg) -> library_message msg.
Proof.
  unfold remove_m_entry, check_m_indices, Core.check_m_indices. intros Hrun.
  destruct (_ || _); [inversion Hrun; lib_msg|].
  destruct (vec_at (rows m) row) as [rv|]; [|inversion Hrun; lib_msg].
  destruct (vec_at (columns m) col) as [cv|]; [|inversion Hrun; lib_msg].
  unfold remove_v_entry in Hrun.
  destruct (Core.num_entries rv =? -1);
    [simpl in Hrun; inversion Hrun; lib_msg|].
  destruct (remove_found rv col) as [[vr|] rv']; cbn [Z.eqb] in Hrun;
    cbv iota in Hrun;
    (destruct (Core.num_entries cv =? -1);
       [simpl in Hrun; inversion Hrun; lib_msg|]);
    destruct (remove_found cv row) as [[vc|] cv']; cbn [Z.eqb] in Hrun;
    cbv iota in Hrun; destruct (negb _); inversion Hrun; lib_msg.
Qed.

Lemma add_m_entry_message (m m' : SparseMatrix) row col val rc msg :
  add_m_entry m row col val = (m', rc, msg) -> library_message msg.
Proof.
  unfold SparMatU.add_m_entry, check_m_indices, Core.check_m_indices.
  intros Hrun.
  destruct (_ || _); [inversion Hrun; lib_msg|].
  destruct (_ >? ENTRY_MAX); [inversion Hrun; lib_msg|].
  destruct (is_Uval_zero val).
  - destruct (remove_m_entry m row col) as [[[m1 r1] v1] e1] eqn:Hrm.
    apply remove_m_entry_message in Hrm.
    destruct (r1 =? -1); inversion Hrun; subst; exact Hrm.
  - destruct (vec_at (rows m) row) as [rv|]; [|inversion Hrun; lib_msg].
    destruct (vec_at (columns m) col) as [cv|]; [|inversion Hrun; lib_msg].
    unfold add_v_entry, Core.add_v_entry in Hrun.
    destruct (Core.num_entries rv =? -1);
      [simpl in Hrun; inversion Hrun; lib_msg|].
    cbn [Z.eqb] in Hrun. cbv iota in Hrun.
    destruct (Core.num_entries cv =? -1); inversion Hrun; lib_msg.
Qed.

(** *** The sweep of a row

    [p] is the invertible entry found in the row [gen], in the column
    [inc_gen]; [l] is what is left of the row to walk. *)









(** *** [kill_gen] *)

(** What a call of [kill_gen] that returns has done to the matrices. *)
Lemma kill_gen_run (st st' : Complex) group gen_num :
  kill_gen st group gen_num = Done st' ->
  first_group st' = first_group st /\ last_group st' = last_group st /\
  cplx_group_ranks st' = cplx_group_ranks st /\
  ERR_MESSAGE st' = ERR_MESSAGE st /\
  (forall k, k <> group - 1 -> k <> group ->
             zat (cplx_matrices st') k = zat (cplx_matrices st) k) /\
  (if group >? first_group st then
     exists m m' rc msg,
       zat (cplx_matrices st) (group - 1) = Some m /\
       erase_m_row m gen_num 1 = (m', rc, msg) /\ rc <> -1 /\
       zat (cplx_matrices st') (group - 1) = Some m'
   else zat (cplx_matrices st') (group - 1) =
        zat (cplx_matrices st) (group - 1)) /\
  (if group <? last_group st then
     exists m m' rc msg,
       zat (cplx_matrices st) group = Some m /\
       erase_m_column m gen_num 1 = (m', rc, msg) /\ rc <> -1 /\
       zat (cplx_matrices st') group = Some m'
   else zat (cplx_matrices st') group = zat (cplx_matrices st) group).
Proof.
  unfold kill_gen. intros Hrun.
  set (ms := cplx_matrices st) in *.
  assert (Hstep1 : exists ms1,
    (if group >? first_group st then
       match zat ms (group - 1) with
       | None => Bail (Some wild_pointer)
       | Some matr =>
           let '(matr', rc, msg) := erase_m_row matr gen_num 1 in
           if rc =? -1 then Bail msg
           else Done (with_matrices st (zset ms (group - 1) matr'))
       end
     else Done st) = Done (with_matrices st ms1) /\
    (forall k, k <> group - 1 -> zat ms1 k = zat ms k) /\
    (if group >? first_group st then
       exists m m' rc msg,
         zat ms (group - 1) = Some m /\
         erase_m_row m gen_num 1 = (m', rc, msg) /\ rc <> -1 /\
         zat ms1 (group - 1) = Some m'
     else zat ms1 (group - 1) = zat ms (group - 1))).
  { destruct (group >? first_group st).
    - destruct (zat ms (group - 1)) as [m|] eqn:Hm; [|discriminate].
      destruct (erase_m_row m gen_num 1) as [[m' rc] msg] eqn:Her.
      destruct (Z.eqb_spec rc (-1)) as [Hrc|Hrc]; [discriminate|].
      exists (zset ms (group - 1) m'). split; [reflexivity|]. split.
      + intros k Hk. apply zat_zset_other. lia.
      + exists m, m', rc, msg. split; [reflexivity|].
        split; [exact Her|]. split; [exact Hrc|].
        apply (zat_zset_same _ _ _ _ Hm).
    - exists ms. split; [destruct st; reflexivity|]. auto. }
  destruct Hstep1 as (ms1 & E1 & Hother1 & Hrow).
  rewrite E1 in Hrun. cbn [bind] in Hrun.
  set (st1 := with_matrices st ms1) in *.
  change (last_group st1) with (last_group st) in Hrun.
  change (cplx_matrices st1) with ms1 in Hrun.
  assert (Hstep2 : exists ms2,
    (if group <? last_group st then
       match zat ms1 group with
       | None => Bail (Some wild_pointer)
       | Some matr =>
           let '(matr', rc, msg) := erase_m_column matr gen_num 1 in
           if rc =? -1 then Bail msg
           else Done (with_matrices st1 (zset ms1 group matr'))
       end
     else Done st1) = Done (with_matrices st ms2) /\
    (forall k, k <> group -> zat ms2 k = zat ms1 k) /\
    (if group <? last_group st then
       exists m m' rc msg,
         zat ms1 group = Some m /\
         erase_m_column m gen_num 1 = (m', rc, msg) /\ rc <> -1 /\
         zat ms2 group = Some m'
     else zat ms2 group = zat ms1 group)).
  { destruct (group <? last_group st).
    - destruct (zat ms1 group) as [m|] eqn:Hm; [|discriminate].
      destruct (erase_m_column m gen_num 1) as [[m' rc] msg] eqn:Her.
      destruct (Z.eqb_spec rc (-1)) as [Hrc|Hrc]; [discriminate|].
      exists (zset ms1 group m'). split; [reflexivity|]. split.
      + intros k Hk. apply zat_zset_other. lia.
      + exists m, m', rc, msg. split; [reflexivity|].
        split; [exact Her|]. split; [exact Hrc|].
        apply (zat_zset_same _ _ _ _ Hm).
    - exists ms1. split; [reflexivity|]. auto. }
  destruct Hstep2 as (ms2 & E2 & Hother2 & Hcol).
  rewrite E2 in Hrun. cbn [bind] in Hrun.
  destruct (zat (num_generators (with_matrices st ms2)) group) as [n|];
    [|discriminate].
  injection Hrun as <-. cbn.
  split; [reflexivity|]. split; [reflexivity|]. split; [reflexivity|].
  split; [reflexivity|]. split; [|split].
  - intros k Hk1 Hk2. rewrite Hother2, Hother1 by assumption. reflexivity.
  - rewrite (Hother2 (group - 1)) by lia. exact Hrow.
  - rewrite <- (Hother1 group) by lia. exact Hcol.
Qed.


(** *** The two checks of [eliminate_gens] *)




(** *** Reading a matrix in *)

Lemma assign_loop_wf n : forall words (matr matr' : SparseMatrix),
  SparMatU.wf matr -> assign_loop n words matr = Done matr' ->
  SparMatU.wf matr'.
Proof.
  induction n as [|n IH]; intros words matr matr' Hwf; cbn [assign_loop].
  - intros [= <-]. exact Hwf.
  - destruct words as [|word rest]; [discriminate|].
    destruct (unpack word) as [[row column] val].
    destruct (add_m_entry matr row column val) as [[m1 rc] msg] eqn:Hadd.
    destruct (Z.eqb_spec rc (-1)) as [Hrc|Hrc]; [discriminate|].
    apply IH. exact (add_m_entry_wf_U _ _ _ _ _ _ _ _ _ Hwf Hadd Hrc).
Qed.

Lemma assign_loop_message n : forall words (matr : SparseMatrix) msg,
  assign_loop n words matr = Bail msg -> library_message msg.
Proof.
  induction n as [|n IH]; intros words matr msg; cbn [assign_loop];
    [discriminate|].
  destruct words as [|word rest]; [intros [= <-]; lib_msg|].
  destruct (unpack word) as [[row column] val].
  destruct (add_m_entry matr row column val) as [[m1 rc] e] eqn:Hadd.
  destruct (rc =? -1); [|apply IH].
  intros [= <-]. eapply add_m_entry_message, Hadd.
Qed.

Lemma init_diff_matrix_run (st st' : Complex) matrix :
  init_diff_matrix st matrix = Done st' ->
  last_group st' = last_group st /\ first_group st' = first_group st /\
  cplx_group_ranks st' = cplx_group_ranks st /\
  ERR_MESSAGE st' = ERR_MESSAGE st /\
  (forall j, j <> matrix ->
             zat (cplx_matrices st') j = zat (cplx_matrices st) j) /\
  (st' = st \/
   exists m, cplx_matrices st' = zset (cplx_matrices st) matrix m /\
             SparMatU.wf m) /\
  (first_group st <= matrix < last_group st ->
   exists m, cplx_matrices st' = zset (cplx_matrices st) matrix m /\
             SparMatU.wf m).
Proof.
  unfold init_diff_matrix.
  destruct (Z.ltb_spec matrix (first_group st)).
  { cbn. intros [= <-]. repeat split; auto. lia. }
  destruct (Z.geb_spec matrix (last_group st)).
  { cbn. intros [= <-]. repeat split; auto. lia. }
  cbn [orb].
  destruct (zat (cplx_group_ranks st) (matrix + 1)) as [n_rows|];
    [|discriminate].
  destruct (zat (cplx_group_ranks st) matrix) as [n_cols|]; [|discriminate].
  destruct (init_s_matrix n_rows n_cols) as [[[m0|] rc] msg] eqn:Hinit;
    [|discriminate].
  apply (init_s_matrix_wf Uval is_Uval_zero) in Hinit.
  destruct (zat (pari_matrices st) matrix) as [el|]; [|discriminate].
  destruct (zat (num_entries_gen st) matrix) as [len|]; [|discriminate].
  destruct (assign_matrix (ERR_MESSAGE st) m0 el len) as [m1|e|] eqn:Has;
    cbn [bind]; try discriminate.
  intros [= <-]. cbn.
  assert (Hwf1 : SparMatU.wf m1).
  { unfold assign_matrix in Has. destruct el; try discriminate.
    exact (assign_loop_wf _ _ _ _ Hinit Has). }
  split; [reflexivity|]. split; [reflexivity|]. split; [reflexivity|].
  split; [reflexivity|]. split; [|split].
  - intros j Hj. apply zat_zset_other. lia.
  - right. exists m1. auto.
  - intros _. exists m1. auto.
Qed.

Lemma init_diff_matrix_message (st : Complex) matrix msg :
  ERR_MESSAGE st <> Some gen_error ->
  init_diff_matrix st matrix = Bail msg -> library_message msg.
Proof.
  intros Herr. unfold init_diff_matrix.
  destruct (_ || _); [discriminate|].
  destruct (zat (cplx_group_ranks st) (matrix + 1)) as [n_rows|];
    [|intros [= <-]; lib_msg].
  destruct (zat (cplx_group_ranks st) matrix) as [n_cols|];
    [|intros [= <-]; lib_msg].
  unfold init_s_matrix, Core.init_s_matrix.
  destruct (_ || _); [intros [= <-]; lib_msg|].
  destruct (zat (pari_matrices st) matrix) as [el|];
    [|intros [= <-]; lib_msg].
  destruct (zat (num_entries_gen st) matrix) as [len|];
    [|intros [= <-]; lib_msg].
  destruct (assign_matrix (ERR_MESSAGE st) _ el len) as [m1|e|] eqn:Has;
    cbn [bind]; try discriminate.
  intros [= <-]. unfold assign_matrix in Has.
  destruct el; try (injection Has as <-; exact Herr).
  eapply assign_loop_message, Has.
Qed.

Lemma ensure_matrix_run (st st' : Complex) matrix :
  ensure_matrix st matrix = Done st' ->
  last_group st' = last_group st /\ first_group st' = first_group st /\
  cplx_group_ranks st' = cplx_group_ranks st /\
  ERR_MESSAGE st' = ERR_MESSAGE st /\
  (forall j, j <> matrix ->
             zat (cplx_matrices st') j = zat (cplx_matrices st) j) /\
  exists m0, zat (cplx_matrices st) matrix = Some m0 /\
    ((rows_null m0 = false /\ st' = st) \/
     (rows_null m0 = true /\
      (st' = st \/
       exists m, zat (cplx_matrices st') matrix = Some m /\ SparMatU.wf m) /\
      (first_group st <= matrix < last_group st ->
       exists m, zat (cplx_matrices st') matrix = Some m /\
                 SparMatU.wf m))).
Proof.
  unfold ensure_matrix.
  destruct (zat (cplx_matrices st) matrix) as [m0|] eqn:Hm0; [|discriminate].
  destruct (rows_null m0) eqn:Hnull.
  - intros Hrun.
    destruct (init_diff_matrix_run _ _ _ Hrun)
      as (Hl & Hf & Hr & He & Hoth & Hany & Hin).
    repeat (split; [assumption|]).
    exists m0. split; [reflexivity|]. right. split; [exact Hnull|]. split.
    + destruct Hany as [->|(m & Hm & Hwf)]; [left; reflexivity|].
      right. exists m. split; [|exact Hwf].
      rewrite Hm. apply (zat_zset_same _ _ _ _ Hm0).
    + intros Hrange. destruct (Hin Hrange) as (m & Hm & Hwf).
      exists m. split; [|exact Hwf].
      rewrite Hm. apply (zat_zset_same _ _ _ _ Hm0).
  - intros [= <-]. do 5 (split; [reflexivity|]).
    exists m0. split; [reflexivity|].
    left. split; [exact Hnull | reflexivity].
Qed.

Lemma ensure_matrix_message (st : Complex) matrix msg :
  ERR_MESSAGE st <> Some gen_error ->
  ensure_matrix st matrix = Bail msg -> library_message msg.
Proof.
  intros Herr. unfold ensure_matrix.
  destruct (zat (cplx_matrices st) matrix) as [m0|];
    [|intros [= <-]; lib_msg].
  destruct (rows_null m0); [|discriminate].
  apply init_diff_matrix_message, Herr.
Qed.

(** *** A complex with nothing left to eliminate *)











(** *** A complex of groups of rank 0 *)

Lemma init_ranks_loop_zero (c_ranks : list Z) :
  forall n i ranks,
  (forall j, i <= j < i + Z.of_nat n -> zat c_ranks j = Some 0) ->
  exists ranks',
    init_ranks_loop n i c_ranks (-1) (-1) ranks = Done (-1, -1, ranks').
Proof.
  induction n as [|n IH]; intros i ranks Hz; [eexists; reflexivity|].
  cbn [init_ranks_loop]. rewrite (Hz i) by lia.
  change (CInt.wrap 32 0 >? 0) with false. cbv iota.
  apply IH. intros j Hj. apply Hz. lia.
Qed.

Lemma reduce_empty_complex (fuel : nat) (c_size : Z) (c_ranks : list Z)
    (d_matrices : list GEN) (matr_lengths : list Z) :
  1 <= c_size <= 2147483647 ->
  (forall j, 0 <= j < c_size -> zat c_ranks j = Some 0) ->
  reduce_s_complex_U fuel c_size c_ranks d_matrices matr_lengths =
  Done (t_VEC [t_VEC (repeat gen_0 (Z.to_nat c_size));
               t_VEC (repeat gen_0 (Z.to_nat (c_size - 1)));
               t_VEC (repeat gen_0 (Z.to_nat (c_size - 1)))]).
Proof.
  intros Hsize Hranks. unfold reduce_s_complex_U, malloc_arrays.
  assert (Hw : CInt.wrap 32 c_size = c_size).
  { apply CInt.wrap_small. unfold CInt.in_range, CInt.min_int, CInt.max_int.
    change (2 ^ (Z.pos 32 - 1)) with 2147483648. lia. }
  rewrite Hw. destruct (Z.ltb_spec (c_size - 1) 0); [lia|].
  cbn [bind cplx_size first_group last_group cplx_matrices cplx_group_ranks
       num_generators ERR_MESSAGE].
  unfold init_ranks. cbn [cplx_size cplx_group_ranks].
  destruct (init_ranks_loop_zero c_ranks (Z.to_nat c_size) 0
              (repeat 0 (Z.to_nat c_size))) as (ranks' & E).
  { intros j Hj. apply Hranks. lia. }
  rewrite E. cbn [bind]. cbn -[repeat Z.to_nat Z.sub]. reflexivity.
Qed.

End Parameters.

End SparReduce.

(* ------------------------------------------------------------------ *)
(** ** Properties of [sparmat.c] *)

Import Core.

Lemma run_all_app (cs1 cs2 : list SparMat.mutation) :
  forall m,
  SparMat.run_all (cs1 ++ cs2) m =
  match SparMat.run_all cs1 m with
  | Some m1 => SparMat.run_all cs2 m1
  | None => None
  end.
Proof.
  induction cs1 as [|c t IH]; intros m; simpl; [reflexivity|].
  destruct (SparMat.run c m) as [[m1 ret] msg].
  destruct (SparMat.succeededb c ret); [apply IH | reflexivity].
Qed.

(** A row or column erased with [do_del] set at some point of a history
    of successful calls is still deleted at its end. *)
Lemma erased_in_history (cs : list SparMat.mutation) c (m0 m : SparMat.SparseMatrix) :
  SparMat.wf m0 -> In c cs -> SparMat.run_all cs m0 = Some m ->
  SparMat.wf m /\
  num_rows m = num_rows m0 /\ num_cols m = num_cols m0 /\
  match c with
  | SparMat.EraseRow r d => d <> 0 -> SparMat.deleted_row m r
  | SparMat.EraseColumn k d => d <> 0 -> SparMat.deleted_column m k
  | _ => True
  end.
Proof.
  intros Hwf Hin Hrun.
  destruct (in_split _ _ Hin) as (before & after & ->).
  rewrite run_all_app in Hrun.
  destruct (SparMat.run_all before m0) as [m1|] eqn:Hb; [|discriminate].
  destruct (SparMat.run_all_wf _ _ _ Hwf Hb) as (Hwf1 & Hr1 & Hc1 & _ & _).
  simpl in Hrun.
  destruct (SparMat.run c m1) as [[m2 ret] msg] eqn:Hc.
  destruct (SparMat.succeededb c ret) eqn:Hok; [|discriminate].
  apply SparMat.succeededb_spec in Hok.
  pose proof (SparMat.run_wf _ _ _ _ _ Hwf1 Hc Hok) as Hwf2.
  destruct (SparMat.run_dims _ _ _ _ _ (wf_msound _ _ _ Hwf1) Hc Hok)
    as [Hr2 Hc2].
  destruct (SparMat.run_all_wf _ _ _ Hwf2 Hrun) as (Hwf3 & Hr3 & Hc3 & Hdr & Hdc).
  split; [exact Hwf3|]. split; [congruence|]. split; [congruence|].
  destruct c; try exact I; intros Hd; simpl in Hc, Hok.
  - apply Hdr.
    exact (SparMat.erase_m_row_deletes _ _ _ _ _ _
             (wf_msound _ _ _ Hwf1) Hc Hok Hd).
  - apply Hdc.
    exact (SparMat.erase_m_column_deletes _ _ _ _ _ _
             (wf_msound _ _ _ Hwf1) Hc Hok Hd).
Qed.

(** C1: on a matrix whose rows and columns are sorted lists stored in
    arrays of the announced lengths and which is bilaterally consistent
    (row r has an entry (c, v) iff column c has the entry (r, v)), every
    successful call of [add_m_entry], [remove_m_entry], [erase_m_row],
    [erase_m_column], [add_m_rows] or [add_m_cols] yields a matrix that is
    bilaterally consistent again. *)
Theorem mutations_preserve_bilateral (c : SparMat.mutation)
    (m m' : SparMat.SparseMatrix) ret msg :
  shaped m -> all_ascending (rows m) -> all_ascending (columns m) ->
  SparMat.bilateral m ->
  SparMat.run c m = (m', ret, msg) -> SparMat.succeeded c ret ->
  SparMat.bilateral m'.
Proof.
  intros Hs Hr Hc Hb Hrun Hok.
  assert (Hm : SparMat.msound m).
  { split; [exact Hs|]. split; [exact Hr|]. split; [exact Hc|].
    apply SparMat.consistent_bilateral; assumption. }
  destruct (SparMat.run_sound _ _ _ _ _ Hm Hrun Hok) as (_ & Hr' & Hc' & Hk).
  apply SparMat.consistent_bilateral; assumption.
Qed.

Lemma mutations_preserve_bilateral_witness :
  SparMat.bilateral
    (fst (fst (SparMat.run (SparMat.AddRows 1 2 5) (SparMat.column_2x1 1)))).
Proof.
  assert (Hwf : SparMat.wf (SparMat.column_2x1 1))
    by (apply SparMat.column_2x1_wf; rewrite SparMat.ENTRY_MAX_val; lia).
  destruct (wf_msound _ _ _ Hwf) as (Hs & Hr & Hc & Hk).
  apply (mutations_preserve_bilateral (SparMat.AddRows 1 2 5)
           (SparMat.column_2x1 1) _ 5 None).
  - exact Hs.
  - exact Hr.
  - exact Hc.
  - apply SparMat.consistent_bilateral; assumption.
  - vm_compute. reflexivity.
  - simpl. lia.
Defined.

(** What [add_m_rows] ([line := rows]) and [add_m_cols]
    ([line := columns]) do with the vectors [i1] and [i2] of a matrix. *)
Definition scaled_add_spec
    (op : SparMat.SparseMatrix -> Z -> Z -> Z ->
          SparMat.SparseMatrix * Z * option string)
    (line : SparMat.SparseMatrix -> list SparMat.SparseVector)
    (m : SparMat.SparseMatrix) (i1 i2 s : Z) : Prop :=
  forall v1 v2,
    vec_at (line m) i1 = Some v1 -> vec_at (line m) i2 = Some v2 ->
    (num_entries v1 <> -1 -> num_entries v2 <> -1 ->
     (forall c, SparMat.has_entry v2 c ->
                Z.abs (SparMat.merged v1 v2 s c) <= SparMat.ENTRY_MAX) ->
     exists m' ret,
       op m i1 i2 s = (m', ret, None) /\ ret <> -1 /\ SparMat.wf m' /\
       ascending (ents (line m') i1) /\
       (forall c, find_entry c (ents (line m') i1) =
                  if SparMat.merged v1 v2 s c =? 0 then None
                  else Some (SparMat.merged v1 v2 s c)) /\
       (forall c, SparMat.has_entry v2 c ->
                  Z.abs (SparMat.merged v1 v2 s c) <= ret) /\
       (ret = 0 \/
        exists c, SparMat.has_entry v2 c /\
                  ret = Z.abs (SparMat.merged v1 v2 s c))) /\
    (num_entries v1 = -1 \/ num_entries v2 = -1 ->
     snd (fst (op m i1 i2 s)) = -1) /\
    (forall c, SparMat.has_entry v2 c ->
       SparMat.ENTRY_MAX < Z.abs (SparMat.merged v1 v2 s c)
         <= SparMat.INT_MAX ->
       snd (fst (op m i1 i2 s)) = -1).

Lemma colrows_spec (A B : list SparMat.SparseVector) i1 i2 v1 v2 s :
  fam_wf SparMat.is_zero A B ->
  vec_at A i1 = Some v1 -> vec_at A i2 = Some v2 ->
  (num_entries v1 <> -1 -> num_entries v2 <> -1 ->
   (forall c, SparMat.has_entry v2 c ->
              Z.abs (SparMat.merged v1 v2 s c) <= SparMat.ENTRY_MAX) ->
   exists v1' B' ret,
     add_m_colrows SparMat.vadd SparMat.vmul SparMat.is_zero SparMat.ABSFUNC
       SparMat.ENTRY_MAX v1 i1 v2 B s = (v1', B', ret, None) /\
     ret <> -1 /\
     fam_wf SparMat.is_zero (set_vec A i1 v1') B' /\
     length B' = length B /\
     ascending (entries v1') /\
     (forall c, find_entry c (entries v1') =
                if SparMat.merged v1 v2 s c =? 0 then None
                else Some (SparMat.merged v1 v2 s c)) /\
     (forall c, SparMat.has_entry v2 c ->
                Z.abs (SparMat.merged v1 v2 s c) <= ret) /\
     (ret = 0 \/
      exists c, SparMat.has_entry v2 c /\
                ret = Z.abs (SparMat.merged v1 v2 s c))) /\
  (num_entries v1 = -1 \/ num_entries v2 = -1 ->
   snd (fst (add_m_colrows SparMat.vadd SparMat.vmul SparMat.is_zero
               SparMat.ABSFUNC SparMat.ENTRY_MAX v1 i1 v2 B s)) = -1) /\
  (forall c, SparMat.has_entry v2 c ->
     SparMat.ENTRY_MAX < Z.abs (SparMat.merged v1 v2 s c)
       <= SparMat.INT_MAX ->
     snd (fst (add_m_colrows SparMat.vadd SparMat.vmul SparMat.is_zero
                 SparMat.ABSFUNC SparMat.ENTRY_MAX v1 i1 v2 B s)) = -1).
Proof.
  intros Hf Hv1 Hv2. split; [|split].
  - intros Hl1 Hl2 Hb.
    destruct (SparMat.add_m_colrows_exact A B i1 i2 v1 v2 s Hf Hv1 Hv2
                Hl1 Hl2 Hb)
      as (v1' & B' & ret & E & Hf' & Hlen & Hfind & _ & Hmax & Hatt).
    exists v1', B', ret.
    split; [exact E|]. split; [destruct Hatt as [->|(c & _ & ->)]; lia|].
    split; [exact Hf'|]. split; [exact Hlen|].
    split; [|split; [exact Hfind|split; [exact Hmax | exact Hatt]]].
    destruct Hf' as (HA' & _ & _).
    pose proof (vec_wf_at _ _ _ _ _ _ HA'
                  (vec_at_set_vec_same _ _ _ v1' _ Hv1))
      as Hw.
    apply Hw.
  - intros Hd. rewrite (SparMat.add_m_colrows_deleted v1 v2 i1 B s Hd).
    reflexivity.
  - intros c Hc Hbig.
    destruct (add_m_colrows _ _ _ _ _ v1 i1 v2 B s) as [[[v1' B'] ret] msg]
      eqn:E.
    simpl.
    eapply (SparMat.add_m_colrows_too_big A B i1 i2 v1 v2 s v1' B' ret msg c);
      eauto.
    apply (fam_wf_sound _ _ _ _ Hf).
Qed.

(** X16: on a matrix that satisfies the invariants of the data model,
    for rows r1 and r2 in range that are not deleted and a scalar s, if
    every entry r1[c] + s * r2[c] computed at an index c of r2 is at most
    [ENTRY_MAX] in absolute value, [add_m_rows] succeeds, row r1 becomes
    the entrywise sum r1 + s * r2 without zero entries, its list stays
    strictly ascending, the matrix satisfies all invariants again (the
    columns match the rows), and the value returned is the largest
    absolute value among the entries computed; the call returns -1 if
    one of the rows is deleted, or if one of the computed entries has an
    absolute value above [ENTRY_MAX] that still fits an [int].
    [add_m_cols] is the same statement for columns. *)
Theorem scaled_addition (m : SparMat.SparseMatrix) (i1 i2 s : Z) :
  SparMat.wf m ->
  (1 <= i1 <= num_rows m -> 1 <= i2 <= num_rows m -> 1 <= num_cols m ->
   scaled_add_spec SparMat.add_m_rows (@rows Z) m i1 i2 s) /\
  (1 <= i1 <= num_cols m -> 1 <= i2 <= num_cols m -> 1 <= num_rows m ->
   scaled_add_spec SparMat.add_m_cols (@columns Z) m i1 i2 s).
Proof.
  intros [Hs Hf]. split; intros H1 H2 H3 v1 v2 Hv1 Hv2.
  - destruct (colrows_spec (rows m) (columns m) i1 i2 v1 v2 s Hf Hv1 Hv2)
      as (Ha & Hb & Hc).
    unfold SparMat.add_m_rows.
    rewrite (add_m_rows_eq _ _ _ _ _ _ m i1 i2 s v1 v2 H1 H2 H3 Hv1 Hv2).
    split; [|split].
    + intros Hl1 Hl2 Hbound.
      destruct (Ha Hl1 Hl2 Hbound)
        as (v1' & B' & ret & E & Hret & Hf' & Hlen & Hasc & Hfind & Hmax
            & Hatt).
      rewrite E. eexists. exists ret.
      split; [reflexivity|]. split; [exact Hret|].
      cbn [rows columns].
      rewrite (ents_set_vec_same _ _ _ v1' _ Hv1).
      split; [|split; [exact Hasc|split; [exact Hfind|split; assumption]]].
      split; [|exact Hf'].
      destruct Hs as [Hr Hc']. split; cbn [num_rows num_cols rows columns].
      * rewrite set_vec_length. exact Hr.
      * rewrite Hlen. exact Hc'.
    + intros Hd. specialize (Hb Hd).
      destruct (add_m_colrows _ _ _ _ _ v1 i1 v2 (columns m) s)
        as [[[a b] c] d]. exact Hb.
    + intros c Hc1 Hc2. specialize (Hc c Hc1 Hc2).
      destruct (add_m_colrows _ _ _ _ _ v1 i1 v2 (columns m) s)
        as [[[a b] c'] d]. exact Hc.
  - apply fam_wf_sym in Hf.
    destruct (colrows_spec (columns m) (rows m) i1 i2 v1 v2 s Hf Hv1 Hv2)
      as (Ha & Hb & Hc).
    unfold SparMat.add_m_cols.
    rewrite (add_m_cols_eq _ _ _ _ _ _ m i1 i2 s v1 v2 H1 H2 H3 Hv1 Hv2).
    split; [|split].
    + intros Hl1 Hl2 Hbound.
      destruct (Ha Hl1 Hl2 Hbound)
        as (v1' & B' & ret & E & Hret & Hf' & Hlen & Hasc & Hfind & Hmax
            & Hatt).
      rewrite E. eexists. exists ret.
      split; [reflexivity|]. split; [exact Hret|].
      cbn [rows columns].
      rewrite (ents_set_vec_same _ _ _ v1' _ Hv1).
      split; [|split; [exact Hasc|split; [exact Hfind|split; assumption]]].
      split; [|apply fam_wf_sym; exact Hf'].
      destruct Hs as [Hr Hc']. split; cbn [num_rows num_cols rows columns].
      * rewrite Hlen. exact Hr.
      * rewrite set_vec_length. exact Hc'.
    + intros Hd. specialize (Hb Hd).
      destruct (add_m_colrows _ _ _ _ _ v1 i1 v2 (rows m) s)
        as [[[a b] c] d]. exact Hb.
    + intros c Hc1 Hc2. specialize (Hc c Hc1 Hc2).
      destruct (add_m_colrows _ _ _ _ _ v1 i1 v2 (rows m) s)
        as [[[a b] c'] d]. exact Hc.
Qed.

Lemma scaled_addition_witness :
  scaled_add_spec SparMat.add_m_rows (@rows Z) (SparMat.column_2x1 1) 1 2 5.
Proof.
  apply (proj1 (scaled_addition (SparMat.column_2x1 1) 1 2 5
                  (SparMat.column_2x1_wf 1 ltac:(vm_compute; split; discriminate)))).
  - change (num_rows (SparMat.column_2x1 1)) with 2. lia.
  - change (num_rows (SparMat.column_2x1 1)) with 2. lia.
  - change (num_cols (SparMat.column_2x1 1)) with 1. lia.
Defined.

(** C2: [add_m_rows] does not return -1 for every intermediate entry
    above [ENTRY_MAX].  In the 2 x 1 matrix with (2,1) = 65536, which
    satisfies the invariants and has both rows alive, [add_m_rows (1, 2,
    65536)] computes the entry 0 + 65536 * 65536 = 2^32 for cell (1,1);
    the product is formed in [int] before the guard looks at it, wraps
    to 0, and the call returns 0 with no error message. *)
Theorem overflow_not_reported :
  SparMat.wf (SparMat.column_2x1 65536) /\
  (exists v1 v2,
     vec_at (rows (SparMat.column_2x1 65536)) 1 = Some v1 /\
     vec_at (rows (SparMat.column_2x1 65536)) 2 = Some v2 /\
     num_entries v1 <> -1 /\ num_entries v2 <> -1 /\
     SparMat.has_entry v2 1 /\
     SparMat.merged v1 v2 65536 1 = 4294967296 /\
     SparMat.ENTRY_MAX < Z.abs (SparMat.merged v1 v2 65536 1)) /\
  snd (fst (SparMat.add_m_rows (SparMat.column_2x1 65536) 1 2 65536)) = 0 /\
  snd (SparMat.add_m_rows (SparMat.column_2x1 65536) 1 2 65536) = None.
Proof.
  split; [|split; [|split]].
  - apply SparMat.column_2x1_wf. vm_compute. split; discriminate.
  - eexists. eexists. split; [vm_compute; reflexivity|].
    split; [vm_compute; reflexivity|].
    split; [simpl; lia|]. split; [simpl; lia|].
    split; [exists 65536; left; reflexivity|].
    split; vm_compute; reflexivity.
  - vm_compute. reflexivity.
  - vm_compute. reflexivity.
Qed.

(** C5: the guard of [add_m_colrows] looks at the entry after the [int]
    arithmetic: in the 2 x 1 matrix with (2,1) = 65536, [add_m_rows (1, 2,
    65537)] computes 65537 * 65536 = 4295032832, above [ENTRY_MAX]; the
    call reports no error, returns 65536 and leaves the wrapped value
    65536 in cell (1,1). *)
Theorem overflow_stored_silently :
  SparMat.wf (SparMat.column_2x1 65536) /\
  SparMat.get_m_entry (SparMat.column_2x1 65536) 1 1 = (0, None) /\
  SparMat.get_m_entry (SparMat.column_2x1 65536) 2 1 = (65536, None) /\
  SparMat.ENTRY_MAX < 0 + 65537 * 65536 /\
  snd (fst (SparMat.add_m_rows (SparMat.column_2x1 65536) 1 2 65537))
    = 65536 /\
  snd (SparMat.add_m_rows (SparMat.column_2x1 65536) 1 2 65537) = None /\
  SparMat.get_m_entry
    (fst (fst (SparMat.add_m_rows (SparMat.column_2x1 65536) 1 2 65537)))
    1 1 = (65536, None).
Proof.
  split; [apply SparMat.column_2x1_wf; vm_compute; split; discriminate|].
  repeat split; vm_compute; reflexivity.
Qed.

(** The 1 x 2 matrix with the single entry (1,2) = 1. *)
Definition wide_1x2 : SparMat.SparseMatrix :=
  match SparMat.init_s_matrix 1 2 with
  | (Some m, _, _) => fst (fst (SparMat.add_m_entry m 1 2 1))
  | _ => mkMatrix 0 0 [] []
  end.

Lemma wide_1x2_wf : SparMat.wf wide_1x2.
Proof.
  set (m0 := mkMatrix 1 2 [mkVector 0 (@nil SparMat.SparseEntry)]
               [mkVector 0 []; mkVector 0 []]).
  assert (Hinit : SparMat.init_s_matrix 1 2 = (Some m0, 0, None))
    by reflexivity.
  apply (init_s_matrix_wf Z SparMat.is_zero) in Hinit.
  change wide_1x2 with (fst (fst (SparMat.add_m_entry m0 1 2 1))).
  apply (SparMat.add_m_entry_wf m0 _ 1 2 1 0 None Hinit);
    [vm_compute; reflexivity | discriminate].
Qed.

(** C7: [check_m_data] passes [n_rows] as the largest index allowed in a
    row, where the entries of a row are indexed by columns: the 1 x 2
    matrix whose only entry is (1,2) = 1 satisfies every invariant of the
    data model and is rejected with "index is too big". *)
Theorem check_m_data_rejects_wide :
  SparMat.wf wide_1x2 /\
  num_rows wide_1x2 = 1 /\ num_cols wide_1x2 = 2 /\
  SparMat.get_m_entry wide_1x2 1 2 = (1, None) /\
  SparMat.check_m_data wide_1x2 =
    (-1, Some "check_v_data: index is too big"%string).
Proof.
  split; [exact wide_1x2_wf|]. repeat split; vm_compute; reflexivity.
Qed.

(** C9 (amended): after a history of calls that all succeeded, starting
    from a matrix satisfying the invariants and containing [erase_m_row
    (r, do_del)] or [erase_m_column (c, do_del)] with [do_del] set,
    [get_m_entry (r, c)] at any cell in range of that row or column sets
    no error and returns 0. *)
Theorem read_after_erase (cs : list SparMat.mutation)
    (m0 m : SparMat.SparseMatrix) (r c d : Z) :
  SparMat.wf m0 -> SparMat.run_all cs m0 = Some m ->
  1 <= r <= num_rows m0 -> 1 <= c <= num_cols m0 -> d <> 0 ->
  In (SparMat.EraseRow r d) cs \/ In (SparMat.EraseColumn c d) cs ->
  SparMat.get_m_entry m r c = (0, None).
Proof.
  intros Hwf Hrun Hr Hc Hd [Hin|Hin];
    destruct (erased_in_history cs _ m0 m Hwf Hin Hrun)
      as (Hwf' & Hr' & Hc' & Hdel);
    apply SparMat.get_m_entry_deleted; try exact Hwf'; try lia;
    [left | right]; exact (Hdel Hd).
Qed.

Lemma read_after_erase_witness :
  SparMat.get_m_entry
    (match SparMat.run_all [SparMat.EraseRow 2 1] (SparMat.column_2x1 1) with
     | Some m => m
     | None => SparMat.empty_2x1
     end) 2 1 = (0, None).
Proof.
  apply (read_after_erase [SparMat.EraseRow 2 1] (SparMat.column_2x1 1) _
           2 1 1).
  - apply SparMat.column_2x1_wf. vm_compute. split; discriminate.
  - vm_compute. reflexivity.
  - change (num_rows (SparMat.column_2x1 1)) with 2. lia.
  - change (num_cols (SparMat.column_2x1 1)) with 1. lia.
  - lia.
  - left. left. reflexivity.
Defined.

(** C10: the bound on the stored values is not kept by [add_m_rows].
    The 2 x 1 matrix with (2,1) = 32768 satisfies the invariants and
    holds no value above [ENTRY_MAX]; [add_m_rows (1, 2, 65536)]
    computes 32768 * 65536 = 2^31 in [int], which wraps to [INT_MIN];
    [abs] of it is negative, so the guard lets it through: the call
    returns 0 with no message and cell (1,1) holds [INT_MIN], whose
    absolute value is above [ENTRY_MAX]. *)
Theorem bound_broken_by_add_m_rows :
  SparMat.wf (SparMat.column_2x1 32768) /\
  SparMat.bounded (SparMat.column_2x1 32768) /\
  snd (fst (SparMat.add_m_rows (SparMat.column_2x1 32768) 1 2 65536)) = 0 /\
  snd (SparMat.add_m_rows (SparMat.column_2x1 32768) 1 2 65536) = None /\
  SparMat.get_m_entry
    (fst (fst (SparMat.add_m_rows (SparMat.column_2x1 32768) 1 2 65536)))
    1 1 = (SparMat.INT_MIN, None) /\
  SparMat.ENTRY_MAX < Z.abs SparMat.INT_MIN /\
  SparMat.ABSFUNC SparMat.INT_MIN = SparMat.INT_MIN.
Proof.
  split; [apply SparMat.column_2x1_wf; vm_compute; split; discriminate|].
  split.
  - apply (proj2 (SparMat.add_m_entry_bounded SparMat.empty_2x1
                    (SparMat.column_2x1 32768) 2 1 32768 0 None
                    SparMat.empty_2x1_bounded eq_refl
                    ltac:(discriminate))).
  - repeat split; vm_compute; reflexivity.
Qed.

(** X17: [ENTRY_MAX = INT_MAX / 2] is strictly below
    [ERR_MVAL = INT_MAX]; [add_m_entry] only stores values of absolute
    value at most [ENTRY_MAX], and [remove_m_entry] keeps it so; on a
    matrix whose stored values are within that bound, [get_m_entry] and
    [remove_m_entry] return [ERR_MVAL] exactly when they report an
    error. *)
Theorem sentinel_unambiguous (m : SparMat.SparseMatrix) :
  SparMat.bounded m ->
  SparMat.ENTRY_MAX = SparMat.INT_MAX / 2 /\
  SparMat.ERR_MVAL = SparMat.INT_MAX /\
  SparMat.ENTRY_MAX < SparMat.ERR_MVAL /\
  (forall row col val m' ret msg,
     SparMat.add_m_entry m row col val = (m', ret, msg) -> ret <> -1 ->
     Z.abs val <= SparMat.ENTRY_MAX /\ SparMat.bounded m') /\
  (forall row col m' ret msg,
     SparMat.remove_m_entry m row col = (m', ret, msg) ->
     ret <> SparMat.ERR_MVAL ->
     Z.abs ret <= SparMat.ENTRY_MAX /\ SparMat.bounded m') /\
  (forall row col,
     fst (SparMat.get_m_entry m row col) = SparMat.ERR_MVAL <->
     snd (SparMat.get_m_entry m row col) <> None) /\
  (forall row col,
     snd (fst (SparMat.remove_m_entry m row col)) = SparMat.ERR_MVAL <->
     snd (SparMat.remove_m_entry m row col) <> None).
Proof.
  intros Hb.
  split; [reflexivity|]. split; [reflexivity|].
  split; [vm_compute; reflexivity|].
  split; [intros; eapply SparMat.add_m_entry_bounded; eassumption|].
  split; [intros; eapply SparMat.remove_m_entry_bounded; eassumption|].
  split; intros row col.
  - apply SparMat.get_m_entry_sentinel, Hb.
  - apply SparMat.remove_m_entry_sentinel, Hb.
Qed.

Lemma sentinel_unambiguous_witness :
  fst (SparMat.get_m_entry (SparMat.column_2x1 7) 2 1) = SparMat.ERR_MVAL <->
  snd (SparMat.get_m_entry (SparMat.column_2x1 7) 2 1) <> None.
Proof.
  refine (proj1 (proj2 (proj2 (proj2 (proj2 (proj2
            (sentinel_unambiguous (SparMat.column_2x1 7) _)))))) 2 1).
  apply (proj2 (SparMat.add_m_entry_bounded SparMat.empty_2x1
                  (SparMat.column_2x1 7) 2 1 7 0 None
                  SparMat.empty_2x1_bounded eq_refl
                  ltac:(discriminate))).
Defined.

(* ------------------------------------------------------------------ *)
(** ** Properties of [sparmat-U.c] *)

(** The four elements with one component 0 and the other 1 or -1. *)
Definition four_units : list SparMatU.Uval :=
  [(1, 0); (-1, 0); (0, 1); (0, -1)].

Lemma unit_squares (value_bits : positive) :
  (1 < value_bits)%positive ->
  forall v, In v four_units -> SparMatU.mult_Uvals value_bits v v = (1, 0).
Proof.
  intros Hbits v Hv.
  assert (H1 : CInt.wrap value_bits 1 = 1).
  { apply CInt.wrap_small. unfold CInt.in_range, CInt.min_int, CInt.max_int.
    assert (2 ^ 1 <= 2 ^ (Z.pos value_bits - 1))
      by (apply Z.pow_le_mono_r; lia).
    change (2 ^ 1) with 2 in *. lia. }
  pose proof (CInt.wrap_0 value_bits) as H0.
  unfold four_units in Hv. simpl in Hv.
  destruct Hv as [<-|[<-|[<-|[<-|[]]]]]; unfold SparMatU.mult_Uvals;
    cbn [fst snd]; simpl Z.mul; rewrite ?H0, ?H1; simpl Z.add;
    rewrite ?H0, ?H1; reflexivity.
Qed.

(** C4: [mult_Uvals (a, b) (c, d)] is [(ac + bd, ad + bc)], reduced to the
    width of [SM_value_t] and exact whenever the two results fit it; and
    for a type of at least two bits each of (1,0), (-1,0), (0,1), (0,-1)
    multiplied by itself gives the identity (1,0). *)
Theorem mult_Uvals_formula (value_bits : positive) (a b c d : Z) :
  SparMatU.mult_Uvals value_bits (a, b) (c, d) =
    (CInt.wrap value_bits (a * c + b * d),
     CInt.wrap value_bits (a * d + b * c)) /\
  (CInt.in_range value_bits (a * c + b * d) ->
   CInt.in_range value_bits (a * d + b * c) ->
   SparMatU.mult_Uvals value_bits (a, b) (c, d) =
     (a * c + b * d, a * d + b * c)) /\
  ((1 < value_bits)%positive ->
   forall v, In v four_units ->
             SparMatU.mult_Uvals value_bits v v = (1, 0)).
Proof.
  assert (E : SparMatU.mult_Uvals value_bits (a, b) (c, d) =
              (CInt.wrap value_bits (a * c + b * d),
               CInt.wrap value_bits (a * d + b * c))).
  { unfold SparMatU.mult_Uvals. cbn [fst snd].
    rewrite !CInt.wrap_add_l, !CInt.wrap_add_r. reflexivity. }
  split; [exact E|]. split.
  - intros H1 H2. rewrite E.
    rewrite (CInt.wrap_small _ _ H1), (CInt.wrap_small _ _ H2). reflexivity.
  - exact (unit_squares value_bits).
Qed.

Lemma mult_Uvals_formula_witness :
  SparMatU.mult_Uvals 32 (3, 4) (5, 6) = (39, 38) /\
  SparMatU.mult_Uvals 32 (0, -1) (0, -1) = (1, 0).
Proof.
  split.
  - apply (proj1 (proj2 (mult_Uvals_formula 32 3 4 5 6)));
      vm_compute; split; discriminate.
  - apply (proj2 (proj2 (mult_Uvals_formula 32 0 0 0 0)));
      [reflexivity | right; right; right; left; reflexivity].
Defined.

(* ------------------------------------------------------------------ *)
(** ** Properties of [sparreduce-U.c] *)

(** Modelled from the spec: the magnitude of an element [a + b t] of
    Z[t]/(t^2 = 1) is max(|a|, |b|).  [sparmat-U.h], which defines
    [ABSFUNC] for [sparmat-U.c], is not part of the sources. *)
Definition magnitude (v : SparMatU.Uval) : Z :=
  Z.max (Z.abs (fst v)) (Z.abs (snd v)).

(** Two groups of rank 1 with the matrix (2), read in. *)
Definition reduced_state : SparReduce.Complex :=
  SparReduce.mkComplex 2 0 1
    [mkMatrix 1 1 [mkVector 1 [mkEntry 1 (2, 0)]]
                  [mkVector 1 [mkEntry 1 (2, 0)]]]
    [1; 1] [1; 1] [] [] None.









(** C8: for a complex of [c_size] groups (1 <= c_size <= INT_MAX) whose
    ranks are all 0, [reduce_s_complex_U] returns, whatever the number of
    passes allowed, the vector of [c_size] zero ranks and two vectors of
    [c_size - 1] zeros in place of the matrices: no [while] loop runs and
    no error is raised. *)
Theorem empty_complex_is_no_op (value_bits : positive)
    (ABSFUNC : SparMatU.Uval -> Z) (ENTRY_MAX : Z)
    (fuel : nat) (c_size : Z) (c_ranks : list Z)
    (d_matrices : list SparReduce.GEN) (matr_lengths : list Z) :
  1 <= c_size <= 2147483647 ->
  (forall j, 0 <= j < c_size -> SparReduce.zat c_ranks j = Some 0) ->
  SparReduce.reduce_s_complex_U value_bits ABSFUNC ENTRY_MAX fuel c_size
    c_ranks d_matrices matr_lengths =
  SparReduce.Done
    (SparReduce.t_VEC
       [SparReduce.t_VEC (repeat SparReduce.gen_0 (Z.to_nat c_size));
        SparReduce.t_VEC (repeat SparReduce.gen_0 (Z.to_nat (c_size - 1)));
        SparReduce.t_VEC (repeat SparReduce.gen_0 (Z.to_nat (c_size - 1)))]).
Proof. apply SparReduce.reduce_empty_complex. Qed.

Lemma empty_complex_is_no_op_witness :
  SparReduce.reduce_s_complex_U 64 magnitude 4611686018427387903 0 3
    [0; 0; 0] [] [] =
  SparReduce.Done
    (SparReduce.t_VEC
       [SparReduce.t_VEC [SparReduce.gen_0; SparReduce.gen_0;
                          SparReduce.gen_0];
        SparReduce.t_VEC [SparReduce.gen_0; SparReduce.gen_0];
        SparReduce.t_VEC [SparReduce.gen_0; SparReduce.gen_0]]).
Proof.
  apply (empty_complex_is_no_op 64 magnitude 4611686018427387903 0 3
           [0; 0; 0] [] []); [lia|].
  intros j Hj.
  assert (Hc : j = 0 \/ j = 1 \/ j = 2) by lia.
  destruct Hc as [->|[->| ->]]; reflexivity.
Defined.

(* ------------------------------------------------------------------ *)
(** ** Cells of a matrix of [sparmat.c] *)

(** The number in cell (r, c): the entry of row r under index c, 0 when
    there is none. *)
Definition cell (m : SparMat.SparseMatrix) (r c : Z) : Z :=
  match find_entry c (ents (rows m) r) with Some v => v | None => 0 end.

(** Row r and column c are there and not deleted. *)
Definition live (m : SparMat.SparseMatrix) (r c : Z) : Prop :=
  exists rv cv,
    vec_at (rows m) r = Some rv /\ vec_at (columns m) c = Some cv /\
    num_entries rv <> -1 /\ num_entries cv <> -1.

Lemma live_in_range (m : SparMat.SparseMatrix) r c :
  shaped m -> live m r c -> 1 <= r <= num_rows m /\ 1 <= c <= num_cols m.
Proof.
  intros [Hr Hc] (rv & cv & Hrv & Hcv & _).
  apply vec_at_range in Hrv. apply vec_at_range in Hcv. lia.
Qed.

Lemma get_m_entry_cell (m : SparMat.SparseMatrix) r c :
  SparMat.msound m -> 1 <= r <= num_rows m -> 1 <= c <= num_cols m ->
  SparMat.get_m_entry m r c = (cell m r c, None).
Proof.
  intros [[Hnr Hnc] (HA & HB & Hcons)] Hr Hc.
  unfold SparMat.get_m_entry, SparMat.check_m_indices.
  rewrite check_m_indices_in by assumption.
  destruct (vec_at_in_range _ (rows m) r) as [rv Hrv]; [lia|].
  destruct (vec_at_in_range _ (columns m) c) as [cv Hcv]; [lia|].
  rewrite Hrv, Hcv.
  unfold SparMat.get_v_entry.
  rewrite (get_v_entry_find _ 0 rv c (all_ascending_at _ _ _ _ HA Hrv)).
  rewrite (get_v_entry_find _ 0 cv r (all_ascending_at _ _ _ _ HB Hcv)).
  specialize (Hcons r c). unfold cell. unfold ents in *.
  rewrite Hrv, Hcv in Hcons. rewrite Hrv, <- Hcons, Z.eqb_refl. reflexivity.
Qed.

(** Cells of a matrix in which row r has been replaced. *)
Lemma cell_set_row (m : SparMat.SparseMatrix) r rv rv' cs r' c' :
  vec_at (rows m) r = Some rv ->
  cell (mkMatrix (num_rows m) (num_cols m) (set_vec (rows m) r rv') cs) r' c'
  = if r' =? r
    then match find_entry c' (entries rv') with Some v => v | None => 0 end
    else cell m r' c'.
Proof.
  intros Hrv. unfold cell. cbn [rows].
  destruct (Z.eqb_spec r' r) as [->|Hne].
  - rewrite (ents_set_vec_same _ _ _ rv' _ Hrv). reflexivity.
  - rewrite ents_set_vec_other by congruence. reflexivity.
Qed.

Lemma remove_m_entry_total (m : SparMat.SparseMatrix) r c rv cv :
  SparMat.msound m ->
  vec_at (rows m) r = Some rv -> vec_at (columns m) c = Some cv ->
  num_entries rv <> -1 -> num_entries cv <> -1 ->
  cell m r c <> SparMat.ERR_MVAL ->
  SparMat.remove_m_entry m r c =
  (mkMatrix (num_rows m) (num_cols m)
     (set_vec (rows m) r (snd (remove_found rv c)))
     (set_vec (columns m) c (snd (remove_found cv r))),
   cell m r c, None).
Proof.
  intros Hm Hrv Hcv Hlr Hlc Hne.
  pose proof Hm as [[Hnr Hnc] (HA & HB & Hcons)].
  assert (Hr : 1 <= r <= num_rows m) by (apply vec_at_range in Hrv; lia).
  assert (Hc : 1 <= c <= num_cols m) by (apply vec_at_range in Hcv; lia).
  unfold SparMat.remove_m_entry, SparMat.check_m_indices.
  rewrite check_m_indices_in by assumption. rewrite Hrv, Hcv.
  rewrite (SparMat.remove_v_entry_live _ _ Hlr).
  rewrite (SparMat.remove_v_entry_live _ _ Hlc).
  rewrite (remove_found_fst _ rv c (all_ascending_at _ _ _ _ HA Hrv)).
  rewrite (remove_found_fst _ cv r (all_ascending_at _ _ _ _ HB Hcv)).
  specialize (Hcons r c). unfold ents in Hcons. rewrite Hrv, Hcv in Hcons.
  rewrite <- Hcons.
  assert (Hcell : match find_entry c (entries rv) with
                  | Some v => v | None => 0 end = cell m r c).
  { unfold cell, ents. rewrite Hrv. reflexivity. }
  rewrite Hcell. destruct (Z.eqb_spec (cell m r c) SparMat.ERR_MVAL);
    [contradiction|].
  rewrite Z.eqb_refl. reflexivity.
Qed.

Lemma add_m_entry_total (m : SparMat.SparseMatrix) r c v rv cv :
  SparMat.msound m ->
  vec_at (rows m) r = Some rv -> vec_at (columns m) c = Some cv ->
  num_entries rv <> -1 -> num_entries cv <> -1 ->
  - SparMat.ENTRY_MAX <= v <= SparMat.ENTRY_MAX ->
  (v = 0 -> cell m r c <> SparMat.ERR_MVAL) ->
  SparMat.add_m_entry m r c v =
  (mkMatrix (num_rows m) (num_cols m)
     (set_vec (rows m) r (put SparMat.is_zero rv c v))
     (set_vec (columns m) c (put SparMat.is_zero cv r v)), 0, None).
Proof.
  intros Hm Hrv Hcv Hlr Hlc Hv Hne.
  pose proof Hm as [[Hnr Hnc] _].
  assert (Hr : 1 <= r <= num_rows m) by (apply vec_at_range in Hrv; lia).
  assert (Hc : 1 <= c <= num_cols m) by (apply vec_at_range in Hcv; lia).
  unfold SparMat.add_m_entry, SparMat.check_m_indices.
  rewrite check_m_indices_in by assumption.
  destruct (Z.gtb_spec v SparMat.ENTRY_MAX); [lia|].
  destruct (Z.ltb_spec v (- SparMat.ENTRY_MAX)); [lia|].
  cbn [orb]. cbv iota.
  destruct (Z.eqb_spec v 0) as [->|Hnz].
  - specialize (Hne eq_refl).
    rewrite (remove_m_entry_total m r c rv cv Hm Hrv Hcv Hlr Hlc Hne).
    destruct (Z.eqb_spec (cell m r c) SparMat.ERR_MVAL); [contradiction|].
    reflexivity.
  - rewrite Hrv, Hcv. unfold SparMat.add_v_entry.
    rewrite (add_v_entry_live _ _ _ _ _ Hlr). cbn [Z.eqb]. cbv iota.
    rewrite (add_v_entry_live _ _ _ _ _ Hlc). reflexivity.
Qed.

Lemma cell_after_put (rv : SparMat.SparseVector) c v c' :
  ascending (entries rv) ->
  match find_entry c' (entries (put SparMat.is_zero rv c v)) with
  | Some x => x | None => 0 end =
  if c' =? c then v
  else match find_entry c' (entries rv) with Some x => x | None => 0 end.
Proof.
  intros Ha. rewrite (put_find _ _ _ _ _ _ Ha).
  destruct (c' =? c); [|reflexivity].
  unfold stored, SparMat.is_zero. destruct (Z.eqb_spec v 0); congruence.
Qed.

(** X1: on a matrix satisfying the invariants, [add_m_entry] of a value
    within [ENTRY_MAX] into a cell whose row and column are not deleted
    succeeds; the matrix satisfies the invariants again, [get_m_entry]
    then reads that value in the cell (0 for an entry removed by writing
    0), and every other cell reads as before. *)
Theorem add_m_entry_round_trip (m : SparMat.SparseMatrix) (r c v : Z) :
  SparMat.wf m -> live m r c ->
  - SparMat.ENTRY_MAX <= v <= SparMat.ENTRY_MAX ->
  (v = 0 -> cell m r c <> SparMat.ERR_MVAL) ->
  exists m',
    SparMat.add_m_entry m r c v = (m', 0, None) /\ SparMat.wf m' /\
    SparMat.get_m_entry m' r c = (v, None) /\
    forall r' c', 1 <= r' <= num_rows m -> 1 <= c' <= num_cols m ->
      r' <> r \/ c' <> c ->
      SparMat.get_m_entry m' r' c' = SparMat.get_m_entry m r' c'.
Proof.
  intros Hwf (rv & cv & Hrv & Hcv & Hlr & Hlc) Hv Hne.
  pose proof (wf_msound _ _ _ Hwf) as Hm.
  pose proof (add_m_entry_total m r c v rv cv Hm Hrv Hcv Hlr Hlc Hv Hne)
    as Hrun.
  eexists. split; [exact Hrun|].
  assert (Hwf' : SparMat.wf
            (mkMatrix (num_rows m) (num_cols m)
               (set_vec (rows m) r (put SparMat.is_zero rv c v))
               (set_vec (columns m) c (put SparMat.is_zero cv r v))))
    by (apply (SparMat.add_m_entry_wf _ _ _ _ _ _ _ Hwf Hrun); discriminate).
  split; [exact Hwf'|].
  pose proof (wf_msound _ _ _ Hwf') as Hm'.
  pose proof Hm as [[Hnr Hnc] (HA & _)].
  pose proof (all_ascending_at _ _ _ _ HA Hrv) as Har.
  assert (Hr : 1 <= r <= num_rows m) by (apply vec_at_range in Hrv; lia).
  assert (Hc : 1 <= c <= num_cols m) by (apply vec_at_range in Hcv; lia).
  split.
  - rewrite (get_m_entry_cell _ r c Hm') by (cbn; assumption).
    rewrite (cell_set_row m r rv _ _ r c Hrv), Z.eqb_refl.
    rewrite (cell_after_put rv c v c Har), Z.eqb_refl. reflexivity.
  - intros r' c' Hr' Hc' Hdiff.
    rewrite (get_m_entry_cell _ r' c' Hm') by (cbn; assumption).
    rewrite (get_m_entry_cell m r' c' Hm Hr' Hc').
    rewrite (cell_set_row m r rv _ _ r' c' Hrv).
    destruct (Z.eqb_spec r' r) as [->|Hrr]; [|reflexivity].
    rewrite (cell_after_put rv c v c' Har).
    destruct (Z.eqb_spec c' c) as [->|Hcc]; [destruct Hdiff; contradiction|].
    unfold cell, ents. rewrite Hrv. reflexivity.
Qed.

Lemma column_2x1_live : live (SparMat.column_2x1 7) 1 1.
Proof. eexists. eexists. repeat split; try reflexivity; discriminate. Qed.

Lemma add_m_entry_round_trip_witness :
  exists m',
    SparMat.add_m_entry (SparMat.column_2x1 7) 1 1 5 = (m', 0, None) /\
    SparMat.wf m' /\ SparMat.get_m_entry m' 1 1 = (5, None) /\
    forall r' c',
      1 <= r' <= num_rows (SparMat.column_2x1 7) ->
      1 <= c' <= num_cols (SparMat.column_2x1 7) ->
      r' <> 1 \/ c' <> 1 ->
      SparMat.get_m_entry m' r' c' =
      SparMat.get_m_entry (SparMat.column_2x1 7) r' c'.
Proof.
  apply (add_m_entry_round_trip (SparMat.column_2x1 7) 1 1 5).
  - apply SparMat.column_2x1_wf. vm_compute. split; discriminate.
  - exact column_2x1_live.
  - vm_compute. split; discriminate.
  - discriminate.
Defined.

(** X2: on a matrix satisfying the invariants, [remove_m_entry] on a cell
    whose row and column are not deleted and whose value is not
    [ERR_MVAL] returns what [get_m_entry] read there without an error;
    afterwards the invariants hold, the cell reads 0 and every other cell
    reads as before. *)
Theorem remove_m_entry_round_trip (m : SparMat.SparseMatrix) (r c : Z) :
  SparMat.wf m -> live m r c -> cell m r c <> SparMat.ERR_MVAL ->
  exists m',
    SparMat.remove_m_entry m r c =
      (m', fst (SparMat.get_m_entry m r c), None) /\
    SparMat.wf m' /\
    SparMat.get_m_entry m' r c = (0, None) /\
    forall r' c', 1 <= r' <= num_rows m -> 1 <= c' <= num_cols m ->
      r' <> r \/ c' <> c ->
      SparMat.get_m_entry m' r' c' = SparMat.get_m_entry m r' c'.
Proof.
  intros Hwf (rv & cv & Hrv & Hcv & Hlr & Hlc) Hne.
  pose proof (wf_msound _ _ _ Hwf) as Hm.
  pose proof (remove_m_entry_total m r c rv cv Hm Hrv Hcv Hlr Hlc Hne)
    as Hrun.
  pose proof Hm as [[Hnr Hnc] (HA & _)].
  pose proof (all_ascending_at _ _ _ _ HA Hrv) as Har.
  assert (Hr : 1 <= r <= num_rows m) by (apply vec_at_range in Hrv; lia).
  assert (Hc : 1 <= c <= num_cols m) by (apply vec_at_range in Hcv; lia).
  rewrite (get_m_entry_cell m r c Hm Hr Hc). cbn [fst].
  eexists. split; [exact Hrun|].
  assert (Hwf' : SparMat.wf
            (mkMatrix (num_rows m) (num_cols m)
               (set_vec (rows m) r (snd (remove_found rv c)))
               (set_vec (columns m) c (snd (remove_found cv r)))))
    by (apply (SparMat.remove_m_entry_wf _ _ _ _ _ _ Hwf Hrun); exact Hne).
  split; [exact Hwf'|].
  pose proof (wf_msound _ _ _ Hwf') as Hm'.
  split.
  - rewrite (get_m_entry_cell _ r c Hm') by (cbn; assumption).
    rewrite (cell_set_row m r rv _ _ r c Hrv), Z.eqb_refl.
    rewrite (remove_found_find _ _ _ _ Har), Z.eqb_refl. reflexivity.
  - intros r' c' Hr' Hc' Hdiff.
    rewrite (get_m_entry_cell _ r' c' Hm') by (cbn; assumption).
    rewrite (get_m_entry_cell m r' c' Hm Hr' Hc').
    rewrite (cell_set_row m r rv _ _ r' c' Hrv).
    destruct (Z.eqb_spec r' r) as [->|Hrr]; [|reflexivity].
    rewrite (remove_found_find _ _ _ _ Har).
    destruct (Z.eqb_spec c' c) as [->|Hcc]; [destruct Hdiff; contradiction|].
    unfold cell, ents. rewrite Hrv. reflexivity.
Qed.

Lemma remove_m_entry_round_trip_witness :
  exists m',
    SparMat.remove_m_entry (SparMat.column_2x1 7) 2 1 =
      (m', fst (SparMat.get_m_entry (SparMat.column_2x1 7) 2 1), None) /\
    SparMat.wf m' /\ SparMat.get_m_entry m' 2 1 = (0, None) /\
    forall r' c',
      1 <= r' <= num_rows (SparMat.column_2x1 7) ->
      1 <= c' <= num_cols (SparMat.column_2x1 7) ->
      r' <> 2 \/ c' <> 1 ->
      SparMat.get_m_entry m' r' c' =
      SparMat.get_m_entry (SparMat.column_2x1 7) r' c'.
Proof.
  apply (remove_m_entry_round_trip (SparMat.column_2x1 7) 2 1).
  - apply SparMat.column_2x1_wf. vm_compute. split; discriminate.
  - eexists. eexists. repeat split; try reflexivity; discriminate.
  - vm_compute. discriminate.
Defined.

(** The 2 x 1 matrix with (2,1) = 7 after [erase_m_column (1, 1)]: both
    rows alive, the column deleted. *)
Definition tombstoned_2x1 : SparMat.SparseMatrix :=
  fst (fst (SparMat.erase_m_column (SparMat.column_2x1 7) 1 1)).

Lemma tombstoned_2x1_wf : SparMat.wf tombstoned_2x1.
Proof.
  apply (SparMat.erase_m_column_wf (SparMat.column_2x1 7) _ 1 1 0 None);
    [|vm_compute; reflexivity|discriminate].
  apply SparMat.column_2x1_wf. vm_compute. split; discriminate.
Qed.

(** C9 as stated fails after a call that failed: in the 2 x 1 matrix
    with (2,1) = 7, column 1 is erased with [do_del] set; [add_m_entry
    (1, 1, 5)] then returns -1, but only after it has put the entry into
    row 1; column 1 is still deleted, cell (1,1) is in range, and
    [get_m_entry (1, 1)] returns [ERR_MVAL] with an error message. *)
Lemma read_after_failed_write :
  SparMat.wf tombstoned_2x1 /\
  SparMat.deleted_column tombstoned_2x1 1 /\
  snd (fst (SparMat.add_m_entry tombstoned_2x1 1 1 5)) = -1 /\
  SparMat.deleted_column
    (fst (fst (SparMat.add_m_entry tombstoned_2x1 1 1 5))) 1 /\
  1 <= 1 <= num_rows (fst (fst (SparMat.add_m_entry tombstoned_2x1 1 1 5))) /\
  SparMat.get_m_entry (fst (fst (SparMat.add_m_entry tombstoned_2x1 1 1 5)))
    1 1 =
  (SparMat.ERR_MVAL,
   Some "get_m_entry: row and column entries don't match"%string).
Proof.
  split; [exact tombstoned_2x1_wf|].
  split; [eexists; split; reflexivity|].
  split; [reflexivity|].
  split; [eexists; split; reflexivity|].
  split; [vm_compute; split; discriminate|].
  vm_compute. reflexivity.
Qed.

(** X3: a failed [add_m_entry] is not a no-op.  On a matrix satisfying
    the invariants, writing a non-zero value within [ENTRY_MAX] into a
    cell whose row is alive and whose column is deleted returns -1
    ("vector is already deleted") after the entry has been put into the
    row: the row then holds the value, and [get_m_entry] on that cell
    reports that row and column do not match. *)
Theorem add_m_entry_failure_keeps_row_entry (m : SparMat.SparseMatrix)
    (r c v : Z) (rv cv : SparMat.SparseVector) :
  SparMat.wf m ->
  vec_at (rows m) r = Some rv -> vec_at (columns m) c = Some cv ->
  num_entries rv <> -1 -> num_entries cv = -1 ->
  v <> 0 -> - SparMat.ENTRY_MAX <= v <= SparMat.ENTRY_MAX ->
  exists m',
    SparMat.add_m_entry m r c v =
      (m', -1, Some "add_v_entry: vector is already deleted"%string) /\
    cell m r c = 0 /\ cell m' r c = v /\
    SparMat.get_m_entry m' r c =
      (SparMat.ERR_MVAL,
       Some "get_m_entry: row and column entries don't match"%string).
Proof.
  intros Hwf Hrv Hcv Hlr Hdc Hnz Hv.
  pose proof (wf_msound _ _ _ Hwf) as [[Hnr Hnc] (HA & HB & Hcons)].
  destruct (SparMat.wf_deleted_empty _ Hwf) as [_ HdC].
  pose proof (HdC _ _ Hcv Hdc) as Hempty.
  pose proof (all_ascending_at _ _ _ _ HA Hrv) as Har.
  assert (Hr : 1 <= r <= num_rows m) by (apply vec_at_range in Hrv; lia).
  assert (Hc : 1 <= c <= num_cols m) by (apply vec_at_range in Hcv; lia).
  unfold SparMat.add_m_entry, SparMat.check_m_indices.
  rewrite check_m_indices_in by assumption.
  destruct (Z.gtb_spec v SparMat.ENTRY_MAX); [lia|].
  destruct (Z.ltb_spec v (- SparMat.ENTRY_MAX)); [lia|].
  cbn [orb]. cbv iota.
  destruct (Z.eqb_spec v 0); [contradiction|].
  rewrite Hrv, Hcv. unfold SparMat.add_v_entry.
  rewrite (add_v_entry_live _ _ _ _ _ Hlr). cbn [Z.eqb]. cbv iota.
  rewrite (add_v_entry_deleted _ _ _ _ _ Hdc).
  eexists. split; [reflexivity|].
  assert (Hold : find_entry c (entries rv) = None).
  { specialize (Hcons r c). unfold ents in Hcons.
    rewrite Hrv, Hcv, Hempty in Hcons. exact Hcons. }
  split; [unfold cell, ents; rewrite Hrv, Hold; reflexivity|].
  split.
  - unfold SparMat.with_columns, SparMat.with_rows, cell. cbn [rows].
    rewrite (ents_set_vec_same _ _ _ _ _ Hrv).
    rewrite (put_find _ _ _ _ _ _ Har), Z.eqb_refl.
    unfold stored, SparMat.is_zero.
    destruct (Z.eqb_spec v 0); [contradiction | reflexivity].
  - unfold SparMat.get_m_entry, SparMat.check_m_indices,
      SparMat.with_columns, SparMat.with_rows.
    rewrite check_m_indices_in by (cbn; assumption).
    cbn [rows columns].
    rewrite (vec_at_set_vec_same _ _ _ _ _ Hrv).
    rewrite (vec_at_set_vec_same _ _ _ _ _ Hcv).
    unfold SparMat.get_v_entry.
    rewrite (get_v_entry_find _ 0 _ c (put_ascending _ _ _ _ _ Har)).
    rewrite (put_find _ _ _ _ _ _ Har), Z.eqb_refl.
    unfold stored, SparMat.is_zero.
    destruct (Z.eqb_spec v 0); [contradiction|].
    unfold Core.get_v_entry. rewrite Hempty. cbn [seek].
    destruct (Z.eqb_spec v 0); [contradiction | reflexivity].
Qed.

Lemma add_m_entry_failure_keeps_row_entry_witness :
  exists m',
    SparMat.add_m_entry tombstoned_2x1 1 1 5 =
      (m', -1, Some "add_v_entry: vector is already deleted"%string) /\
    cell tombstoned_2x1 1 1 = 0 /\ cell m' 1 1 = 5 /\
    SparMat.get_m_entry m' 1 1 =
      (SparMat.ERR_MVAL,
       Some "get_m_entry: row and column entries don't match"%string).
Proof.
  refine (add_m_entry_failure_keeps_row_entry tombstoned_2x1 1 1 5 _ _
            tombstoned_2x1_wf eq_refl eq_refl _ eq_refl _ _).
  - discriminate.
  - discriminate.
  - vm_compute. split; discriminate.
Defined.

(** X4: a call with an index outside the matrix fails with "wrong matrix
    indices" and returns the matrix as it was: [get_m_entry] and
    [remove_m_entry] return [ERR_MVAL], [add_m_entry], [erase_m_row],
    [erase_m_column], [add_m_rows] and [add_m_cols] return -1; and
    [add_m_entry] of a value beyond [ENTRY_MAX] into a cell in range
    fails with "entry's value is too big", the matrix untouched. *)
Theorem bad_arguments_rejected (m : SparMat.SparseMatrix) (r c v k s : Z) :
  let bad := Some "check_m_indices: wrong matrix indices"%string in
  (~ (1 <= r <= num_rows m /\ 1 <= c <= num_cols m) ->
   SparMat.get_m_entry m r c = (SparMat.ERR_MVAL, bad) /\
   SparMat.remove_m_entry m r c = (m, SparMat.ERR_MVAL, bad) /\
   SparMat.add_m_entry m r c v = (m, -1, bad)) /\
  (~ 1 <= r <= num_rows m ->
   SparMat.erase_m_row m r k = (m, -1, bad) /\
   SparMat.add_m_rows m r c s = (m, -1, bad) /\
   (1 <= c <= num_rows m -> 1 <= num_cols m ->
    SparMat.add_m_rows m c r s = (m, -1, bad))) /\
  (~ 1 <= c <= num_cols m ->
   SparMat.erase_m_column m c k = (m, -1, bad) /\
   SparMat.add_m_cols m c r s = (m, -1, bad) /\
   (1 <= r <= num_cols m -> 1 <= num_rows m ->
    SparMat.add_m_cols m r c s = (m, -1, bad))) /\
  (1 <= r <= num_rows m -> 1 <= c <= num_cols m ->
   v > SparMat.ENTRY_MAX \/ v < - SparMat.ENTRY_MAX ->
   SparMat.add_m_entry m r c v =
     (m, -1, Some "add_m_entry: entry's value is too big"%string)).
Proof.
  intros bad. split; [|split; [|split]].
  - intros Hbad.
    destruct (check_m_indices_cases _ m r c) as [(H1 & H2 & _)|[_ E]];
      [tauto|].
    unfold SparMat.get_m_entry, SparMat.remove_m_entry, SparMat.add_m_entry,
      SparMat.check_m_indices. rewrite E. auto.
  - intros Hbad.
    assert (E : forall j, check_m_indices m r j =
              (-1, Some "check_m_indices: wrong matrix indices"%string)).
    { intros j. destruct (check_m_indices_cases _ m r j)
        as [(H1 & _)|[_ E]]; [tauto | exact E]. }
    unfold SparMat.erase_m_row, SparMat.add_m_rows, Core.add_m_rows,
      SparMat.check_m_indices. rewrite !E.
    split; [reflexivity|]. split; [reflexivity|].
    intros Hc Hn. rewrite check_m_indices_in by lia. reflexivity.
  - intros Hbad.
    assert (E : forall j, check_m_indices m j c =
              (-1, Some "check_m_indices: wrong matrix indices"%string)).
    { intros j. destruct (check_m_indices_cases _ m j c)
        as [(_ & H1 & _)|[_ E]]; [tauto | exact E]. }
    unfold SparMat.erase_m_column, SparMat.add_m_cols, Core.add_m_cols,
      SparMat.check_m_indices. rewrite !E.
    split; [reflexivity|]. split; [reflexivity|].
    intros Hc Hn. rewrite check_m_indices_in by lia. reflexivity.
  - intros Hr Hc Hv. unfold SparMat.add_m_entry, SparMat.check_m_indices.
    rewrite check_m_indices_in by assumption.
    destruct (Z.gtb_spec v SparMat.ENTRY_MAX);
      destruct (Z.ltb_spec v (- SparMat.ENTRY_MAX)); try reflexivity; lia.
Qed.

Lemma bad_arguments_rejected_witness :
  SparMat.add_m_entry (SparMat.column_2x1 7) 3 1 5 =
    (SparMat.column_2x1 7, -1,
     Some "check_m_indices: wrong matrix indices"%string) /\
  SparMat.add_m_entry (SparMat.column_2x1 7) 1 1 1073741824 =
    (SparMat.column_2x1 7, -1,
     Some "add_m_entry: entry's value is too big"%string).
Proof.
  pose proof (bad_arguments_rejected (SparMat.column_2x1 7) 3 1 5 0 0)
    as (H1 & _).
  pose proof (bad_arguments_rejected (SparMat.column_2x1 7) 1 1 1073741824
                0 0) as (_ & _ & _ & H4).
  split.
  - apply H1. change (num_rows (SparMat.column_2x1 7)) with 2. lia.
  - apply H4.
    + change (num_rows (SparMat.column_2x1 7)) with 2. lia.
    + change (num_cols (SparMat.column_2x1 7)) with 1. lia.
    + left. vm_compute. reflexivity.
Defined.

(** [erase_m_colrow] on the entries of a vector whose orthogonal vectors
    are alive and hold the same values. *)
Lemma erase_loop_total cr_ind (l : list SparMat.SparseEntry) :
  forall lo n (others : list SparMat.SparseVector),
  ascending_from lo l ->
  (forall e, In e l ->
     value e <> SparMat.ERR_MVAL /\
     exists ov, vec_at others (index e) = Some ov /\ num_entries ov <> -1 /\
                ascending (entries ov) /\
                find_entry cr_ind (entries ov) = Some (value e)) ->
  exists others',
    SparMat.erase_loop cr_ind l n others =
    ([], n - Z.of_nat (length l), others', 0, None).
Proof.
  induction l as [|e t IH]; intros lo n others Hasc Hall.
  - exists others. replace (n - Z.of_nat (length (@nil SparMat.SparseEntry)))
      with n by (simpl; lia).
    reflexivity.
  - cbn [SparMat.erase_loop].
    destruct (Hall e (or_introl eq_refl)) as (Hne & ov & Hov & Hlive & Ha & Hf).
    rewrite Hov, (SparMat.remove_v_entry_live _ _ Hlive).
    rewrite (remove_found_fst _ _ _ Ha), Hf.
    destruct (Z.eqb_spec (value e) SparMat.ERR_MVAL); [contradiction|].
    rewrite Z.eqb_refl. cbn [negb].
    destruct Hasc as [Hlo Ht].
    destruct (IH (index e) (n - 1)
                (set_vec others (index e) (snd (remove_found ov cr_ind))) Ht)
      as (others' & E).
    { intros e' Hin. destruct (Hall e' (or_intror Hin))
        as (Hne' & ov' & Hov' & Hrest).
      split; [exact Hne'|]. exists ov'. split; [|exact Hrest].
      rewrite vec_at_set_vec_other; [exact Hov'|].
      assert (index e < index e'); [|lia].
      clear - Ht Hin. revert Ht. generalize (index e).
      induction t as [|a t IHt]; intros z Ht; [contradiction|].
      destruct Ht as [Hz Ht]. destruct Hin as [->|Hin]; [exact Hz|].
      specialize (IHt Hin _ Ht). lia. }
    exists others'.
    replace (n - Z.of_nat (length (e :: t)))
      with (n - 1 - Z.of_nat (length t)) by (cbn [length]; lia).
    exact E.
Qed.

Lemma erase_m_colrow_total (A B : list SparMat.SparseVector) i v do_del :
  fam_wf SparMat.is_zero A B -> vec_at A i = Some v ->
  num_entries v <> -1 ->
  (forall e, In e (entries v) -> value e <> SparMat.ERR_MVAL) ->
  exists B',
    SparMat.erase_m_colrow v i B do_del =
    (mkVector (if do_del =? 0 then 0 else -1) [], B', 0, None).
Proof.
  intros Hf Hv Hlive Hne.
  pose proof Hf as (HA & HB & Hcons).
  pose proof (vec_wf_at _ _ _ _ _ _ HA Hv) as Hw.
  pose proof (vec_wf_live _ _ _ _ Hw Hlive) as Hcount.
  destruct Hw as (Hasc & _ & _).
  unfold SparMat.erase_m_colrow.
  destruct (Z.eqb_spec (num_entries v) (-1)); [contradiction|].
  destruct (ascending_common _ _ _ Hasc Hasc) as (lo & Hlo & _).
  destruct (erase_loop_total i (entries v) lo (num_entries v) B Hlo)
    as (B' & E).
  { intros e Hin. split; [exact (Hne e Hin)|].
    pose proof (In_find_entry _ _ _ Hasc Hin) as Hfe.
    destruct (SparMat.fam_wf_other_live A B i v (index e) (value e)
                Hf Hv Hfe) as (ov & Hov & Hl).
    exists ov. split; [exact Hov|]. split; [exact Hl|].
    split; [apply (vec_wf_at _ _ _ _ _ _ HB Hov)|].
    specialize (Hcons i (index e)). unfold ents in Hcons.
    rewrite Hv, Hov in Hcons. congruence. }
  exists B'. rewrite E. unfold counted in Hcount.
  replace (num_entries v - Z.of_nat (length (entries v))) with 0 by lia.
  reflexivity.
Qed.

Lemma cell_by_column (m : SparMat.SparseMatrix) r c :
  consistent (rows m) (columns m) ->
  cell m r c =
  match find_entry r (ents (columns m) c) with Some v => v | None => 0 end.
Proof. intros H. unfold cell. rewrite (H r c). reflexivity. Qed.

Lemma entries_not_sentinel (m : SparMat.SparseMatrix) :
  SparMat.msound m ->
  (forall r c, cell m r c <> SparMat.ERR_MVAL) ->
  (forall r rv e, vec_at (rows m) r = Some rv -> In e (entries rv) ->
                  value e <> SparMat.ERR_MVAL) /\
  (forall c cv e, vec_at (columns m) c = Some cv -> In e (entries cv) ->
                  value e <> SparMat.ERR_MVAL).
Proof.
  intros [_ (HA & HB & Hcons)] Hne. split.
  - intros r rv e Hrv Hin. specialize (Hne r (index e)).
    unfold cell, ents in Hne. rewrite Hrv in Hne.
    rewrite (In_find_entry _ _ _ (all_ascending_at _ _ _ _ HA Hrv) Hin)
      in Hne. exact Hne.
  - intros c cv e Hcv Hin. specialize (Hne (index e) c).
    rewrite (cell_by_column _ _ _ Hcons) in Hne. unfold ents in Hne.
    rewrite Hcv in Hne.
    rewrite (In_find_entry _ _ _ (all_ascending_at _ _ _ _ HB Hcv) Hin)
      in Hne. exact Hne.
Qed.

(** X5: on a matrix satisfying the invariants in which no cell holds
    [ERR_MVAL], [erase_m_row] of a row that is not deleted succeeds; the
    invariants hold again, every cell of the row reads 0, every cell of
    another row reads as before, and the row is left empty ([do_del] = 0)
    or deleted; [erase_m_column] does the same for a column. *)
Theorem erase_clears_line (m : SparMat.SparseMatrix) (k d : Z) :
  SparMat.wf m -> (forall r c, cell m r c <> SparMat.ERR_MVAL) ->
  (forall rv, vec_at (rows m) k = Some rv -> num_entries rv <> -1 ->
     1 <= num_cols m ->
     exists m',
       SparMat.erase_m_row m k d = (m', 0, None) /\ SparMat.wf m' /\
       vec_at (rows m') k = Some (mkVector (if d =? 0 then 0 else -1) []) /\
       (forall c, 1 <= c <= num_cols m ->
                  SparMat.get_m_entry m' k c = (0, None)) /\
       (forall r c, 1 <= r <= num_rows m -> 1 <= c <= num_cols m -> r <> k ->
                    SparMat.get_m_entry m' r c = SparMat.get_m_entry m r c)) /\
  (forall cv, vec_at (columns m) k = Some cv -> num_entries cv <> -1 ->
     1 <= num_rows m ->
     exists m',
       SparMat.erase_m_column m k d = (m', 0, None) /\ SparMat.wf m' /\
       vec_at (columns m') k =
         Some (mkVector (if d =? 0 then 0 else -1) []) /\
       (forall r, 1 <= r <= num_rows m ->
                  SparMat.get_m_entry m' r k = (0, None)) /\
       (forall r c, 1 <= r <= num_rows m -> 1 <= c <= num_cols m -> c <> k ->
                    SparMat.get_m_entry m' r c = SparMat.get_m_entry m r c)).
Proof.
  intros Hwf Hne.
  pose proof (wf_msound _ _ _ Hwf) as Hm.
  destruct (entries_not_sentinel m Hm Hne) as [HneR HneC].
  pose proof Hwf as [[Hnr Hnc] Hf].
  pose proof Hm as (_ & _ & _ & Hcons).
  split.
  - intros rv Hrv Hlive Hcols.
    assert (Hk : 1 <= k <= num_rows m) by (apply vec_at_range in Hrv; lia).
    destruct (erase_m_colrow_total (rows m) (columns m) k rv d Hf Hrv Hlive
                (fun e => HneR k rv e Hrv)) as (B' & E).
    assert (Hrun : SparMat.erase_m_row m k d =
              (mkMatrix (num_rows m) (num_cols m)
                 (set_vec (rows m) k
                    (mkVector (if d =? 0 then 0 else -1) [])) B', 0, None)).
    { unfold SparMat.erase_m_row, SparMat.check_m_indices.
      rewrite check_m_indices_in by lia. rewrite Hrv, E. reflexivity. }
    eexists. split; [exact Hrun|].
    pose proof (SparMat.erase_m_row_wf _ _ _ _ _ _ Hwf Hrun
                  ltac:(discriminate)) as Hwf'.
    pose proof (wf_msound _ _ _ Hwf') as Hm'.
    split; [exact Hwf'|]. cbn [rows].
    split; [apply (vec_at_set_vec_same _ _ _ _ _ Hrv)|]. split.
    + intros c Hc. rewrite (get_m_entry_cell _ k c Hm') by (cbn; assumption).
      rewrite (cell_set_row m k rv _ _ k c Hrv), Z.eqb_refl. reflexivity.
    + intros r c Hr Hc Hrk.
      rewrite (get_m_entry_cell _ r c Hm') by (cbn; assumption).
      rewrite (get_m_entry_cell m r c Hm Hr Hc).
      rewrite (cell_set_row m k rv _ _ r c Hrv).
      destruct (Z.eqb_spec r k); [contradiction | reflexivity].
  - intros cv Hcv Hlive Hrows.
    assert (Hk : 1 <= k <= num_cols m) by (apply vec_at_range in Hcv; lia).
    destruct (erase_m_colrow_total (columns m) (rows m) k cv d
                (fam_wf_sym _ _ _ _ Hf) Hcv Hlive
                (fun e => HneC k cv e Hcv))
      as (B' & E).
    assert (Hrun : SparMat.erase_m_column m k d =
              (mkMatrix (num_rows m) (num_cols m) B'
                 (set_vec (columns m) k
                    (mkVector (if d =? 0 then 0 else -1) [])), 0, None)).
    { unfold SparMat.erase_m_column, SparMat.check_m_indices.
      rewrite check_m_indices_in by lia. rewrite Hcv, E. reflexivity. }
    eexists. split; [exact Hrun|].
    pose proof (SparMat.erase_m_column_wf _ _ _ _ _ _ Hwf Hrun
                  ltac:(discriminate)) as Hwf'.
    pose proof (wf_msound _ _ _ Hwf') as Hm'.
    pose proof Hm' as (_ & _ & _ & Hcons').
    split; [exact Hwf'|]. cbn [columns].
    split; [apply (vec_at_set_vec_same _ _ _ _ _ Hcv)|]. split.
    + intros r Hr. rewrite (get_m_entry_cell _ r k Hm') by (cbn; assumption).
      rewrite (cell_by_column _ _ _ Hcons'). cbn [columns].
      rewrite (ents_set_vec_same _ _ _ _ _ Hcv). reflexivity.
    + intros r c Hr Hc Hck.
      rewrite (get_m_entry_cell _ r c Hm') by (cbn; assumption).
      rewrite (get_m_entry_cell m r c Hm Hr Hc).
      rewrite (cell_by_column _ _ _ Hcons'), (cell_by_column _ _ _ Hcons).
      cbn [columns]. rewrite ents_set_vec_other by congruence. reflexivity.
Qed.

Lemma erase_clears_line_witness :
  exists m',
    SparMat.erase_m_row (SparMat.column_2x1 7) 2 0 = (m', 0, None) /\
    SparMat.wf m' /\
    vec_at (rows m') 2 = Some (mkVector 0 []) /\
    (forall c, 1 <= c <= num_cols (SparMat.column_2x1 7) ->
               SparMat.get_m_entry m' 2 c = (0, None)) /\
    (forall r c, 1 <= r <= num_rows (SparMat.column_2x1 7) ->
                 1 <= c <= num_cols (SparMat.column_2x1 7) -> r <> 2 ->
                 SparMat.get_m_entry m' r c =
                 SparMat.get_m_entry (SparMat.column_2x1 7) r c).
Proof.
  refine (proj1 (erase_clears_line (SparMat.column_2x1 7) 2 0 _ _)
            _ eq_refl _ _).
  - apply SparMat.column_2x1_wf. vm_compute. split; discriminate.
  - intros r c. unfold cell.
    change (rows (SparMat.column_2x1 7))
      with [mkVector 0 (@nil SparMat.SparseEntry);
            mkVector 1 [mkEntry 1 7]].
    unfold ents, vec_at.
    destruct (r <? 1); [discriminate|].
    destruct (Z.to_nat (r - 1)) as [|[|[|n]]]; cbn; try discriminate.
    destruct c as [|q|q]; try discriminate.
    destruct (1 =? q)%positive; discriminate.
  - discriminate.
  - change (num_cols (SparMat.column_2x1 7)) with 1. lia.
Defined.

Lemma first_unit_split (absf : Z -> Z) (l : list SparMat.SparseEntry) :
  match first_unit absf l with
  | None => Forall (fun e => absf (value e) <> 1) l
  | Some e =>
      exists before after,
        l = before ++ e :: after /\
        Forall (fun x => absf (value x) <> 1) before /\ absf (value e) = 1
  end.
Proof.
  induction l as [|a t IH]; simpl; [constructor|].
  destruct (Z.eqb_spec (absf (value a)) 1) as [Ha|Ha].
  - exists [], t. auto.
  - destruct (first_unit absf t) as [e|].
    + destruct IH as (before & after & -> & Hb & He).
      exists (a :: before), after. auto.
    + constructor; assumption.
Qed.

(** X6: [find_v_unit] on a deleted vector returns -1 with an error
    message; on any other vector it returns the index and the value of
    the first entry of the list whose absolute value is 1 (the entries
    before it are not invertible), or 0 when there is no such entry; and
    for an [int] other than [INT_MIN] the absolute value is 1 exactly
    for 1 and -1. *)
Theorem find_v_unit_spec (vec : SparMat.SparseVector) :
  (num_entries vec = -1 ->
   SparMat.find_v_unit vec =
     (-1, None, Some "find_v_unit: vector is already deleted"%string)) /\
  (num_entries vec <> -1 ->
   (SparMat.find_v_unit vec = (0, None, None) /\
    Forall (fun e => SparMat.ABSFUNC (value e) <> 1) (entries vec)) \/
   (exists before e after,
      entries vec = before ++ e :: after /\
      Forall (fun x => SparMat.ABSFUNC (value x) <> 1) before /\
      SparMat.ABSFUNC (value e) = 1 /\
      SparMat.find_v_unit vec = (index e, Some (value e), None))) /\
  (forall v, - SparMat.INT_MAX <= v <= SparMat.INT_MAX ->
             (SparMat.ABSFUNC v = 1 <-> v = 1 \/ v = -1)).
Proof.
  unfold SparMat.find_v_unit, Core.find_v_unit. split; [|split].
  - intros ->. reflexivity.
  - intros Hlive.
    destruct (Z.eqb_spec (num_entries vec) (-1)); [contradiction|].
    pose proof (first_unit_split SparMat.ABSFUNC (entries vec)) as Hs.
    destruct (first_unit SparMat.ABSFUNC (entries vec)) as [e|].
    + right. destruct Hs as (before & after & E & Hb & He).
      exists before, e, after. auto.
    + left. auto.
  - intros v Hv.
    destruct (SparMat.int_small v) as [_ Habs];
      [unfold SparMat.INT_MAX in *; lia|].
    rewrite Habs. lia.
Qed.

Lemma find_v_unit_spec_witness :
  SparMat.find_v_unit (mkVector (-1) []) =
    (-1, None, Some "find_v_unit: vector is already deleted"%string) /\
  (SparMat.ABSFUNC (-1) = 1 <-> -1 = 1 \/ -1 = -1).
Proof.
  split.
  - apply (proj1 (find_v_unit_spec (mkVector (-1) []))). reflexivity.
  - apply (proj2 (proj2 (find_v_unit_spec (mkVector 0 [])))).
    vm_compute. split; discriminate.
Defined.

Lemma check_vectors_empty (vecs others : list SparMat.SparseVector) :
  forall i max_index, 0 <= max_index ->
  Forall (fun v => v = mkVector 0 []) vecs ->
  SparMat.check_vectors vecs i max_index others = (0, None).
Proof.
  induction vecs as [|v t IH]; intros i max_index Hmax Hall; [reflexivity|].
  inversion Hall as [|? ? Hv Ht]; subst.
  cbn [SparMat.check_vectors]. unfold SparMat.check_v_data.
  cbn [num_entries entries SparMat.check_loop].
  destruct (Z.gtb_spec 0 max_index); [lia|]. cbn.
  apply IH; assumption.
Qed.

(** X7: [init_s_matrix] refuses a number of rows or columns below 1;
    otherwise it returns 0 and a matrix of the size asked for that
    satisfies the invariants, reads 0 in every cell and passes
    [check_m_data]. *)
Theorem init_s_matrix_spec (n_rows n_cols : Z) :
  (n_rows < 1 \/ n_cols < 1 ->
   SparMat.init_s_matrix n_rows n_cols =
     (None, -1,
      Some "init_s_matrix: number of rows or columns is too small"%string))
  /\
  (1 <= n_rows -> 1 <= n_cols ->
   exists m,
     SparMat.init_s_matrix n_rows n_cols = (Some m, 0, None) /\
     num_rows m = n_rows /\ num_cols m = n_cols /\ SparMat.wf m /\
     (forall r c, 1 <= r <= n_rows -> 1 <= c <= n_cols ->
                  SparMat.get_m_entry m r c = (0, None)) /\
     SparMat.check_m_data m = (0, None)).
Proof.
  unfold SparMat.init_s_matrix, Core.init_s_matrix. split.
  - intros Hbad.
    destruct (Z.ltb_spec n_rows 1); [reflexivity|].
    destruct (Z.ltb_spec n_cols 1); [reflexivity | lia].
  - intros Hr Hc.
    assert (E : Core.init_s_matrix Z n_rows n_cols =
              (Some (mkMatrix n_rows n_cols
                       (repeat (mkVector 0 []) (Z.to_nat n_rows))
                       (repeat (mkVector 0 []) (Z.to_nat n_cols))), 0, None)).
    { unfold Core.init_s_matrix.
      destruct (Z.ltb_spec n_rows 1); [lia|].
      destruct (Z.ltb_spec n_cols 1); [lia | reflexivity]. }
    pose proof (init_s_matrix_wf Z SparMat.is_zero _ _ _ _ _ E) as Hwf.
    unfold Core.init_s_matrix in E. rewrite E.
    eexists. split; [reflexivity|]. split; [reflexivity|].
    split; [reflexivity|]. split; [exact Hwf|]. split.
    + intros r c Hr' Hc'.
      rewrite (get_m_entry_cell _ r c (wf_msound _ _ _ Hwf))
        by (cbn; assumption).
      unfold cell, ents. cbn [rows]. rewrite vec_at_repeat.
      destruct (_ && _); reflexivity.
    + unfold SparMat.check_m_data. cbn [num_rows num_cols rows columns].
      rewrite !firstn_all2 by (rewrite repeat_length; lia).
      rewrite !check_vectors_empty; try lia; try reflexivity;
        apply Forall_forall; intros v Hin;
        apply repeat_spec in Hin; exact Hin.
Qed.

Lemma init_s_matrix_spec_witness :
  exists m,
    SparMat.init_s_matrix 2 3 = (Some m, 0, None) /\
    num_rows m = 2 /\ num_cols m = 3 /\ SparMat.wf m /\
    (forall r c, 1 <= r <= 2 -> 1 <= c <= 3 ->
                 SparMat.get_m_entry m r c = (0, None)) /\
    SparMat.check_m_data m = (0, None).
Proof. apply (proj2 (init_s_matrix_spec 2 3)); lia. Defined.

Lemma merged_cells (m : SparMat.SparseMatrix) r1 r2 v1 v2 s c :
  all_ascending (rows m) ->
  vec_at (rows m) r1 = Some v1 -> vec_at (rows m) r2 = Some v2 ->
  SparMat.merged v1 v2 s c = cell m r1 c + s * cell m r2 c.
Proof.
  intros HA H1 H2. unfold SparMat.merged, SparMat.get_v_entry, cell, ents.
  rewrite H1, H2.
  rewrite (get_v_entry_find _ 0 v1 c (all_ascending_at _ _ _ _ HA H1)).
  rewrite (get_v_entry_find _ 0 v2 c (all_ascending_at _ _ _ _ HA H2)).
  reflexivity.
Qed.

(** What a call of [add_m_rows] within the bound leaves behind. *)
Lemma add_m_rows_cells (m : SparMat.SparseMatrix) r1 r2 s v1 v2 :
  SparMat.wf m ->
  vec_at (rows m) r1 = Some v1 -> vec_at (rows m) r2 = Some v2 ->
  num_entries v1 <> -1 -> num_entries v2 <> -1 -> 1 <= num_cols m ->
  (forall c, Z.abs (cell m r1 c + s * cell m r2 c) <= SparMat.ENTRY_MAX) ->
  exists m' ret v1',
    SparMat.add_m_rows m r1 r2 s = (m', ret, None) /\ 0 <= ret /\
    SparMat.wf m' /\
    num_rows m' = num_rows m /\ num_cols m' = num_cols m /\
    rows m' = set_vec (rows m) r1 v1' /\ num_entries v1' <> -1 /\
    (forall c, cell m' r1 c = cell m r1 c + s * cell m r2 c) /\
    (forall r c, r <> r1 -> cell m' r c = cell m r c).
Proof.
  intros Hwf Hv1 Hv2 Hl1 Hl2 Hcols Hbound.
  pose proof Hwf as [[Hnr Hnc] Hf].
  pose proof (fam_wf_sound _ _ _ _ Hf) as (HA & HB & Hcons).
  assert (H1 : 1 <= r1 <= num_rows m) by (apply vec_at_range in Hv1; lia).
  assert (H2 : 1 <= r2 <= num_rows m) by (apply vec_at_range in Hv2; lia).
  destruct (SparMat.add_m_colrows_exact (rows m) (columns m) r1 r2 v1 v2 s
              Hf Hv1 Hv2 Hl1 Hl2)
    as (v1' & B' & ret & E & Hf' & Hlen & Hfind & _ & _ & Hatt).
  { intros c _. rewrite (merged_cells m r1 r2 v1 v2 s c HA Hv1 Hv2).
    apply Hbound. }
  assert (Hret : 0 <= ret) by (destruct Hatt as [->|(c & _ & ->)]; lia).
  destruct (add_m_colrows_success _ _ _ _ _ _ _ _ _ _ _ _ _ _ _
              (all_ascending_at _ _ _ _ HA Hv1)
              (all_ascending_at _ _ _ _ HA Hv2) E ltac:(lia))
    as (_ & _ & _ & _ & Hnum & _).
  pose proof (vec_wf_live _ _ _ _ (vec_wf_at _ _ _ _ _ _ (proj1 Hf) Hv1) Hl1)
    as Hcount.
  unfold counted in Hcount.
  exists (mkMatrix (num_rows m) (num_cols m) (set_vec (rows m) r1 v1') B'),
    ret, v1'.
  split.
  { unfold SparMat.add_m_rows.
    rewrite (add_m_rows_eq _ _ _ _ _ _ m r1 r2 s v1 v2 H1 H2 Hcols Hv1 Hv2).
    rewrite E. reflexivity. }
  split; [exact Hret|]. split.
  { split; [|exact Hf']. split; cbn [num_rows num_cols rows columns].
    - rewrite set_vec_length. exact Hnr.
    - rewrite Hlen. exact Hnc. }
  split; [reflexivity|]. split; [reflexivity|]. split; [reflexivity|].
  split; [lia|]. split.
  - intros c. rewrite (cell_set_row m r1 v1 _ _ r1 c Hv1), Z.eqb_refl.
    rewrite Hfind, (merged_cells m r1 r2 v1 v2 s c HA Hv1 Hv2).
    destruct (Z.eqb_spec (cell m r1 c + s * cell m r2 c) 0) as [->|];
      reflexivity.
  - intros r c Hr. rewrite (cell_set_row m r1 v1 _ _ r c Hv1).
    destruct (Z.eqb_spec r r1); [contradiction | reflexivity].
Qed.

(** X8: on a matrix satisfying the invariants, for rows r1 and r2 that
    are not deleted and a scalar s such that every r1[c] + s * r2[c] is
    within [ENTRY_MAX], [add_m_rows] succeeds with a non-negative result;
    afterwards [get_m_entry] reads r1[c] + s * r2[c] in every cell of row
    r1 and the former value in every cell of the other rows, and the
    invariants hold. *)
Theorem add_m_rows_reads (m : SparMat.SparseMatrix) (r1 r2 s : Z)
    (v1 v2 : SparMat.SparseVector) :
  SparMat.wf m ->
  vec_at (rows m) r1 = Some v1 -> vec_at (rows m) r2 = Some v2 ->
  num_entries v1 <> -1 -> num_entries v2 <> -1 -> 1 <= num_cols m ->
  (forall c, Z.abs (cell m r1 c + s * cell m r2 c) <= SparMat.ENTRY_MAX) ->
  exists m' ret,
    SparMat.add_m_rows m r1 r2 s = (m', ret, None) /\ 0 <= ret /\
    SparMat.wf m' /\
    (forall c, 1 <= c <= num_cols m ->
       SparMat.get_m_entry m' r1 c =
       (fst (SparMat.get_m_entry m r1 c) + s * fst (SparMat.get_m_entry m r2 c),
        None)) /\
    (forall r c, 1 <= r <= num_rows m -> 1 <= c <= num_cols m -> r <> r1 ->
       SparMat.get_m_entry m' r c = SparMat.get_m_entry m r c).
Proof.
  intros Hwf Hv1 Hv2 Hl1 Hl2 Hcols Hbound.
  destruct (add_m_rows_cells m r1 r2 s v1 v2 Hwf Hv1 Hv2 Hl1 Hl2 Hcols Hbound)
    as (m' & ret & v1' & Hrun & Hret & Hwf' & Hnr' & Hnc' & _ & _ & Hc1 & Hc2).
  pose proof (wf_msound _ _ _ Hwf) as Hm.
  pose proof (wf_msound _ _ _ Hwf') as Hm'.
  pose proof Hm as [[Hnr Hnc] _].
  assert (H1 : 1 <= r1 <= num_rows m) by (apply vec_at_range in Hv1; lia).
  assert (H2 : 1 <= r2 <= num_rows m) by (apply vec_at_range in Hv2; lia).
  exists m', ret. split; [exact Hrun|]. split; [exact Hret|].
  split; [exact Hwf'|]. split.
  - intros c Hc.
    rewrite (get_m_entry_cell m' r1 c Hm') by lia.
    rewrite (get_m_entry_cell m r1 c Hm H1 Hc).
    rewrite (get_m_entry_cell m r2 c Hm H2 Hc). cbn [fst].
    rewrite Hc1. reflexivity.
  - intros r c Hr Hc Hne.
    rewrite (get_m_entry_cell m' r c Hm') by lia.
    rewrite (get_m_entry_cell m r c Hm Hr Hc).
    rewrite (Hc2 r c Hne). reflexivity.
Qed.

(** The cells of the 2 x 1 matrix with (2,1) = 7. *)
Lemma column_2x1_cells r c :
  cell (SparMat.column_2x1 7) r c = 0 \/ cell (SparMat.column_2x1 7) r c = 7.
Proof.
  unfold cell.
  change (rows (SparMat.column_2x1 7))
    with [mkVector 0 (@nil SparMat.SparseEntry); mkVector 1 [mkEntry 1 7]].
  unfold ents, vec_at.
  destruct (r <? 1); [left; reflexivity|].
  destruct (Z.to_nat (r - 1)) as [|[|[|n]]]; cbn; auto.
  destruct c as [|q|q]; auto. destruct (1 =? q)%positive; auto.
Qed.

Lemma add_m_rows_reads_witness :
  exists m' ret,
    SparMat.add_m_rows (SparMat.column_2x1 7) 1 2 5 = (m', ret, None) /\
    0 <= ret /\ SparMat.wf m' /\
    (forall c, 1 <= c <= num_cols (SparMat.column_2x1 7) ->
       SparMat.get_m_entry m' 1 c =
       (fst (SparMat.get_m_entry (SparMat.column_2x1 7) 1 c) +
        5 * fst (SparMat.get_m_entry (SparMat.column_2x1 7) 2 c), None)) /\
    (forall r c, 1 <= r <= num_rows (SparMat.column_2x1 7) ->
       1 <= c <= num_cols (SparMat.column_2x1 7) -> r <> 1 ->
       SparMat.get_m_entry m' r c =
       SparMat.get_m_entry (SparMat.column_2x1 7) r c).
Proof.
  refine (add_m_rows_reads (SparMat.column_2x1 7) 1 2 5 _ _ _ eq_refl eq_refl
            _ _ _ _).
  - apply SparMat.column_2x1_wf. vm_compute. split; discriminate.
  - discriminate.
  - discriminate.
  - change (num_cols (SparMat.column_2x1 7)) with 1. lia.
  - intros c. rewrite SparMat.ENTRY_MAX_val.
    destruct (column_2x1_cells 1 c) as [-> | ->];
      destruct (column_2x1_cells 2 c) as [-> | ->]; simpl; lia.
Defined.

(** X9: adding s times row r2 to row r1 and then -s times row r2 gives
    the matrix back.  On a matrix satisfying the invariants, for two
    different rows that are not deleted, when the entries of row r1 and
    the sums r1[c] + s * r2[c] are within [ENTRY_MAX], both calls of
    [add_m_rows] succeed and [get_m_entry] reads in every cell what it
    read before the two calls. *)
Theorem add_m_rows_undone (m : SparMat.SparseMatrix) (r1 r2 s : Z)
    (v1 v2 : SparMat.SparseVector) :
  SparMat.wf m -> r1 <> r2 ->
  vec_at (rows m) r1 = Some v1 -> vec_at (rows m) r2 = Some v2 ->
  num_entries v1 <> -1 -> num_entries v2 <> -1 -> 1 <= num_cols m ->
  (forall c, Z.abs (cell m r1 c) <= SparMat.ENTRY_MAX) ->
  (forall c, Z.abs (cell m r1 c + s * cell m r2 c) <= SparMat.ENTRY_MAX) ->
  exists m1 ret1 m2 ret2,
    SparMat.add_m_rows m r1 r2 s = (m1, ret1, None) /\
    SparMat.add_m_rows m1 r1 r2 (- s) = (m2, ret2, None) /\
    SparMat.wf m2 /\
    forall r c, 1 <= r <= num_rows m -> 1 <= c <= num_cols m ->
      SparMat.get_m_entry m2 r c = SparMat.get_m_entry m r c.
Proof.
  intros Hwf Hne Hv1 Hv2 Hl1 Hl2 Hcols Hb0 Hb1.
  destruct (add_m_rows_cells m r1 r2 s v1 v2 Hwf Hv1 Hv2 Hl1 Hl2 Hcols Hb1)
    as (m1 & ret1 & v1' & Hrun1 & _ & Hwf1 & Hnr1 & Hnc1 & Hrows1 & Hl1'
        & Hc1 & Hc1').
  assert (Hv1' : vec_at (rows m1) r1 = Some v1')
    by (rewrite Hrows1; apply (vec_at_set_vec_same _ _ _ _ _ Hv1)).
  assert (Hv2' : vec_at (rows m1) r2 = Some v2)
    by (rewrite Hrows1, vec_at_set_vec_other by congruence; exact Hv2).
  destruct (add_m_rows_cells m1 r1 r2 (- s) v1' v2 Hwf1 Hv1' Hv2' Hl1' Hl2
              ltac:(lia))
    as (m2 & ret2 & v1'' & Hrun2 & _ & Hwf2 & Hnr2 & Hnc2 & _ & _
        & Hc2 & Hc2').
  { intros c. rewrite Hc1, (Hc1' r2 c) by congruence.
    replace (cell m r1 c + s * cell m r2 c + - s * cell m r2 c)
      with (cell m r1 c) by ring.
    apply Hb0. }
  exists m1, ret1, m2, ret2.
  split; [exact Hrun1|]. split; [exact Hrun2|]. split; [exact Hwf2|].
  intros r c Hr Hc.
  rewrite (get_m_entry_cell m2 r c (wf_msound _ _ _ Hwf2)) by lia.
  rewrite (get_m_entry_cell m r c (wf_msound _ _ _ Hwf) Hr Hc).
  f_equal.
  destruct (Z.eq_dec r r1) as [->|Hr1].
  - rewrite Hc2, Hc1, (Hc1' r2 c) by congruence. ring.
  - rewrite (Hc2' r c Hr1), (Hc1' r c Hr1). reflexivity.
Qed.

Lemma add_m_rows_undone_witness :
  exists m1 ret1 m2 ret2,
    SparMat.add_m_rows (SparMat.column_2x1 7) 1 2 5 = (m1, ret1, None) /\
    SparMat.add_m_rows m1 1 2 (- 5) = (m2, ret2, None) /\
    SparMat.wf m2 /\
    forall r c, 1 <= r <= num_rows (SparMat.column_2x1 7) ->
      1 <= c <= num_cols (SparMat.column_2x1 7) ->
      SparMat.get_m_entry m2 r c =
      SparMat.get_m_entry (SparMat.column_2x1 7) r c.
Proof.
  refine (add_m_rows_undone (SparMat.column_2x1 7) 1 2 5 _ _ _ _
            eq_refl eq_refl _ _ _ _ _).
  - apply SparMat.column_2x1_wf. vm_compute. split; discriminate.
  - discriminate.
  - discriminate.
  - discriminate.
  - change (num_cols (SparMat.column_2x1 7)) with 1. lia.
  - intros c. rewrite SparMat.ENTRY_MAX_val.
    destruct (column_2x1_cells 1 c) as [-> | ->]; simpl; lia.
  - intros c. rewrite SparMat.ENTRY_MAX_val.
    destruct (column_2x1_cells 1 c) as [-> | ->];
      destruct (column_2x1_cells 2 c) as [-> | ->]; simpl; lia.
Defined.

(* ------------------------------------------------------------------ *)
(** ** The arithmetic of [sparmat-U.c] *)

#[local] Existing Instance eqm_setoid.
#[local] Existing Instance Zplus_eqm.
#[local] Existing Instance Zmult_eqm.

(** Both sides are reductions of polynomials that are equal as
    integers. *)
Ltac wrap_ring bits :=
  apply CInt.wrap_eqm;
  match goal with
  | |- ?a mod ?n = ?b mod ?n => change (eqm n a b)
  end;
  repeat setoid_rewrite (SparMatU.wrap_cong bits);
  match goal with
  | |- eqm _ ?a ?b => replace a with b by ring; reflexivity
  end.

(** X10: with the arithmetic of [SM_value_t] wrapping around,
    [add_Uvals] and [mult_Uvals] are commutative and associative,
    [mult_Uvals] distributes over [add_Uvals] and maps zero to zero; on
    elements whose components fit [SM_value_t], zero is neutral for
    [add_Uvals] and (1,0) for [mult_Uvals]. *)
Theorem Uvals_ring_laws (value_bits : positive) (x y z : SparMatU.Uval) :
  SparMatU.add_Uvals value_bits x y = SparMatU.add_Uvals value_bits y x /\
  SparMatU.add_Uvals value_bits (SparMatU.add_Uvals value_bits x y) z =
    SparMatU.add_Uvals value_bits x (SparMatU.add_Uvals value_bits y z) /\
  SparMatU.mult_Uvals value_bits x y = SparMatU.mult_Uvals value_bits y x /\
  SparMatU.mult_Uvals value_bits (SparMatU.mult_Uvals value_bits x y) z =
    SparMatU.mult_Uvals value_bits x (SparMatU.mult_Uvals value_bits y z) /\
  SparMatU.mult_Uvals value_bits x (SparMatU.add_Uvals value_bits y z) =
    SparMatU.add_Uvals value_bits (SparMatU.mult_Uvals value_bits x y)
                                  (SparMatU.mult_Uvals value_bits x z) /\
  SparMatU.mult_Uvals value_bits x SparMatU.Uzero = SparMatU.Uzero /\
  (CInt.in_range value_bits (fst x) -> CInt.in_range value_bits (snd x) ->
   SparMatU.add_Uvals value_bits x SparMatU.Uzero = x /\
   SparMatU.mult_Uvals value_bits x (1, 0) = x).
Proof.
  destruct x as [a b], y as [c d], z as [e f].
  unfold SparMatU.add_Uvals, SparMatU.mult_Uvals, SparMatU.Uzero.
  cbn [fst snd].
  split; [f_equal; wrap_ring value_bits|].
  split; [f_equal; wrap_ring value_bits|].
  split; [f_equal; wrap_ring value_bits|].
  split; [f_equal; wrap_ring value_bits|].
  split; [f_equal; wrap_ring value_bits|].
  split.
  - rewrite !Z.mul_0_r, !CInt.wrap_0. change (0 + 0) with 0.
    rewrite ?CInt.wrap_0. reflexivity.
  - intros Ha Hb. split.
    + rewrite !Z.add_0_r, (CInt.wrap_small _ _ Ha), (CInt.wrap_small _ _ Hb).
      reflexivity.
    + rewrite !Z.mul_1_r, !Z.mul_0_r, !CInt.wrap_0, !Z.add_0_r, !Z.add_0_l,
        !CInt.wrap_idem, (CInt.wrap_small _ _ Ha), (CInt.wrap_small _ _ Hb).
      reflexivity.
Qed.

Lemma Uvals_ring_laws_witness :
  SparMatU.add_Uvals 32 (3, -4) SparMatU.Uzero = (3, -4) /\
  SparMatU.mult_Uvals 32 (3, -4) (1, 0) = (3, -4).
Proof.
  apply (proj2 (proj2 (proj2 (proj2 (proj2 (proj2
           (Uvals_ring_laws 32 (3, -4) (0, 0) (0, 0))))))));
    vm_compute; split; discriminate.
Defined.

(* ------------------------------------------------------------------ *)
(** ** Reading the input of [sparreduce-U.c] *)

Lemma land_single_bit (x : Z) (n : Z) :
  0 <= n ->
  Z.land x (2 ^ n) = if Z.testbit x n then 2 ^ n else 0.
Proof.
  intros Hn. apply Z.bits_inj'. intros k Hk.
  rewrite Z.land_spec, (Z.pow2_bits_eqb n k Hn).
  destruct (Z.eqb_spec n k) as [->|Hne].
  - destruct (Z.testbit x k); cbn [andb].
    + rewrite Z.pow2_bits_true by assumption. reflexivity.
    + rewrite Z.bits_0. reflexivity.
  - rewrite andb_false_r.
    destruct (Z.testbit x n); [|rewrite Z.bits_0; reflexivity].
    rewrite Z.pow2_bits_false by congruence. reflexivity.
Qed.

(** X11: the packed format is read back as it is written: for a row and
    a column between 1 and 2^31 - 1, a sign 1 or -1 and a flag 0 or 1,
    the word sign * (row * 2^32 + flag * 2^31 + column) is decoded by
    [assign_matrix] into that row and column and the value (sign, 0) for
    flag 0, (0, sign) for flag 1; and whatever the word, the value
    decoded is one of the four units. *)
Theorem unpack_packed (row column sign flag : Z) :
  (1 <= row < 2 ^ 31 -> 1 <= column < 2 ^ 31 ->
   sign = 1 \/ sign = -1 -> flag = 0 \/ flag = 1 ->
   SparReduce.unpack (sign * (row * 2 ^ 32 + flag * 2 ^ 31 + column)) =
   (row, column, if flag =? 1 then (0, sign) else (sign, 0))) /\
  (forall word, In (snd (SparReduce.unpack word)) four_units).
Proof.
  split.
  - intros Hrow Hcol Hsign Hflag.
    set (x := row * 2 ^ 32 + flag * 2 ^ 31 + column).
    assert (Hx : 0 < x < 2 ^ 63) by (unfold x; lia).
    assert (Habs : CInt.abs 64 (sign * x) = x).
    { unfold CInt.abs.
      replace (Z.abs (sign * x)) with x by (destruct Hsign as [->| ->]; lia).
      apply CInt.wrap_small.
      unfold CInt.in_range, CInt.min_int, CInt.max_int.
      change (2 ^ (Z.pos 64 - 1)) with (2 ^ 63). lia. }
    assert (Hneg : (sign * x <? 0) = (sign =? -1)).
    { destruct Hsign as [->| ->]; [|rewrite Z.eqb_refl];
        [destruct (Z.ltb_spec (1 * x) 0); [lia | reflexivity]
        |destruct (Z.ltb_spec (-1 * x) 0); [reflexivity | lia]]. }
    assert (Hshift : Z.shiftr x 32 = row).
    { rewrite Z.shiftr_div_pow2 by lia. unfold x.
      replace (row * 2 ^ 32 + flag * 2 ^ 31 + column)
        with ((flag * 2 ^ 31 + column) + row * 2 ^ 32) by ring.
      rewrite Z.div_add by lia. rewrite Z.div_small by lia. lia. }
    assert (Hlow : Z.land x (Z.shiftl 1 31 - 1) = column).
    { change (Z.shiftl 1 31 - 1) with (Z.ones 31).
      rewrite Z.land_ones by lia. unfold x.
      replace (row * 2 ^ 32 + flag * 2 ^ 31 + column)
        with (column + (row * 2 + flag) * 2 ^ 31) by ring.
      rewrite Z.mod_add by lia. apply Z.mod_small. lia. }
    assert (Hbit : Z.testbit x 31 = (flag =? 1)).
    { assert (Hb : Z.b2z (Z.testbit x 31) = flag).
      { rewrite Z.testbit_spec' by lia. unfold x.
        replace (row * 2 ^ 32 + flag * 2 ^ 31 + column)
          with (column + (row * 2 + flag) * 2 ^ 31) by ring.
        rewrite Z.div_add by lia. rewrite (Z.div_small column) by lia.
        rewrite Z.add_0_l, Z.add_comm, Z.mod_add by lia.
        apply Z.mod_small. lia. }
      destruct (Z.testbit x 31); destruct Hflag as [->| ->];
        simpl in Hb; try discriminate; reflexivity. }
    unfold SparReduce.unpack. fold x. rewrite Habs, Hneg, Hshift, Hlow.
    change (Z.shiftl 1 31) with (2 ^ 31).
    rewrite (land_single_bit x 31) by lia. rewrite Hbit.
    assert (Hr : CInt.wrap 32 row = row).
    { apply CInt.wrap_small.
      unfold CInt.in_range, CInt.min_int, CInt.max_int.
      change (2 ^ (Z.pos 32 - 1)) with (2 ^ 31). lia. }
    assert (Hc : CInt.wrap 32 column = column).
    { apply CInt.wrap_small.
      unfold CInt.in_range, CInt.min_int, CInt.max_int.
      change (2 ^ (Z.pos 32 - 1)) with (2 ^ 31). lia. }
    rewrite Hr, Hc.
    destruct Hflag as [->| ->]; destruct Hsign as [->| ->]; reflexivity.
  - intros word. unfold SparReduce.unpack, four_units. cbn [snd].
    destruct (word <? 0);
      destruct (negb (Z.land (CInt.abs 64 word) (Z.shiftl 1 31) =? 0));
      simpl; auto.
Qed.

Lemma unpack_packed_witness :
  SparReduce.unpack (-1 * (3 * 2 ^ 32 + 1 * 2 ^ 31 + 5)) =
  (3, 5, if 1 =? 1 then (0, -1) else (-1, 0)).
Proof.
  apply (proj1 (unpack_packed 3 5 (-1) 1)); auto; lia.
Defined.

Lemma zat_in_range {A : Type} (l : list A) i :
  0 <= i < Z.of_nat (length l) -> exists a, SparReduce.zat l i = Some a.
Proof.
  intros H. unfold SparReduce.zat. destruct (Z.ltb_spec i 0); [lia|].
  destruct (nth_error l (Z.to_nat i)) eqn:Hn; [eauto|].
  apply nth_error_None in Hn. lia.
Qed.

Lemma zset_length {A : Type} (l : list A) i a :
  length (SparReduce.zset l i a) = length l.
Proof.
  unfold SparReduce.zset. destruct (i <? 0); [reflexivity|].
  apply SparReduce.set_nth_length_any.
Qed.

(** What [init_ranks] knows after [i] groups: the ranks copied so far,
    and [first] and [last] the first and the last group of positive rank
    among them (-1: none). *)
Definition ranks_seen (c_ranks : list Z) (i first last : Z)
    (ranks : list Z) : Prop :=
  (forall j, 0 <= j < i -> SparReduce.zat ranks j = SparReduce.zat c_ranks j)
  /\
  ((first = -1 /\ last = -1 /\
    forall j r, 0 <= j < i -> SparReduce.zat c_ranks j = Some r -> r <= 0) \/
   (0 <= first <= last /\ last < i /\
    (exists r, SparReduce.zat c_ranks first = Some r /\ 0 < r) /\
    (exists r, SparReduce.zat c_ranks last = Some r /\ 0 < r) /\
    (forall j r, 0 <= j < first -> SparReduce.zat c_ranks j = Some r ->
                 r <= 0) /\
    (forall j r, last < j < i -> SparReduce.zat c_ranks j = Some r ->
                 r <= 0))).

Lemma init_ranks_loop_seen (c_ranks : list Z) :
  forall n i first last ranks,
  0 <= i -> i + Z.of_nat n <= Z.of_nat (length ranks) ->
  (forall j, i <= j < i + Z.of_nat n ->
     exists r, SparReduce.zat c_ranks j = Some r /\ CInt.in_range 32 r) ->
  ranks_seen c_ranks i first last ranks ->
  exists first' last' ranks',
    SparReduce.init_ranks_loop n i c_ranks first last ranks =
      SparReduce.Done (first', last', ranks') /\
    length ranks' = length ranks /\
    ranks_seen c_ranks (i + Z.of_nat n) first' last' ranks'.
Proof.
  induction n as [|n IH]; intros i first last ranks Hi Hlen Hin Hseen.
  - exists first, last, ranks. split; [reflexivity|]. split; [reflexivity|].
    replace (i + Z.of_nat 0) with i by lia. exact Hseen.
  - cbn [SparReduce.init_ranks_loop].
    destruct (Hin i ltac:(lia)) as (r & Hr & Hrange). rewrite Hr.
    rewrite (CInt.wrap_small _ _ Hrange).
    destruct (zat_in_range ranks i ltac:(lia)) as (old & Hold).
    assert (Hcopy : forall j, 0 <= j < i + 1 ->
              SparReduce.zat (SparReduce.zset ranks i r) j =
              SparReduce.zat c_ranks j).
    { intros j Hj. destruct (Z.eq_dec j i) as [->|Hne].
      - rewrite (SparReduce.zat_zset_same _ _ _ _ Hold). symmetry. exact Hr.
      - rewrite SparReduce.zat_zset_other by congruence.
        apply (proj1 Hseen). lia. }
    assert (Hstep : exists first1 last1,
      (if r >? 0
       then SparReduce.init_ranks_loop n (i + 1) c_ranks
              (if first <? 0 then i else first) i (SparReduce.zset ranks i r)
       else SparReduce.init_ranks_loop n (i + 1) c_ranks first last
              (SparReduce.zset ranks i r)) =
      SparReduce.init_ranks_loop n (i + 1) c_ranks first1 last1
        (SparReduce.zset ranks i r) /\
      ranks_seen c_ranks (i + 1) first1 last1 (SparReduce.zset ranks i r)).
    { destruct Hseen as [_ Hcase]. destruct (Z.gtb_spec r 0) as [Hpos|Hnon].
      - exists (if first <? 0 then i else first), i.
        split; [reflexivity|]. split; [exact Hcopy|]. right.
        destruct Hcase as [(-> & -> & Hz)|(Hf & Hl & Hfr & Hlr & Hb & Ha)].
        + change (-1 <? 0) with true. cbv iota.
          split; [lia|]. split; [lia|]. split; [eauto|]. split; [eauto|].
          split; [intros j r' Hj; apply Hz; lia | intros; lia].
        + destruct (Z.ltb_spec first 0); [lia|].
          split; [lia|]. split; [lia|]. split; [exact Hfr|].
          split; [eauto|]. split; [exact Hb | intros; lia].
      - exists first, last. split; [reflexivity|]. split; [exact Hcopy|].
        destruct Hcase as [(-> & -> & Hz)|(Hf & Hl & Hfr & Hlr & Hb & Ha)].
        + left. split; [reflexivity|]. split; [reflexivity|].
          intros j r' Hj Hr'.
          destruct (Z.eq_dec j i) as [->|Hne];
            [assert (r' = r) by congruence; lia|].
          apply (Hz j r'); [lia | exact Hr'].
        + right. split; [lia|]. split; [lia|]. split; [exact Hfr|].
          split; [exact Hlr|]. split; [exact Hb|].
          intros j r' Hj Hr'.
          destruct (Z.eq_dec j i) as [->|Hne];
            [assert (r' = r) by congruence; lia|].
          apply (Ha j r'); [lia | exact Hr']. }
    destruct Hstep as (first1 & last1 & -> & Hseen1).
    destruct (IH (i + 1) first1 last1 (SparReduce.zset ranks i r))
      as (first' & last' & ranks' & E & Hlen' & Hseen').
    + lia.
    + rewrite zset_length. lia.
    + intros j Hj. apply Hin. lia.
    + exact Hseen1.
    + exists first', last', ranks'. split; [exact E|].
      split; [rewrite Hlen', zset_length; reflexivity|].
      replace (i + Z.of_nat (S n)) with (i + 1 + Z.of_nat n) by lia.
      exact Hseen'.
Qed.

Lemma init_ranks_ends (st : SparReduce.Complex) (c_ranks : list Z) :
  0 <= SparReduce.cplx_size st <=
    Z.of_nat (length (SparReduce.cplx_group_ranks st)) ->
  (forall j, 0 <= j < SparReduce.cplx_size st ->
     exists r, SparReduce.zat c_ranks j = Some r /\ CInt.in_range 32 r) ->
  exists st' rc,
    SparReduce.init_ranks st c_ranks = SparReduce.Done (st', rc) /\
    SparReduce.num_generators st' = SparReduce.cplx_group_ranks st' /\
    SparReduce.cplx_matrices st' = SparReduce.cplx_matrices st /\
    ranks_seen c_ranks (SparReduce.cplx_size st)
      (SparReduce.first_group st') (SparReduce.last_group st')
      (SparReduce.cplx_group_ranks st') /\
    (rc = -1 /\ SparReduce.first_group st' = -1 \/
     rc = 0 /\ 0 <= SparReduce.first_group st').
Proof.
  intros Hsize Hin. unfold SparReduce.init_ranks.
  destruct (init_ranks_loop_seen c_ranks
              (Z.to_nat (SparReduce.cplx_size st)) 0 (-1) (-1)
              (SparReduce.cplx_group_ranks st))
    as (first & last & ranks & E & _ & Hseen).
  - lia.
  - lia.
  - intros j Hj. apply Hin. lia.
  - split; [intros j Hj; lia|]. left. split; [reflexivity|].
    split; [reflexivity|]. intros j r Hj. lia.
  - rewrite E. cbn [SparReduce.bind].
    replace (0 + Z.of_nat (Z.to_nat (SparReduce.cplx_size st)))
      with (SparReduce.cplx_size st) in Hseen by lia.
    eexists. eexists. split; [reflexivity|]. cbn.
    split; [reflexivity|]. split; [reflexivity|]. split; [exact Hseen|].
    destruct Hseen as [_ [(-> & _)|(Hf & _)]].
    + left. auto.
    + right. destruct (Z.ltb_spec first 0); [lia|]. auto.
Qed.

(** X12: [init_ranks] on [cplx_size] ranks that fit an [int] copies them
    to [cplx_group_ranks] and [num_generators], and leaves in
    [first_group] and [last_group] the first and the last group of
    positive rank: every group before the first or after the last has a
    rank that is not positive; it returns -1, with both at -1, exactly
    when no rank is positive. *)
Theorem init_ranks_finds_ends (st : SparReduce.Complex) (c_ranks : list Z) :
  0 <= SparReduce.cplx_size st <=
    Z.of_nat (length (SparReduce.cplx_group_ranks st)) ->
  (forall j, 0 <= j < SparReduce.cplx_size st ->
     exists r, SparReduce.zat c_ranks j = Some r /\ CInt.in_range 32 r) ->
  exists st' rc,
    SparReduce.init_ranks st c_ranks = SparReduce.Done (st', rc) /\
    SparReduce.num_generators st' = SparReduce.cplx_group_ranks st' /\
    SparReduce.cplx_matrices st' = SparReduce.cplx_matrices st /\
    ranks_seen c_ranks (SparReduce.cplx_size st)
      (SparReduce.first_group st') (SparReduce.last_group st')
      (SparReduce.cplx_group_ranks st') /\
    (rc = -1 /\ SparReduce.first_group st' = -1 \/
     rc = 0 /\ 0 <= SparReduce.first_group st').
Proof. exact (init_ranks_ends st c_ranks). Qed.

Lemma init_ranks_finds_ends_witness :
  exists st' rc,
    SparReduce.init_ranks
      (SparReduce.mkComplex 3 0 0
         [SparReduce.null_matrix; SparReduce.null_matrix]
         [0; 0; 0] [0; 0; 0] [] [] None) [0; 2; 0] =
      SparReduce.Done (st', rc) /\
    SparReduce.num_generators st' = SparReduce.cplx_group_ranks st' /\
    SparReduce.cplx_matrices st' =
      [SparReduce.null_matrix; SparReduce.null_matrix] /\
    ranks_seen [0; 2; 0] 3
      (SparReduce.first_group st') (SparReduce.last_group st')
      (SparReduce.cplx_group_ranks st') /\
    (rc = -1 /\ SparReduce.first_group st' = -1 \/
     rc = 0 /\ 0 <= SparReduce.first_group st').
Proof.
  apply (init_ranks_finds_ends
           (SparReduce.mkComplex 3 0 0
              [SparReduce.null_matrix; SparReduce.null_matrix]
              [0; 0; 0] [0; 0; 0] [] [] None) [0; 2; 0]).
  - cbn. lia.
  - intros j Hj. cbn in Hj.
    assert (Hc : j = 0 \/ j = 1 \/ j = 2) by lia.
    destruct Hc as [->|[->| ->]]; eexists; (split; [reflexivity|]);
      vm_compute; split; discriminate.
Defined.

(** X13: a call of [kill_gen] that returns has taken one generator off
    the count of its group and left the counts of the other groups, the
    ranks and the ends of the complex as they were; the matrices other
    than those below and above the group are untouched. *)
Theorem kill_gen_counts (st st' : SparReduce.Complex) (group gen_num : Z) :
  SparReduce.kill_gen st group gen_num = SparReduce.Done st' ->
  (exists n, SparReduce.zat (SparReduce.num_generators st) group = Some n /\
             SparReduce.num_generators st' =
             SparReduce.zset (SparReduce.num_generators st) group (n - 1)) /\
  SparReduce.cplx_group_ranks st' = SparReduce.cplx_group_ranks st /\
  SparReduce.first_group st' = SparReduce.first_group st /\
  SparReduce.last_group st' = SparReduce.last_group st /\
  (forall k, k <> group - 1 -> k <> group ->
     SparReduce.zat (SparReduce.cplx_matrices st') k =
     SparReduce.zat (SparReduce.cplx_matrices st) k).
Proof.
  intros Hrun.
  destruct (SparReduce.kill_gen_run _ _ _ _ Hrun)
    as (Hf & Hl & Hr & _ & Hoth & _).
  split; [|auto].
  revert Hrun. unfold SparReduce.kill_gen.
  destruct (if group >? SparReduce.first_group st then _ else _)
    as [st1|e|] eqn:H1; cbn [SparReduce.bind]; try discriminate.
  assert (Hg1 : SparReduce.num_generators st1 = SparReduce.num_generators st).
  { destruct (group >? SparReduce.first_group st);
      [|injection H1 as <-; reflexivity].
    destruct (SparReduce.zat _ (group - 1)) as [m|]; [|discriminate].
    destruct (SparMatU.erase_m_row m gen_num 1) as [[m' rc] msg].
    destruct (rc =? -1); [discriminate|]. injection H1 as <-. reflexivity. }
  destruct (if group <? SparReduce.last_group st1 then _ else _)
    as [st2|e|] eqn:H2; cbn [SparReduce.bind]; try discriminate.
  assert (Hg2 : SparReduce.num_generators st2 = SparReduce.num_generators st1).
  { destruct (group <? SparReduce.last_group st1);
      [|injection H2 as <-; reflexivity].
    destruct (SparReduce.zat _ group) as [m|]; [|discriminate].
    destruct (SparMatU.erase_m_column m gen_num 1) as [[m' rc] msg].
    destruct (rc =? -1); [discriminate|]. injection H2 as <-. reflexivity. }
  destruct (SparReduce.zat (SparReduce.num_generators st2) group) as [n|]
    eqn:Hn; [|discriminate].
  intros [= <-]. exists n. cbn. rewrite Hg2, Hg1 in *. auto.
Qed.

Lemma kill_gen_counts_witness :
  exists n,
    SparReduce.zat (SparReduce.num_generators reduced_state) 1 = Some n /\
    SparReduce.num_generators
      (match SparReduce.kill_gen reduced_state 1 1 with
       | SparReduce.Done st' => st'
       | _ => reduced_state
       end) =
    SparReduce.zset (SparReduce.num_generators reduced_state) 1 (n - 1).
Proof.
  apply (proj1 (kill_gen_counts reduced_state _ 1 1 eq_refl)).
Defined.

Lemma gens_loop_flag (value_bits : positive) (ABSFUNC : SparMatU.Uval -> Z)
    (ENTRY_MAX : Z) (group do_short : Z) :
  forall n gen st isfound st' f,
  SparReduce.gens_loop value_bits ABSFUNC ENTRY_MAX n gen st group do_short
    isfound = SparReduce.Done (st', f) ->
  f = 1 \/ (f = isfound /\ st' = st).
Proof.
  induction n as [|n IH]; intros gen st isfound st' f;
    cbn [SparReduce.gens_loop].
  - intros [= <- <-]. auto.
  - destruct (SparReduce.zat _ (group - 1)) as [matr|]; [|discriminate].
    destruct (vec_at (rows matr) gen) as [vec|]; [|discriminate].
    destruct (Core.num_entries vec =? -1); [apply IH|].
    destruct (negb (do_short =? 0) && (Core.num_entries vec >? 2));
      [apply IH|].
    destruct (SparMatU.find_v_unit ABSFUNC vec) as [[inc [coeff|]] msg].
    + destruct (inc =? 0); [apply IH|].
      destruct (SparReduce.eliminate_gen _ _ _ st group gen matr vec inc coeff)
        as [st1|e|]; cbn [SparReduce.bind]; try discriminate.
      intros Hrun. destruct (IH _ _ _ _ _ Hrun) as [H|[H _]]; auto.
    + destruct (inc =? 0); [apply IH | discriminate].
Qed.

(** X14: [eliminate_gens] returns 0 or 1, and when it returns 0 it has
    eliminated nothing: the numbers of generators, the ranks and the
    ends of the complex are as before, and so is every matrix that had
    been read in before the call. *)
Theorem eliminate_gens_zero_is_idle (value_bits : positive)
    (ABSFUNC : SparMatU.Uval -> Z) (ENTRY_MAX : Z)
    (st st' : SparReduce.Complex) (group do_short f : Z) :
  SparReduce.eliminate_gens value_bits ABSFUNC ENTRY_MAX st group do_short =
    SparReduce.Done (st', f) ->
  (f = 0 \/ f = 1) /\
  (f = 0 ->
   SparReduce.num_generators st' = SparReduce.num_generators st /\
   SparReduce.cplx_group_ranks st' = SparReduce.cplx_group_ranks st /\
   SparReduce.first_group st' = SparReduce.first_group st /\
   SparReduce.last_group st' = SparReduce.last_group st /\
   forall k m, SparReduce.zat (SparReduce.cplx_matrices st) k = Some m ->
               SparReduce.rows_null m = false ->
               SparReduce.zat (SparReduce.cplx_matrices st') k = Some m).
Proof.
  unfold SparReduce.eliminate_gens.
  assert (Hens : forall s k s',
    SparReduce.ensure_matrix ABSFUNC ENTRY_MAX s k =
      SparReduce.Done s' ->
    SparReduce.num_generators s' = SparReduce.num_generators s /\
    SparReduce.cplx_group_ranks s' = SparReduce.cplx_group_ranks s /\
    SparReduce.first_group s' = SparReduce.first_group s /\
    SparReduce.last_group s' = SparReduce.last_group s /\
    forall j m, SparReduce.zat (SparReduce.cplx_matrices s) j = Some m ->
                SparReduce.rows_null m = false ->
                SparReduce.zat (SparReduce.cplx_matrices s') j = Some m).
  { intros s k s' Hrun.
    destruct (SparReduce.ensure_matrix_run _ _ _ _ _ Hrun)
      as (Hl & Hf & Hr & _ & Hoth & m0 & Hm0 & Hcase).
    assert (Hng : SparReduce.num_generators s' = SparReduce.num_generators s).
    { revert Hrun. unfold SparReduce.ensure_matrix. rewrite Hm0.
      destruct (SparReduce.rows_null m0); [|intros [= <-]; reflexivity].
      unfold SparReduce.init_diff_matrix.
      destruct (_ || _); [intros [= <-]; reflexivity|].
      destruct (SparReduce.zat _ (k + 1)); [|discriminate].
      destruct (SparReduce.zat (SparReduce.cplx_group_ranks s) k);
        [|discriminate].
      destruct (SparMatU.init_s_matrix _ _) as [[[mm|] rc] e];
        [|discriminate].
      destruct (SparReduce.zat (SparReduce.pari_matrices s) k);
        [|discriminate].
      destruct (SparReduce.zat (SparReduce.num_entries_gen s) k);
        [|discriminate].
      destruct (SparReduce.assign_matrix _ _ _ _ _ _); cbn [SparReduce.bind];
        try discriminate.
      intros [= <-]. reflexivity. }
    repeat (split; [assumption|]).
    intros j m Hj Hnull. destruct (Z.eq_dec j k) as [->|Hne].
    - rewrite Hm0 in Hj. injection Hj as <-.
      destruct Hcase as [[_ ->]|[Hn _]]; [exact Hm0 | congruence].
    - rewrite Hoth by exact Hne. exact Hj. }
  destruct (if group >? SparReduce.first_group st + 1 then _ else _)
    as [st1|e|] eqn:H1; cbn [SparReduce.bind]; try discriminate.
  destruct (if group >? SparReduce.first_group st1 then _ else _)
    as [st2|e|] eqn:H2; cbn [SparReduce.bind]; try discriminate.
  destruct (if group <? SparReduce.last_group st2 then _ else _)
    as [st3|e|] eqn:H3; cbn [SparReduce.bind]; try discriminate.
  destruct (SparReduce.zat (SparReduce.cplx_group_ranks st3) group)
    as [rank|]; [|discriminate].
  intros Hrun.
  destruct (gens_loop_flag _ _ _ _ _ _ _ _ _ _ _ Hrun) as [->|[-> ->]].
  { split; [auto | discriminate]. }
  split; [auto|]. intros _.
  assert (Hskip : forall (b : bool) s k s',
    (if b then SparReduce.ensure_matrix ABSFUNC ENTRY_MAX s k
     else SparReduce.Done s) = SparReduce.Done s' ->
    SparReduce.num_generators s' = SparReduce.num_generators s /\
    SparReduce.cplx_group_ranks s' = SparReduce.cplx_group_ranks s /\
    SparReduce.first_group s' = SparReduce.first_group s /\
    SparReduce.last_group s' = SparReduce.last_group s /\
    forall j m, SparReduce.zat (SparReduce.cplx_matrices s) j = Some m ->
                SparReduce.rows_null m = false ->
                SparReduce.zat (SparReduce.cplx_matrices s') j = Some m).
  { intros [|] s k s' Hb; [exact (Hens _ _ _ Hb)|].
    injection Hb as <-. auto. }
  destruct (Hskip _ _ _ _ H1) as (A1 & B1 & C1 & D1 & E1).
  destruct (Hskip _ _ _ _ H2) as (A2 & B2 & C2 & D2 & E2).
  destruct (Hskip _ _ _ _ H3) as (A3 & B3 & C3 & D3 & E3).
  split; [congruence|]. split; [congruence|]. split; [congruence|].
  split; [congruence|]. intros k m Hk Hnull. auto.
Qed.

Lemma eliminate_gens_zero_is_idle_witness :
  (0 = 0 \/ 0 = 1) /\
  (0 = 0 ->
   SparReduce.num_generators reduced_state =
     SparReduce.num_generators reduced_state /\
   SparReduce.cplx_group_ranks reduced_state =
     SparReduce.cplx_group_ranks reduced_state /\
   SparReduce.first_group reduced_state =
     SparReduce.first_group reduced_state /\
   SparReduce.last_group reduced_state =
     SparReduce.last_group reduced_state /\
   forall k m,
     SparReduce.zat (SparReduce.cplx_matrices reduced_state) k = Some m ->
     SparReduce.rows_null m = false ->
     SparReduce.zat (SparReduce.cplx_matrices reduced_state) k = Some m).
Proof.
  apply (eliminate_gens_zero_is_idle 64 magnitude 4611686018427387903
           reduced_state reduced_state 1 1 0).
  vm_compute. reflexivity.
Defined.

(** X15: a group of rank 0 right after the first group of positive rank,
    with a group of positive rank further on, makes the reduction bail
    out: for ranks that fit an [int], the first pass over the group
    after the first one reads the matrix between them in, and
    [init_s_matrix] refuses its number of rows. *)
Theorem zero_rank_gap_bails (value_bits : positive)
    (ABSFUNC : SparMatU.Uval -> Z) (ENTRY_MAX : Z)
    (fuel : nat) (c_size : Z) (c_ranks : list Z)
    (d_matrices : list SparReduce.GEN) (matr_lengths : list Z)
    (f l r0 r1 rl : Z) :
  1 <= c_size <= 2147483647 -> fuel <> O ->
  (forall j, 0 <= j < c_size ->
     exists r, SparReduce.zat c_ranks j = Some r /\ CInt.in_range 32 r) ->
  0 <= f -> f + 1 < l < c_size ->
  SparReduce.zat c_ranks f = Some r0 -> 0 < r0 ->
  (forall j r, 0 <= j < f -> SparReduce.zat c_ranks j = Some r -> r <= 0) ->
  SparReduce.zat c_ranks (f + 1) = Some r1 -> r1 <= 0 ->
  SparReduce.zat c_ranks l = Some rl -> 0 < rl ->
  SparReduce.reduce_s_complex_U value_bits ABSFUNC ENTRY_MAX fuel c_size
    c_ranks d_matrices matr_lengths =
  SparReduce.Bail
    (Some "init_s_matrix: number of rows or columns is too small"%string).
Proof.
  intros Hsize Hfuel Hin Hf Hl Hr0 Hpos0 Hbefore Hr1 Hnon1 Hrl Hposl.
  unfold SparReduce.reduce_s_complex_U, SparReduce.malloc_arrays.
  assert (Hw : CInt.wrap 32 c_size = c_size).
  { apply CInt.wrap_small. unfold CInt.in_range, CInt.min_int, CInt.max_int.
    change (2 ^ (Z.pos 32 - 1)) with 2147483648. lia. }
  rewrite Hw. destruct (Z.ltb_spec (c_size - 1) 0); [lia|].
  cbn [SparReduce.bind SparReduce.cplx_size SparReduce.first_group
       SparReduce.last_group SparReduce.cplx_matrices
       SparReduce.cplx_group_ranks SparReduce.num_generators
       SparReduce.ERR_MESSAGE].
  set (st := SparReduce.mkComplex c_size 0 0 _ _ _ d_matrices matr_lengths
               None).
  destruct (init_ranks_ends st c_ranks) as (st1 & rc & E & _ & Hms & Hseen & Hrc).
  { cbn. rewrite repeat_length. lia. }
  { exact Hin. }
  rewrite E. cbn [SparReduce.bind].
  destruct Hseen as [Hcopy Hends]. cbn [SparReduce.cplx_size st] in *.
  assert (Hfirst : SparReduce.first_group st1 = f /\
                   l <= SparReduce.last_group st1 < c_size).
  { change (SparReduce.cplx_size st) with c_size in *.
    destruct Hends as [(_ & _ & Hz)|(H1 & H2 & (a & Ha & Hpa) & _ & Hb & Hafter)].
    - specialize (Hz l rl ltac:(lia) Hrl). lia.
    - split.
      + destruct (Z.lt_trichotomy (SparReduce.first_group st1) f)
          as [Hlt|[Heq|Hgt]]; [|exact Heq|].
        * specialize (Hbefore (SparReduce.first_group st1) a ltac:(lia) Ha).
          lia.
        * specialize (Hb f r0 ltac:(lia) Hr0). lia.
      + split; [|lia].
        destruct (Z.le_gt_cases l (SparReduce.last_group st1)); [assumption|].
        specialize (Hafter l rl ltac:(lia) Hrl). lia. }
  destruct Hfirst as [Hfst Hlst].
  destruct Hrc as [[_ Hneg]|[-> _]]; [lia|].
  change (0 =? -1) with false. cbv iota.
  replace (Z.to_nat (SparReduce.last_group st1 - SparReduce.first_group st1))
    with (S (Z.to_nat (SparReduce.last_group st1 - f - 1))) by lia.
  cbn [SparReduce.groups_loop].
  destruct fuel as [|fuel]; [contradiction|].
  cbn [SparReduce.eliminate_while]. unfold SparReduce.eliminate_gens.
  rewrite Hfst.
  destruct (Z.gtb_spec (f + 1) (f + 1)); [lia|]. cbn [SparReduce.bind].
  rewrite Hfst. destruct (Z.gtb_spec (f + 1) f); [|lia].
  replace (f + 1 - 1) with f by lia.
  unfold SparReduce.ensure_matrix. rewrite Hms.
  assert (Hnull : SparReduce.zat (SparReduce.cplx_matrices st) f =
                  Some SparReduce.null_matrix).
  { unfold SparReduce.zat. cbn [SparReduce.cplx_matrices st].
    destruct (Z.ltb_spec f 0); [lia|].
    apply nth_error_repeat. lia. }
  rewrite Hnull. cbn [SparReduce.rows_null SparReduce.null_matrix rows].
  unfold SparReduce.init_diff_matrix. rewrite Hfst.
  destruct (Z.ltb_spec f f); [lia|].
  destruct (Z.geb_spec f (SparReduce.last_group st1)); [lia|].
  cbn [orb].
  rewrite (Hcopy (f + 1)) by (change (SparReduce.cplx_size st) with c_size; lia).
  rewrite (Hcopy f) by (change (SparReduce.cplx_size st) with c_size; lia).
  rewrite Hr1, Hr0.
  unfold SparMatU.init_s_matrix, Core.init_s_matrix.
  destruct (Z.ltb_spec r1 1); [|lia]. reflexivity.
Qed.

Lemma zero_rank_gap_bails_witness :
  SparReduce.reduce_s_complex_U 64 magnitude 4611686018427387903 1 3
    [1; 0; 1] [] [] =
  SparReduce.Bail
    (Some "init_s_matrix: number of rows or columns is too small"%string).
Proof.
  apply (zero_rank_gap_bails 64 magnitude 4611686018427387903 1 3 [1; 0; 1]
           [] [] 0 2 1 0 1); try lia; try reflexivity; try discriminate.
  - intros j Hj.
    assert (Hc : j = 0 \/ j = 1 \/ j = 2) by lia.
    destruct Hc as [->|[->| ->]]; eexists; (split; [reflexivity|]);
      vm_compute; split; discriminate.
Defined.
